(** * LSH Forest (lshforest.go): a shallow embedding and its properties

    The development follows [src/lshforest.go]:
    - Go's [int] is a 64-bit two's complement integer: [Z] with the
      wrap-around of [*] and [+] written out ([imul], [iadd]);
    - a Go [string] is a [string], compared byte-wise ([String.compare]);
      the slice expression [s[:n]] panics out of range ([strPrefix]);
    - a panic is [None] in the [option] monad;
    - [initHashTable] ([map[string]keys]) is a [gmap string (list string)];
      [hashTable] ([[]bucket]) is a [list bucket];
    - the goroutines of [Add] and [Index] each own one table of the index, so
      they are run one band after the other; the goroutines of [Query] send
      to one channel, so the stream that the consumer reads is any
      interleaving of the per-band streams ([interleave]);
    - Go leaves open the iteration order of a map and the order in which
      [sort.Sort] leaves equal elements: [Index_rel] relates an index to
      every outcome of [Index()], and [Index] computes one of them. *)

From Stdlib Require Import ZArith Floats.SpecFloat.
From Equations Require Import Equations.
From stdpp Require Import gmap strings list fin_maps sorting.

Open Scope Z_scope.

(** ** Go's [int] *)

Definition min_int : Z := - 2 ^ 63.
Definition max_int : Z := 2 ^ 63 - 1.

(** The value of a 64-bit two's complement integer whose mathematical value
    would be [z]. *)
Definition wrap (z : Z) : Z := (z + 2 ^ 63) mod 2 ^ 64 - 2 ^ 63.

Definition imul (a b : Z) : Z := wrap (a * b).
Definition iadd (a b : Z) : Z := wrap (a + b).

(** ** Slices and strings *)

(** [type Signature []uint64] (declared next to the MinHash code, not in
    [lshforest.go]).  A signature is modelled by the values of its backing
    array from the start of the slice up to its capacity: Go checks a slice
    expression [sig[lo:hi]] on a slice against the capacity, so this list
    decides which expressions panic.  A signature of length [n] has at
    least [n] values. *)
Abbreviation Signature := (list Z).

(** A slice of 8-byte values fits in the address space. *)
Definition sig_wf (sig : Signature) : Prop := 8 * Z.of_nat (length sig) <= max_int.

(** [sig[lo:hi]]: panics unless [0 <= lo <= hi <= cap(sig)]. *)
Definition slice (sig : Signature) (lo hi : Z) : option (list Z) :=
  if decide (0 <= lo ∧ lo <= hi ∧ hi <= Z.of_nat (length sig))
  then Some (take (Z.to_nat (hi - lo)) (drop (Z.to_nat lo) sig))
  else None.

(** [s[:n]] on a string: panics unless [0 <= n <= len(s)]. *)
Definition strPrefix (s : string) (n : Z) : option string :=
  if decide (0 <= n ∧ n <= Z.of_nat (String.length s))
  then Some (String.substring 0 (Z.to_nat n) s)
  else None.

(** ** The data model *)

(** [type keys []string], [type initHashTable map[string]keys]. *)
Abbreviation keys_t := (list string).
Abbreviation initHashTable := (gmap string (list string)).

(** [type bucket struct { hashKey string; keys keys }] *)
Record bucket : Type := mkBucket { hashKey : string; keys : keys_t }.

(** [type hashTable []bucket] *)
Abbreviation hashTable := (list bucket).

(** [func (h hashTable) Less(i, j int) bool], on the two buckets. *)
Definition Less (a b : bucket) : bool := String.ltb (hashKey a) (hashKey b).

(** [type LshForest struct] *)
Record LshForest : Type := mkLshForest {
  k : Z;
  l : Z;
  initHashTables : list initHashTable;
  hashTables : list hashTable;
  hashKeyFunc : list Z → string;
  hashValueSize : Z
}.

(** [float64] is IEEE 754 binary64. *)
Abbreviation float64 := spec_float.

(** ** The encoder of hash values *)

(** Modelled from the spec: [hashKeyFuncGen] is declared outside
    [lshforest.go].  The spec (sections 2 and 6) asks of the encoder that it
    packs each hash value in [width] bytes, and that the encoding of a prefix
    of a sequence is the prefix of the encoding of the sequence. *)
Record hashKeyFuncGen_spec (gen : Z → list Z → string) : Prop := {
  gen_length : ∀ w hs, 0 < w →
    Z.of_nat (String.length (gen w hs)) = w * Z.of_nat (length hs);
  gen_prefix : ∀ w hs n, 0 < w →
    gen w (take n hs) = String.substring 0 (Z.to_nat w * n) (gen w hs)
}.

(** Modelled from the spec: one encoder with these two properties, the low
    [w] bytes of each value, most significant byte first. *)
Fixpoint encodeValue (w : nat) (h : Z) : string :=
  match w with
  | O => EmptyString
  | S w' => String (Ascii.ascii_of_N (Z.to_N ((h / 256 ^ Z.of_nat w') mod 256))) (encodeValue w' h)
  end.

Fixpoint encodeValues (w : Z) (hs : list Z) : string :=
  match hs with
  | [] => EmptyString
  | h :: hs' => String.app (encodeValue (Z.to_nat w) h) (encodeValues w hs')
  end.

Section Forest.

(** [hashKeyFuncGen], a parameter of the index. *)
Variable hashKeyFuncGen : Z → list Z → string.

(** ** Construction *)

(** [func newLshForest(k, l, hashValueSize int) *LshForest] *)
Definition newLshForest (k l hashValueSize : Z) : option LshForest :=
  if (k <? 0) || (l <? 0) then None
  else Some {|
    k := k;
    l := l;
    hashValueSize := hashValueSize;
    initHashTables := replicate (Z.to_nat l) ∅;
    hashTables := replicate (Z.to_nat l) [];
    hashKeyFunc := hashKeyFuncGen hashValueSize
  |}.

Definition NewLshForest64 (k l : Z) : option LshForest := newLshForest k l 8.
Definition NewLshForest32 (k l : Z) : option LshForest := newLshForest k l 4.
Definition NewLshForest16 (k l : Z) : option LshForest := newLshForest k l 2.

(** ** Add *)

(** [f.hashKeyFunc(sig[i*f.k : (i+1)*f.k])] *)
Definition addKey (f : LshForest) (sig : Signature) (i : Z) : option string :=
  hs ← slice sig (imul i (k f)) (imul (iadd i 1) (k f));
  Some (hashKeyFunc f hs).

(** The body of the goroutine of [Add]: append [key] to the entry of [hk],
    or make the entry. *)
Definition stage (ht : initHashTable) (hk key : string) : initHashTable :=
  match ht !! hk with
  | Some ks => <[hk := ks ++ [key]]> ht
  | None => <[hk := [key]]> ht
  end.

(** [func (f *LshForest) Add(key string, sig Signature)].  [make] panics
    on a negative length, and [Hs[i]] when [Hs] is shorter than
    [f.initHashTables]. *)
Definition Add (f : LshForest) (key : string) (sig : Signature) : option LshForest :=
  if l f <? 0 then None
  else
    Hs ← mapM (addKey f sig) (seqZ 0 (l f));
    if decide (length (initHashTables f) ≤ length Hs)%nat
    then Some {|
      k := k f;
      l := l f;
      hashValueSize := hashValueSize f;
      initHashTables := zip_with (λ ht hk, stage ht hk key) (initHashTables f) Hs;
      hashTables := hashTables f;
      hashKeyFunc := hashKeyFunc f
    |}
    else None.

(** ** Index *)

(** The buckets that the loop [for hashKey := range initHt] appends. *)
Definition staged (initHt : initHashTable) : list bucket :=
  (λ p, mkBucket p.1 p.2) <$> map_to_list initHt.

(** What [sort.Sort] leaves: no bucket is [Less] than one before it. *)
Definition notAfter (a b : bucket) : Prop := Less b a = false.

Global Instance notAfter_dec : RelDecision notAfter.
Proof. intros a b. unfold notAfter. apply _. Defined.

(** Every outcome of [sort.Sort(ht)]: a sorted rearrangement of [ht]. *)
Definition sortOutcome (ht ht' : hashTable) : Prop :=
  ht' ≡ₚ ht ∧ Sorted notAfter ht'.

(** One such outcome. *)
Definition sort_Sort (ht : hashTable) : hashTable := merge_sort notAfter ht.

(** The goroutine of [Index] on one band, for every order in which the map
    is ranged over and every outcome of the sort. *)
Definition bandIndexed (ht : hashTable) (initHt : initHashTable) (ht' : hashTable) : Prop :=
  sortOutcome (ht ++ staged initHt) ht'.

(** [func (f *LshForest) Index()], as a relation between the index before
    and after.  [f.initHashTables[i]] panics when there are fewer staging
    tables than band tables. *)
Record Index_rel (f f' : LshForest) : Prop := {
  Index_no_panic : (length (hashTables f) ≤ length (initHashTables f))%nat;
  Index_k : k f' = k f;
  Index_l : l f' = l f;
  Index_hashValueSize : hashValueSize f' = hashValueSize f;
  Index_hashKeyFunc : hashKeyFunc f' = hashKeyFunc f;
  Index_hashTables :
    Forall2 (λ p ht', bandIndexed p.1 p.2 ht')
            (zip (hashTables f) (initHashTables f)) (hashTables f');
  Index_initHashTables :
    initHashTables f' =
      replicate (length (hashTables f)) ∅
        ++ drop (length (hashTables f)) (initHashTables f)
}.

(** [Index()], with the map ranged over in the order of [map_to_list] and a
    merge sort. *)
Definition Index (f : LshForest) : option LshForest :=
  if decide (length (hashTables f) ≤ length (initHashTables f))%nat
  then Some {|
    k := k f;
    l := l f;
    hashValueSize := hashValueSize f;
    initHashTables :=
      replicate (length (hashTables f)) ∅
        ++ drop (length (hashTables f)) (initHashTables f);
    hashTables :=
      zip_with (λ ht initHt, sort_Sort (ht ++ staged initHt))
               (hashTables f) (initHashTables f);
    hashKeyFunc := hashKeyFunc f
  |}
  else None.

(** ** Query *)

(** [sort.Search] of Go's library: the loop
    [for i < j { h := int(uint(i+j) >> 1); if !f(h) { i = h + 1 } else { j = h } }],
    with a predicate that may panic. *)
Equations? search_loop (f : nat → option bool) (i j : nat) : option nat
  by wf (j - i)%nat lt :=
  search_loop f i j with decide (i < j)%nat := {
    | left _ with f ((i + j) / 2)%nat := {
        | None => None
        | Some false => search_loop f (S ((i + j) / 2)) j
        | Some true => search_loop f i ((i + j) / 2)%nat }
    | right _ => Some i }.
Proof.
  all: change (Nat.divmod (i + j) 1 0 1).1 with ((i + j) / 2)%nat;
       pose proof (Nat.div_mod_eq (i + j) 2);
       pose proof (Nat.mod_upper_bound (i + j) 2); lia.
Qed.

Definition sort_Search (n : nat) (f : nat → option bool) : option nat :=
  search_loop f 0 n.

(** [ht[x].hashKey[:prefixSize] >= hk] *)
Definition atOrAfter (ht : hashTable) (hk : string) (prefixSize : Z) (x : nat) : option bool :=
  b ← ht !! x;
  p ← strPrefix (hashKey b) prefixSize;
  Some (String.leb hk p).

(** [for j := k; j < len(ht) && ht[j].hashKey[:prefixSize] == hk; j++],
    on the buckets from [k] on: the keys sent to [keyChan], in order. *)
Fixpoint scanRun (bs : list bucket) (hk : string) (prefixSize : Z) : option (list string) :=
  match bs with
  | [] => Some []
  | b :: bs' =>
      p ← strPrefix (hashKey b) prefixSize;
      if String.eqb p hk
      then rest ← scanRun bs' hk prefixSize; Some (keys b ++ rest)
      else Some []
  end.

(** The goroutine of [Query] on one band. *)
Definition bandSearch (ht : hashTable) (hk : string) (prefixSize : Z) : option (list string) :=
  k ← sort_Search (length ht) (atOrAfter ht hk prefixSize);
  match ht !! k with
  | Some b =>
      p ← strPrefix (hashKey b) prefixSize;
      if String.eqb p hk then scanRun (drop k ht) hk prefixSize else Some []
  | None => Some []
  end.

(** [f.hashKeyFunc(sig[i*f.k : i*f.k+K])] *)
Definition queryKey (f : LshForest) (sig : Signature) (K : Z) (i : Z) : option string :=
  hs ← slice sig (imul i (k f)) (iadd (imul i (k f)) K);
  Some (hashKeyFunc f hs).

(** [Query] once [K] and [L] are set: the stream of keys that each of the
    [L] goroutines sends, or a panic.  [make([]string, L)] panics on a
    negative [L], [f.hashTables[i]] out of range. *)
Definition searchBands (f : LshForest) (sig : Signature) (K L : Z) : option (list (list string)) :=
  let prefixSize := imul (hashValueSize f) K in
  if L <? 0 then None
  else
    Hs ← mapM (queryKey f sig K) (seqZ 0 L);
    mapM (λ p, ht ← hashTables f !! Z.to_nat p.1; bandSearch ht p.2 prefixSize)
         (zip (seqZ 0 L) Hs).

(** The first part of [Query]: [K == -1] and [L == -1] stand for [f.k] and
    [f.l]. *)
Definition Query_bands (f : LshForest) (sig : Signature) (K L : Z) : option (list (list string)) :=
  searchBands f sig (if K =? -1 then k f else K) (if L =? -1 then l f else L).

(** The streams of the goroutines merged in the channel [keyChan]. *)
Inductive interleave {A : Type} : list (list A) → list A → Prop :=
  | interleave_nil (ls : list (list A)) :
      Forall (λ s, s = []) ls → interleave ls []
  | interleave_cons (ls : list (list A)) (i : nat) (x : A) (s rest : list A) :
      ls !! i = Some (x :: s) →
      interleave (<[i := s]> ls) rest →
      interleave ls (x :: rest).

(** The loop [for key := range keyChan] with the map [seens]. *)
Fixpoint dedup (seens : gmap string bool) (stream : list string) : list string :=
  match stream with
  | [] => []
  | key :: rest =>
      match seens !! key with
      | Some _ => dedup seens rest
      | None => key :: dedup (<[key := true]> seens) rest
      end
  end.

(** [func (f *LshForest) Query(sig Signature, K, L int, out chan string)]:
    [out] is a sequence of keys that a run of [Query] sends to [out]. *)
Definition Query_rel (f : LshForest) (sig : Signature) (K L : Z) (out : list string) : Prop :=
  ∃ streams stream,
    Query_bands f sig K L = Some streams ∧
    interleave streams stream ∧
    out = dedup ∅ stream.

(** The run in which the goroutines send one after the other. *)
Definition Query (f : LshForest) (sig : Signature) (K L : Z) : option (list string) :=
  streams ← Query_bands f sig K L;
  Some (dedup ∅ (concat streams)).

(** ** OptimalKL *)

Definition f64_add : float64 → float64 → float64 := SFadd 53 1024.
Definition f64_gt (a b : float64) : bool := SFltb b a.
Definition f64_le (a b : float64) : bool := SFleb a b.

(** [math.MaxFloat64] *)
Definition MaxFloat64 : float64 := S754_finite false 9007199254740991 971.

(** [integrationPrecision = 0.01], the nearest binary64 value. *)
Definition integrationPrecision : float64 := S754_finite false 5764607523034235 (-59).

(** The variables of the loop of [OptimalKL]. *)
Record optState : Type := mkOptState {
  minError : float64;
  optK : Z;
  optL : Z;
  fp : float64;
  fn : float64
}.

(** [probFalsePositive] and [probFalseNegative] are declared outside
    [lshforest.go]: parameters. *)
Variable probFalsePositive probFalseNegative : Z → Z → Z → Z → float64 → float64 → float64.

(** [currErr] at [(l, k)]. *)
Definition currErr (x q : Z) (t : float64) (lv kv : Z) : float64 :=
  f64_add (probFalseNegative x q lv kv t integrationPrecision)
          (probFalsePositive x q lv kv t integrationPrecision).

(** The body of the inner loop. *)
Definition optStep (x q : Z) (t : float64) (lv kv : Z) (s : optState) : optState :=
  let currFp := probFalsePositive x q lv kv t integrationPrecision in
  let currFn := probFalseNegative x q lv kv t integrationPrecision in
  let currErr := f64_add currFn currFp in
  if f64_gt (minError s) currErr
  then {| minError := currErr; optK := kv; optL := lv; fp := currFp; fn := currFn |}
  else s.

(** [minError := math.MaxFloat64] and the zero values of the results. *)
Definition optInit : optState :=
  {| minError := MaxFloat64; optK := 0; optL := 0;
     fp := S754_zero false; fn := S754_zero false |}.

(** The loop over [k] for one [l]. *)
Definition optRow (x q : Z) (t : float64) (kmax : Z) (s : optState) (lv : Z) : optState :=
  foldl (λ s kv, optStep x q t lv kv s) s (seqZ 1 kmax).

(** [func (f *LshForest) OptimalKL(x, q int, t float64)]; the two loops
    count from 1 to [f.l] and to [f.k], which are less than [MaxInt64]: at
    [MaxInt64] the counter of [for l := 1; l <= f.l; l++] would wrap around
    and the loop would not end. *)
Definition OptimalKL_loop (f : LshForest) (x q : Z) (t : float64) : optState :=
  foldl (optRow x q t (k f)) optInit (seqZ 1 (l f)).

Definition OptimalKL (f : LshForest) (x q : Z) (t : float64) : Z * Z * float64 * float64 :=
  let s := OptimalKL_loop f x q t in (optK s, optL s, fp s, fn s).

(** The pairs [(l, k)] that the loops have scanned when the inner loop has
    done [k = j] in the row [l = lv]. *)
Definition scannedBefore (kmax lv j : Z) (p : Z * Z) : Prop :=
  1 <= p.1 ∧ 1 <= p.2 <= kmax ∧ (p.1 < lv ∨ (p.1 = lv ∧ p.2 <= j)).

(** [p] is scanned before [(lv, kv)]. *)
Definition scanLt (p : Z * Z) (lv kv : Z) : Prop :=
  p.1 < lv ∨ (p.1 = lv ∧ p.2 < kv).

(** The invariant of the loops of [OptimalKL]: nothing is scanned yet, or
    the state is that of a scanned pair whose error is least, and less than
    the error of every pair scanned before it. *)
Definition optInv (x q : Z) (t : float64) (kmax lv j : Z) (s : optState) : Prop :=
  (lv = 1 ∧ j = 0 ∧ s = optInit) ∨
  (scannedBefore kmax lv j (optL s, optK s) ∧
   fp s = probFalsePositive x q (optL s) (optK s) t integrationPrecision ∧
   fn s = probFalseNegative x q (optL s) (optK s) t integrationPrecision ∧
   minError s = currErr x q t (optL s) (optK s) ∧
   (∀ p, scannedBefore kmax lv j p →
      f64_le (minError s) (currErr x q t p.1 p.2) = true) ∧
   (∀ p, scannedBefore kmax lv j p → scanLt p (optL s) (optK s) →
      f64_gt (currErr x q t p.1 p.2) (minError s) = true)).

(** ** The indexes that a program builds *)

(** A value of type [int]. *)
Definition is_int (z : Z) : Prop := min_int <= z <= max_int.

(** The indexes reached from a constructor by calls of [Add] and [Index]
    that return.  The three constructors pass the widths 2, 4 and 8. *)
Inductive built : LshForest → Prop :=
  | built_new (kv lv hvs : Z) (f : LshForest) :
      is_int kv → is_int lv → 0 < hvs <= 8 →
      newLshForest kv lv hvs = Some f →
      built f
  | built_Add (f f' : LshForest) (key : string) (sig : Signature) :
      built f → sig_wf sig →
      Add f key sig = Some f' →
      built f'
  | built_Index (f f' : LshForest) :
      built f →
      Index_rel f f' →
      built f'.

(** One call of [Add] or of [Index] that returns. *)
Inductive step : LshForest → LshForest → Prop :=
  | step_Add (f f' : LshForest) (key : string) (sig : Signature) :
      sig_wf sig → Add f key sig = Some f' → step f f'
  | step_Index (f f' : LshForest) :
      Index_rel f f' → step f f'.

(** The shape of every index that a program builds. *)
Record forest_inv (f : LshForest) : Prop := {
  inv_k : 0 <= k f <= max_int;
  inv_l : 0 <= l f <= max_int;
  inv_hashTables_length : length (hashTables f) = Z.to_nat (l f);
  inv_initHashTables_length : length (initHashTables f) = Z.to_nat (l f);
  inv_keys : ∀ ht b, ht ∈ hashTables f → b ∈ ht → keys b ≠ [];
  inv_sorted : ∀ ht, ht ∈ hashTables f → Sorted notAfter ht;
  inv_staged_keys : ∀ (m : initHashTable) hk ks,
    m ∈ initHashTables f → m !! hk = Some ks → ks ≠ []
}.

(** A hash key of the index [f] encodes [f.k] values. *)
Definition hashKey_ok (f : LshForest) (hk : string) : Prop :=
  Z.of_nat (String.length hk) = hashValueSize f * k f ∧ 8 * k f <= max_int.

(** The hash keys of every index that a program builds. *)
Record forest_enc (f : LshForest) : Prop := {
  enc_hashValueSize : 0 < hashValueSize f <= 8;
  enc_hashKeyFunc : hashKeyFunc f = hashKeyFuncGen (hashValueSize f);
  enc_buckets : ∀ ht b, ht ∈ hashTables f → b ∈ ht → hashKey_ok f (hashKey b);
  enc_staged : ∀ (m : initHashTable) hk,
    m ∈ initHashTables f → is_Some (m !! hk) → hashKey_ok f hk
}.

(** A band table without two buckets of one hash key, in ascending order. *)
Definition strictlySorted (ht : hashTable) : Prop :=
  Sorted (λ a b, Less a b = true) ht.

End Forest.

(** ** The scenario of the spec (section 8)

    An index with [k = 4], [l = 4] and 32-bit hash values; ["A"] is added
    and indexed, then ["B"] with the signature of ["A"], and indexed again. *)

Definition sigA : Signature := [1; 1; 1; 1; 2; 2; 2; 2; 3; 3; 3; 3; 4; 4; 4; 4].
Definition sigB : Signature := [5; 6; 7; 8; 9; 10; 11; 12; 13; 14; 15; 16; 17; 18; 19; 20].

Definition forest0 : LshForest := {|
  k := 4;
  l := 4;
  hashValueSize := 4;
  initHashTables := replicate 4 ∅;
  hashTables := replicate 4 [];
  hashKeyFunc := encodeValues 4
|}.

Definition forest1 : LshForest :=
  Eval vm_compute in default forest0 (Add forest0 "A" sigA).
Definition forest2 : LshForest :=
  Eval vm_compute in default forest1 (Index forest1).
Definition forest3 : LshForest :=
  Eval vm_compute in default forest2 (Add forest2 "B" sigA).
Definition forest4 : LshForest :=
  Eval vm_compute in default forest3 (Index forest3).

(** Probabilities for the scenario: the false positives are 0.5 with one
    hash value per band and 0.25 with more, the false negatives 0.25. *)
Definition f64_half : float64 := S754_finite false 4503599627370496 (-53).
Definition f64_quarter : float64 := S754_finite false 4503599627370496 (-54).

Definition exampleFalsePositive (x q lv kv : Z) (t precision : float64) : float64 :=
  if kv =? 1 then f64_half else f64_quarter.

Definition exampleFalseNegative (x q lv kv : Z) (t precision : float64) : float64 :=
  f64_quarter.

(** An index without bands: [NewLshForest32(1, 0)]. *)
Definition forestNoBands : LshForest := {|
  k := 1;
  l := 0;
  hashValueSize := 4;
  initHashTables := [];
  hashTables := [];
  hashKeyFunc := encodeValues 4
|}.

(** ** The rest of [sort.Interface] *)

(** [h[i]] with an index of type [int]: panics out of range. *)
Definition at_index (h : hashTable) (i : Z) : option bucket :=
  if decide (0 <= i) then h !! Z.to_nat i else None.

(** [func (h hashTable) Len() int] *)
Definition Len (h : hashTable) : Z := Z.of_nat (length h).

(** [func (h hashTable) Swap(i, j int)], [h[i], h[j] = h[j], h[i]]: the two
    elements are read, then [h[i]] and [h[j]] are assigned in this order. *)
Definition Swap (h : hashTable) (i j : Z) : option hashTable :=
  a ← at_index h i;
  b ← at_index h j;
  Some (<[Z.to_nat j := a]> (<[Z.to_nat i := b]> h)).

(** [var NewLshForest = NewLshForest32] *)
Definition NewLshForest (hashKeyFuncGen : Z → list Z → string) (k l : Z) : option LshForest :=
  NewLshForest32 hashKeyFuncGen k l.

(** ** The calls that built an index *)

(** The arguments of a call [Add(key, sig)]. *)
Abbreviation item := (string * Signature)%type.

(** [built_with gen f indexed pending]: the index [f] is reached from a
    constructor by calls of [Add] and [Index] that return; [pending] are the
    items added since the last call of [Index], [indexed] the items added
    before it, both in the order of the calls. *)
Inductive built_with (gen : Z → list Z → string) : LshForest → list item → list item → Prop :=
  | built_with_new (kv lv hvs : Z) (f : LshForest) :
      is_int kv → is_int lv → 0 < hvs <= 8 →
      newLshForest gen kv lv hvs = Some f →
      built_with gen f [] []
  | built_with_Add (f f' : LshForest) (key : string) (sig : Signature)
        (indexed pending : list item) :
      built_with gen f indexed pending → sig_wf sig →
      Add f key sig = Some f' →
      built_with gen f' indexed (pending ++ [(key, sig)])
  | built_with_Index (f f' : LshForest) (indexed pending : list item) :
      built_with gen f indexed pending →
      Index_rel f f' →
      built_with gen f' (indexed ++ pending) [].

(** The values [sig[i*f.k : i*f.k+K]] of a signature that has them. *)
Definition window (f : LshForest) (sig : Signature) (i K : Z) : list Z :=
  take (Z.to_nat K) (drop (Z.to_nat (i * k f)) sig).

(** The keys of the items, in order, whose window of [f.k] values in the
    band [i] has the hash key [hk]. *)
Definition keysOf (f : LshForest) (i : Z) (hk : string) (items : list item) : list string :=
  (filter (λ it : item, hashKeyFunc f (window f it.2 i (k f)) = hk) items).*1.

(** The loops of [OptimalKL] when no pair is usable: either no scanned pair
    has an error below [MaxFloat64] and the results are still the zero
    values, or one has and [optK] and [optL] are set. *)
Definition zeroInv
    (probFalsePositive probFalseNegative : Z → Z → Z → Z → float64 → float64 → float64)
    (x q : Z) (t : float64) (kmax lv j : Z) (s : optState) : Prop :=
  (s = optInit ∧
   ∀ p, scannedBefore kmax lv j p →
     f64_gt MaxFloat64 (currErr probFalsePositive probFalseNegative x q t p.1 p.2) = false) ∨
  (1 <= optK s ∧ 1 <= optL s ∧
   ∃ p, scannedBefore kmax lv j p ∧
     f64_gt MaxFloat64 (currErr probFalsePositive probFalseNegative x q t p.1 p.2) = true).

(** The loops of [OptimalKL] for any probabilities: either no scanned pair
    has an error below [MaxFloat64] and the results are still the zero
    values, or the state is that of a scanned pair with an error below
    [MaxFloat64], no scanned pair has a smaller error, and no pair scanned
    before it has an error that is at most as large. *)
Definition anyInv
    (probFalsePositive probFalseNegative : Z → Z → Z → Z → float64 → float64 → float64)
    (x q : Z) (t : float64) (kmax lv j : Z) (s : optState) : Prop :=
  (s = optInit ∧
   ∀ p, scannedBefore kmax lv j p →
     f64_gt MaxFloat64 (currErr probFalsePositive probFalseNegative x q t p.1 p.2) = false) ∨
  (scannedBefore kmax lv j (optL s, optK s) ∧
   fp s = probFalsePositive x q (optL s) (optK s) t integrationPrecision ∧
   fn s = probFalseNegative x q (optL s) (optK s) t integrationPrecision ∧
   minError s = currErr probFalsePositive probFalseNegative x q t (optL s) (optK s) ∧
   f64_gt MaxFloat64 (minError s) = true ∧
   (∀ p, scannedBefore kmax lv j p →
      f64_gt (minError s) (currErr probFalsePositive probFalseNegative x q t p.1 p.2) = false) ∧
   (∀ p, scannedBefore kmax lv j p → scanLt p (optL s) (optK s) →
      f64_le (currErr probFalsePositive probFalseNegative x q t p.1 p.2) (minError s) = false)).

(** ** A second scenario

    ["C"] is added to the index of the scenario with a signature of its
    own, and indexed; the query [sigQ] has the first band of ["A"] and
    ["B"] and the second band of ["C"]. *)

Definition sigC : Signature := [7; 7; 7; 7; 8; 8; 8; 8; 3; 3; 3; 9; 9; 9; 9; 9].
Definition sigQ : Signature := [1; 1; 1; 1; 8; 8; 8; 8; 0; 0; 0; 0; 0; 0; 0; 0].

Definition forest5 : LshForest :=
  Eval vm_compute in default forest4 (Add forest4 "C" sigC).
Definition forest6 : LshForest :=
  Eval vm_compute in default forest5 (Index forest5).

(** Probabilities of which one is [NaN]: the false positives are [NaN]
    with one hash value per band, 0.5 with two and 0.25 with more. *)
Definition exampleNaNFalsePositive (x q lv kv : Z) (t precision : float64) : float64 :=
  if kv =? 1 then S754_nan else if kv =? 2 then f64_half else f64_quarter.

(** Another outcome of [Index()] on [forest3]: in each band table the
    bucket of ["B"] is before the bucket of ["A"], which has the same hash
    key. *)
Definition forest4swapped : LshForest := {|
  k := 4;
  l := 4;
  hashValueSize := 4;
  initHashTables := replicate 4 ∅;
  hashTables :=
    (λ hs, [mkBucket (encodeValues 4 hs) ["B"]; mkBucket (encodeValues 4 hs) ["A"]])
      <$> [[1; 1; 1; 1]; [2; 2; 2; 2]; [3; 3; 3; 3]; [4; 4; 4; 4]];
  hashKeyFunc := encodeValues 4
|}.

(** * Properties *)

(** ** Go's [int] *)

Lemma wrap_id (z : Z) : min_int <= z <= max_int → wrap z = z.
Proof.
  unfold wrap, min_int, max_int. intros Hz.
  change (2 ^ 63) with 9223372036854775808 in *.
  change (2 ^ 64) with 18446744073709551616 in *.
  rewrite Z.mod_small; lia.
Qed.

Lemma wrap_range (z : Z) : min_int <= wrap z <= max_int.
Proof.
  unfold wrap, min_int, max_int.
  change (2 ^ 63) with 9223372036854775808 in *.
  change (2 ^ 64) with 18446744073709551616 in *.
  pose proof (Z.mod_pos_bound (z + 9223372036854775808) 18446744073709551616). lia.
Qed.

(** [wrap z] and [z] differ by a multiple of [2^64]. *)
Lemma wrap_cong (z : Z) : ∃ c, wrap z = z + c * 2 ^ 64.
Proof.
  unfold wrap. exists (- ((z + 2 ^ 63) / 2 ^ 64)).
  change (2 ^ 63) with 9223372036854775808 in *.
  change (2 ^ 64) with 18446744073709551616 in *.
  pose proof (Z.div_mod (z + 9223372036854775808) 18446744073709551616). lia.
Qed.

Lemma wrap_eq (a b : Z) : (∃ c, a = b + c * 2 ^ 64) → wrap a = wrap b.
Proof.
  intros [c ->]. unfold wrap.
  replace (b + c * 2 ^ 64 + 2 ^ 63) with (b + 2 ^ 63 + c * 2 ^ 64) by lia.
  rewrite Z.mod_add; [reflexivity | discriminate].
Qed.

Lemma iadd_imul_succ (i kv : Z) : iadd (imul i kv) kv = imul (iadd i 1) kv.
Proof.
  unfold iadd, imul. apply wrap_eq.
  destruct (wrap_cong (i * kv)) as [c ->].
  destruct (wrap_cong (i + 1)) as [d ->].
  exists (c - d * kv). lia.
Qed.

(** ** Strings *)

Lemma substring_length_le (n : nat) (s : string) :
  (n ≤ String.length s)%nat → String.length (String.substring 0 n s) = n.
Proof.
  revert s. induction n as [|n IH]; intros [|c s] Hn; simpl in *; try lia; auto.
  rewrite IH; lia.
Qed.

Lemma substring_all (n : nat) (s : string) :
  (String.length s ≤ n)%nat → String.substring 0 n s = s.
Proof.
  revert s. induction n as [|n IH]; intros [|c s] Hn; simpl in *; try lia; auto.
  rewrite IH; [done | lia].
Qed.

Lemma substring_substring (n m : nat) (s : string) :
  (n ≤ m)%nat → String.substring 0 n (String.substring 0 m s) = String.substring 0 n s.
Proof.
  revert m s. induction n as [|n IH]; intros [|m] [|c s] Hn; simpl in *; try lia; auto.
  rewrite IH; [done | lia].
Qed.

Lemma substring_app (n : nat) (s t : string) :
  String.substring 0 (String.length s + n) (String.app s t)
  = String.app s (String.substring 0 n t).
Proof.
  induction s as [|c s IH]; simpl.
  - done.
  - by rewrite IH.
Qed.

Lemma string_app_length (s t : string) :
  String.length (String.app s t) = (String.length s + String.length t)%nat.
Proof. induction s as [|c s IH]; simpl; [done | by rewrite IH]. Qed.

Lemma leb_ltb (s t : string) : String.ltb t s = negb (String.leb s t).
Proof.
  unfold String.ltb, String.leb. rewrite (String.compare_antisym s t).
  by destruct (String.compare t s).
Qed.

Lemma String_le_leb (s t : string) : String.le s t ↔ String.leb s t = true.
Proof. unfold String.le. by rewrite Is_true_true. Qed.

Lemma compare_substring (n : nat) (s t : string) :
  String.compare s t ≠ Gt →
  String.compare (String.substring 0 n s) (String.substring 0 n t) ≠ Gt.
Proof.
  revert s t. induction n as [|n IH]; intros [|a s] [|b t]; simpl; try done.
  destruct (Ascii.compare a b); try done. apply IH.
Qed.

(** Taking prefixes of one length keeps the order. *)
Lemma strPrefix_mono (s t p q : string) (n : Z) :
  String.le s t → strPrefix s n = Some p → strPrefix t n = Some q → String.le p q.
Proof.
  unfold strPrefix. intros Hle Hp Hq.
  repeat case_decide; try done.
  injection Hp as <-. injection Hq as <-.
  apply String_le_leb in Hle. apply String_le_leb.
  unfold String.leb in *.
  assert (String.compare s t ≠ Gt) as Hc by (intros E; by rewrite E in Hle).
  apply (compare_substring (Z.to_nat n)) in Hc.
  revert Hc.
  by destruct (String.compare (String.substring _ _ s) (String.substring _ _ t)).
Qed.

Lemma strPrefix_Some (s : string) (n : Z) :
  0 <= n <= Z.of_nat (String.length s) →
  strPrefix s n = Some (String.substring 0 (Z.to_nat n) s).
Proof. intros Hn. unfold strPrefix. case_decide; [done | lia]. Qed.

Lemma strPrefix_inv (s p : string) (n : Z) :
  strPrefix s n = Some p →
  0 <= n <= Z.of_nat (String.length s) ∧ p = String.substring 0 (Z.to_nat n) s.
Proof.
  unfold strPrefix. case_decide; [|done].
  intros [= <-]. split; [lia | done].
Qed.

Lemma notAfter_le (a b : bucket) : notAfter a b ↔ String.le (hashKey a) (hashKey b).
Proof.
  unfold notAfter, Less. rewrite leb_ltb, String_le_leb.
  by destruct (String.leb _ _).
Qed.

Global Instance notAfter_trans : Transitive notAfter.
Proof.
  intros a b c. rewrite !notAfter_le. apply (transitivity (R := String.le)).
Qed.

Global Instance notAfter_total : Total notAfter.
Proof. intros a b. rewrite !notAfter_le. apply (total String.le). Qed.

(** ** The encoder modelled from the spec meets the spec's contract *)

Lemma encodeValue_length (w : nat) (h : Z) : String.length (encodeValue w h) = w.
Proof. induction w as [|w IH]; simpl; [done | by rewrite IH]. Qed.

Lemma encodeValues_length (w : Z) (hs : list Z) :
  String.length (encodeValues w hs) = (Z.to_nat w * length hs)%nat.
Proof.
  induction hs as [|h hs IH]; simpl.
  - lia.
  - rewrite string_app_length, encodeValue_length, IH. lia.
Qed.

Lemma encodeValues_take (w : Z) (hs : list Z) (n : nat) :
  encodeValues w (take n hs)
  = String.substring 0 (Z.to_nat w * n) (encodeValues w hs).
Proof.
  revert n. induction hs as [|h hs IH]; intros [|n]; cbn [take encodeValues].
  - by rewrite Nat.mul_0_r.
  - by rewrite substring_all by (simpl; lia).
  - rewrite Nat.mul_0_r. by destruct (String.app _ _).
  - rewrite IH.
    replace (Z.to_nat w * S n)%nat
      with (String.length (encodeValue (Z.to_nat w) h) + Z.to_nat w * n)%nat
      by (rewrite encodeValue_length; lia).
    by rewrite substring_app.
Qed.

Lemma encodeValues_spec : hashKeyFuncGen_spec encodeValues.
Proof.
  split.
  - intros w hs Hw. rewrite encodeValues_length. lia.
  - intros w hs n _. apply encodeValues_take.
Qed.

(** ** Binary search *)

(** On a predicate that does not panic and, once true, stays true,
    [sort.Search] returns the first index at which it is true. *)
Lemma search_loop_first (f : nat → option bool) (p : nat → bool) (i j : nat) :
  (i ≤ j)%nat →
  (∀ x, (i ≤ x < j)%nat → f x = Some (p x)) →
  (∀ x y, (i ≤ x ≤ y)%nat → (y < j)%nat → p x = true → p y = true) →
  ∃ r, search_loop f i j = Some r ∧ (i ≤ r ≤ j)%nat ∧
       (∀ x, (i ≤ x < r)%nat → p x = false) ∧
       (∀ x, (r ≤ x < j)%nat → p x = true).
Proof.
  funelim (search_loop f i j); intros Hij Hf Hmono.
  - exists i. repeat split; [lia | lia | intros; lia | intros; lia].
  - assert (i ≤ (i + j) / 2 < j)%nat as Hh
      by (pose proof (Nat.div_mod_eq (i + j) 2);
          pose proof (Nat.mod_upper_bound (i + j) 2); lia).
    assert (p ((i + j) / 2)%nat = true) as Hp
      by (rewrite Hf in Heq by lia; congruence).
    destruct (H p) as (r & Hr & Hir & Hlo & Hhi).
    + lia.
    + intros x Hx. apply Hf. lia.
    + intros x y Hxy Hy. apply Hmono; lia.
    + exists r. repeat split; [done | lia | lia | done |].
      intros x Hx. destruct (decide (x < (i + j) / 2)%nat).
      * apply Hhi. lia.
      * apply (Hmono ((i + j) / 2)%nat x); [lia | lia | done].
  - assert (i ≤ (i + j) / 2 < j)%nat as Hh
      by (pose proof (Nat.div_mod_eq (i + j) 2);
          pose proof (Nat.mod_upper_bound (i + j) 2); lia).
    assert (p ((i + j) / 2)%nat = false) as Hp
      by (rewrite Hf in Heq by lia; congruence).
    destruct (H p) as (r & Hr & Hir & Hlo & Hhi).
    + lia.
    + intros x Hx. apply Hf. lia.
    + intros x y Hxy Hy. apply Hmono; lia.
    + exists r. repeat split; [done | lia | lia | | done].
      intros x Hx. destruct (decide (x ≤ (i + j) / 2)%nat).
      * destruct (p x) eqn:Hpx; [|done].
        rewrite (Hmono x ((i + j) / 2)%nat) in Hp; [done | lia | lia | done].
      * apply Hlo. lia.
  - assert (i ≤ (i + j) / 2 < j)%nat as Hh
      by (pose proof (Nat.div_mod_eq (i + j) 2);
          pose proof (Nat.mod_upper_bound (i + j) 2); lia).
    rewrite Hf in Heq by lia. done.
Qed.

(** On an empty range [sort.Search] does not call the predicate. *)
Lemma sort_Search_0 (f : nat → option bool) : sort_Search 0 f = Some 0%nat.
Proof. unfold sort_Search. by simp search_loop. Qed.

(** ** The search of one band *)

Lemma StronglySorted_lookup_lt {A : Type} (R : relation A) (xs : list A)
    (x y : nat) (a b : A) :
  StronglySorted R xs → xs !! x = Some a → xs !! y = Some b → (x < y)%nat → R a b.
Proof.
  intros HS Ha Hb Hxy. rewrite <- (take_drop (S x) xs) in HS.
  apply (StronglySorted_app_1_elem_of _ _ _ _ _ HS).
  - apply list_elem_of_lookup. exists x. rewrite lookup_take_lt by lia. done.
  - apply list_elem_of_lookup. exists (y - S x)%nat. rewrite lookup_drop.
    by replace (S x + (y - S x))%nat with y by lia.
Qed.

(** The test after [sort.Search] is the first test of the loop. *)
Lemma bandSearch_scanRun (ht : hashTable) (hk : string) (prefixSize : Z) :
  bandSearch ht hk prefixSize
  = r ← sort_Search (length ht) (atOrAfter ht hk prefixSize);
    scanRun (drop r ht) hk prefixSize.
Proof.
  unfold bandSearch. destruct (sort_Search _ _) as [r|]; simpl; [|done].
  destruct (ht !! r) as [b|] eqn:Hb.
  - rewrite (drop_S _ _ _ Hb). simpl.
    destruct (strPrefix _ _) as [p|]; simpl; [|done].
    by destruct (String.eqb p hk).
  - apply lookup_ge_None in Hb. by rewrite drop_ge.
Qed.

(** Every key that the loop sends comes from a bucket with the prefix. *)
Lemma scanRun_sound (bs : list bucket) (hk : string) (prefixSize : Z)
    (r : list string) (key : string) :
  scanRun bs hk prefixSize = Some r → key ∈ r →
  ∃ b, b ∈ bs ∧ key ∈ keys b ∧ strPrefix (hashKey b) prefixSize = Some hk.
Proof.
  revert r. induction bs as [|b bs IH]; intros r Hr Hkey; simpl in Hr.
  - injection Hr as <-. by apply elem_of_nil in Hkey.
  - destruct (strPrefix (hashKey b) prefixSize) as [p|] eqn:Hp; simpl in Hr; [|done].
    destruct (String.eqb p hk) eqn:Heq.
    + apply String.eqb_eq in Heq. subst p.
      destruct (scanRun bs hk prefixSize) as [rest|]; simpl in Hr; [|done].
      injection Hr as <-. apply elem_of_app in Hkey as [Hkey|Hkey].
      * exists b. split; [left | done].
      * destruct (IH rest eq_refl Hkey) as (b' & Hb' & Hk' & Hp').
        exists b'. split; [by right | done].
    + injection Hr as <-. by apply elem_of_nil in Hkey.
Qed.

Lemma bandSearch_sound (ht : hashTable) (hk : string) (prefixSize : Z)
    (r : list string) (key : string) :
  bandSearch ht hk prefixSize = Some r → key ∈ r →
  ∃ b, b ∈ ht ∧ key ∈ keys b ∧ strPrefix (hashKey b) prefixSize = Some hk.
Proof.
  rewrite bandSearch_scanRun. intros Hr Hkey.
  destruct (sort_Search _ _) as [r0|]; simpl in Hr; [|done].
  destruct (scanRun_sound _ _ _ _ _ Hr Hkey) as (b & Hb & Hk & Hp).
  exists b. split; [|done].
  rewrite <- (take_drop r0 ht). apply elem_of_app. by right.
Qed.

(** On sorted buckets that all are at or after [hk], the loop sends the
    keys of every bucket with the prefix [hk]. *)
Lemma scanRun_complete (bs : list bucket) (hk : string) (prefixSize : Z) :
  StronglySorted notAfter bs →
  (∀ b, b ∈ bs → ∃ p, strPrefix (hashKey b) prefixSize = Some p ∧ String.le hk p) →
  ∃ r, scanRun bs hk prefixSize = Some r ∧
       ∀ b key, b ∈ bs → strPrefix (hashKey b) prefixSize = Some hk →
                key ∈ keys b → key ∈ r.
Proof.
  induction bs as [|b bs IH]; intros HS Hdef; simpl.
  - exists []. split; [done|]. intros b key Hb. by apply elem_of_nil in Hb.
  - apply StronglySorted_cons in HS as [Hall HS].
    destruct (Hdef b) as (p & Hp & Hle); [left|].
    rewrite Hp. simpl.
    destruct (String.eqb p hk) eqn:Heq.
    + apply String.eqb_eq in Heq. subst p.
      destruct IH as (rest & -> & Hrest); [done | |].
      { intros b' Hb'. apply Hdef. by right. }
      simpl. eexists. split; [done|].
      intros b' key Hb' Hp' Hkey. apply elem_of_app.
      apply elem_of_cons in Hb' as [->|Hb']; [by left | right; eauto].
    + apply String.eqb_neq in Heq.
      exists []. split; [done|].
      intros b' key Hb' Hp' Hkey. exfalso. apply Heq.
      apply elem_of_cons in Hb' as [->|Hb']; [congruence|].
      apply (anti_symm String.le); [|done].
      rewrite Forall_forall in Hall.
      apply (strPrefix_mono (hashKey b) (hashKey b') p hk prefixSize); [|done..].
      apply notAfter_le. by apply Hall.
Qed.

Lemma bandSearch_complete (ht : hashTable) (hk : string) (prefixSize : Z) :
  Sorted notAfter ht →
  (∀ b, b ∈ ht → is_Some (strPrefix (hashKey b) prefixSize)) →
  ∃ r, bandSearch ht hk prefixSize = Some r ∧
       ∀ b key, b ∈ ht → strPrefix (hashKey b) prefixSize = Some hk →
                key ∈ keys b → key ∈ r.
Proof.
  intros HS Hdef. apply Sorted_StronglySorted in HS; [|apply _].
  rewrite bandSearch_scanRun.
  set (p := λ x, default false (atOrAfter ht hk prefixSize x)).
  destruct (search_loop_first (atOrAfter ht hk prefixSize) p 0 (length ht))
    as (r0 & Hr0 & Hrange & Hlo & Hhi).
  - lia.
  - intros x Hx. unfold p, atOrAfter.
    destruct (lookup_lt_is_Some_2 ht x) as [b Hb]; [lia|].
    rewrite Hb. simpl.
    destruct (Hdef b) as [q Hq]; [by eapply list_elem_of_lookup_2|].
    by rewrite Hq.
  - intros x y Hxy Hy. unfold p, atOrAfter.
    destruct (lookup_lt_is_Some_2 ht x) as [bx Hbx]; [lia|].
    destruct (lookup_lt_is_Some_2 ht y) as [by_ Hby]; [lia|].
    rewrite Hbx, Hby. simpl.
    destruct (Hdef bx) as [qx Hqx]; [by eapply list_elem_of_lookup_2|].
    destruct (Hdef by_) as [qy Hqy]; [by eapply list_elem_of_lookup_2|].
    rewrite Hqx, Hqy. simpl. rewrite <- !String_le_leb. intros Hle.
    transitivity qx; [done|].
    destruct (decide (x = y)) as [->|Hne]; [by simplify_eq|].
    apply (strPrefix_mono (hashKey bx) (hashKey by_) qx qy prefixSize); [|done..].
    apply notAfter_le.
    apply (StronglySorted_lookup_lt _ ht x y); [done..|lia].
  - unfold sort_Search. rewrite Hr0. simpl.
    destruct (scanRun_complete (drop r0 ht) hk prefixSize) as (r & Hr & Hall).
    + rewrite <- (take_drop r0 ht) in HS. by apply StronglySorted_app_1_r in HS.
    + intros b Hb. apply list_elem_of_lookup in Hb as [x Hx].
      rewrite lookup_drop in Hx.
      specialize (Hhi (r0 + x)%nat).
      assert (r0 + x < length ht)%nat as Hlt by (by eapply lookup_lt_Some).
      unfold p, atOrAfter in Hhi. rewrite Hx in Hhi. simpl in Hhi.
      destruct (strPrefix (hashKey b) prefixSize) as [q|]; simpl in Hhi.
      * exists q. split; [done|]. apply String_le_leb. apply Hhi. lia.
      * discriminate Hhi. lia.
    + exists r. split; [done|].
      intros b key Hb Hp Hkey. apply (Hall b key); [|done..].
      apply list_elem_of_lookup in Hb as [x Hx].
      destruct (decide (x < r0)%nat) as [Hlt|Hge].
      * specialize (Hlo x). unfold p, atOrAfter in Hlo.
        rewrite Hx in Hlo. simpl in Hlo. rewrite Hp in Hlo. simpl in Hlo.
        assert (String.leb hk hk = true) as Hrefl
          by (by apply String_le_leb).
        rewrite Hrefl in Hlo. discriminate Hlo. lia.
      * apply list_elem_of_lookup. exists (x - r0)%nat.
        rewrite lookup_drop. by replace (r0 + (x - r0))%nat with x by lia.
Qed.

(** ** The channel and the consumer *)

(** The merged stream has the keys of the streams of the goroutines. *)
Lemma interleave_elem_of {A : Type} (ls : list (list A)) (s : list A) (y : A) :
  interleave ls s → y ∈ s ↔ ∃ st, st ∈ ls ∧ y ∈ st.
Proof.
  induction 1 as [ls Hnil | ls i x s rest Hi Hrest IH].
  - split.
    + intros Hy. by apply elem_of_nil in Hy.
    + intros (st & Hst & Hy). rewrite Forall_forall in Hnil.
      rewrite (Hnil st Hst) in Hy. by apply elem_of_nil in Hy.
  - split.
    + intros Hy. apply elem_of_cons in Hy as [->|Hy].
      * exists (x :: s). split; [by eapply list_elem_of_lookup_2 | left].
      * apply IH in Hy as (st & Hst & Hy).
        apply list_elem_of_lookup in Hst as [j Hj].
        destruct (decide (i = j)) as [->|Hne].
        -- rewrite list_lookup_insert_eq in Hj by (by eapply lookup_lt_Some).
           injection Hj as <-. exists (x :: s).
           split; [by eapply list_elem_of_lookup_2 | by right].
        -- rewrite list_lookup_insert_ne in Hj by done.
           exists st. split; [by eapply list_elem_of_lookup_2 | done].
    + intros (st & Hst & Hy).
      apply list_elem_of_lookup in Hst as [j Hj].
      destruct (decide (i = j)) as [->|Hne].
      * rewrite Hi in Hj. injection Hj as <-.
        apply elem_of_cons in Hy as [->|Hy]; [left|].
        right. apply IH. exists s. split; [|done].
        apply list_elem_of_lookup. exists j.
        apply list_lookup_insert_eq. by eapply lookup_lt_Some.
      * right. apply IH. exists st. split; [|done].
        apply list_elem_of_lookup. exists j. by rewrite list_lookup_insert_ne.
Qed.

Lemma interleave_skip {A : Type} (ls : list (list A)) (s : list A) :
  interleave ls s → interleave ([] :: ls) s.
Proof.
  induction 1 as [ls Hnil | ls i x s rest Hi Hrest IH].
  - apply interleave_nil. by constructor.
  - by apply (interleave_cons _ (S i) x s rest).
Qed.

(** The goroutines may send one after the other. *)
Lemma interleave_concat {A : Type} (ls : list (list A)) : interleave ls (concat ls).
Proof.
  induction ls as [|s ls IH]; simpl.
  - apply interleave_nil. constructor.
  - induction s as [|x s IHs]; simpl.
    + by apply interleave_skip.
    + by apply (interleave_cons _ 0%nat x s).
Qed.

Lemma elem_of_dedup (seens : gmap string bool) (stream : list string) (key : string) :
  key ∈ dedup seens stream ↔ key ∈ stream ∧ seens !! key = None.
Proof.
  revert seens. induction stream as [|x stream IH]; intros seens; simpl.
  - rewrite !elem_of_nil. tauto.
  - destruct (seens !! x) as [b|] eqn:Hx.
    + rewrite IH, elem_of_cons.
      split; [tauto | intros [[->|?] ?]; [congruence | done]].
    + rewrite !elem_of_cons, IH.
      split.
      * intros [->|[Hk Hs]]; [by auto|].
        split; [by right|].
        destruct (decide (x = key)) as [->|Hne]; [done|].
        by rewrite lookup_insert_ne in Hs.
      * intros [[->|Hk] Hs]; [by left|].
        destruct (decide (x = key)) as [->|Hne]; [by left|].
        right. split; [done|]. by rewrite lookup_insert_ne.
Qed.

Lemma NoDup_dedup (seens : gmap string bool) (stream : list string) :
  NoDup (dedup seens stream).
Proof.
  revert seens. induction stream as [|x stream IH]; intros seens; simpl.
  - constructor.
  - destruct (seens !! x) as [b|] eqn:Hx; [apply IH|].
    constructor; [|apply IH].
    rewrite elem_of_dedup, lookup_insert_eq. by intros [_ ?].
Qed.

(** ** The invariant of the indexes that a program builds *)

Lemma slice_inv (sig : Signature) (lo hi : Z) (hs : list Z) :
  slice sig lo hi = Some hs →
  0 <= lo ∧ lo <= hi ∧ hi <= Z.of_nat (length sig) ∧
  hs = take (Z.to_nat (hi - lo)) (drop (Z.to_nat lo) sig) ∧
  Z.of_nat (length hs) = hi - lo.
Proof.
  unfold slice. case_decide as Hr; [|done]. intros [= <-].
  repeat split; try lia.
  rewrite length_take, length_drop. lia.
Qed.

Lemma slice_Some (sig : Signature) (lo hi : Z) :
  0 <= lo → lo <= hi → hi <= Z.of_nat (length sig) →
  slice sig lo hi = Some (take (Z.to_nat (hi - lo)) (drop (Z.to_nat lo) sig)).
Proof. intros. unfold slice. case_decide; [done | lia]. Qed.

(** Two [int]s in the range of a slice's indexes that agree modulo [2^64]
    are equal. *)
Lemma int_eq_of_cong (a b c : Z) :
  a = b + c * 2 ^ 64 → 0 <= a <= max_int → 0 <= b <= max_int → a = b.
Proof.
  unfold max_int. change (2 ^ 64) with 18446744073709551616.
  change (2 ^ 63) with 9223372036854775808. lia.
Qed.

(** The window of band [i] that [Add] encodes has [f.k] values. *)
Lemma addKey_window (sig : Signature) (kv i : Z) (hs : list Z) :
  0 <= kv <= max_int → sig_wf sig →
  slice sig (imul i kv) (imul (iadd i 1) kv) = Some hs →
  Z.of_nat (length hs) = kv ∧ 8 * kv <= max_int.
Proof.
  intros Hk Hwf Hs. apply slice_inv in Hs as (Hlo & Hle & Hhi & _ & Hlen).
  unfold sig_wf in Hwf.
  assert (imul (iadd i 1) kv - imul i kv = kv) as Heq.
  { unfold imul, iadd in *.
    destruct (wrap_cong (i * kv)) as [c Hc].
    destruct (wrap_cong (i + 1)) as [d Hd].
    destruct (wrap_cong (wrap (i + 1) * kv)) as [e He].
    apply (int_eq_of_cong _ _ (d * kv + e - c)); [|unfold max_int in *; lia|done].
    rewrite He, Hd, Hc. lia. }
  unfold max_int in *. lia.
Qed.

Lemma stage_lookup (m : initHashTable) (hk key hk' : string) (ks : list string) :
  stage m hk key !! hk' = Some ks →
  (hk' = hk ∧ ∃ ks0, ks = ks0 ++ [key]) ∨ (hk' ≠ hk ∧ m !! hk' = Some ks).
Proof.
  unfold stage. destruct (decide (hk' = hk)) as [->|Hne].
  - destruct (m !! hk) as [ks0|]; rewrite lookup_insert_eq; intros [= <-]; left.
    + split; [done | by exists ks0].
    + split; [done | by exists []].
  - destruct (m !! hk) as [ks0|]; rewrite lookup_insert_ne by done; auto.
Qed.

Lemma stage_lookup_key (m : initHashTable) (hk key : string) :
  ∃ ks0, stage m hk key !! hk = Some (ks0 ++ [key]).
Proof.
  unfold stage. destruct (m !! hk) as [ks0|].
  - exists ks0. apply lookup_insert_eq.
  - exists []. apply lookup_insert_eq.
Qed.

Lemma stage_lookup_mono (m : initHashTable) (hk key hk' : string) (ks : list string) (x : string) :
  m !! hk' = Some ks → x ∈ ks →
  ∃ ks', stage m hk key !! hk' = Some ks' ∧ x ∈ ks'.
Proof.
  intros Hm Hx. unfold stage. destruct (decide (hk' = hk)) as [->|Hne].
  - rewrite Hm. exists (ks ++ [key]). rewrite lookup_insert_eq.
    split; [done|]. apply elem_of_app. by left.
  - exists ks. split; [|done].
    destruct (m !! hk); by rewrite lookup_insert_ne.
Qed.

Lemma elem_of_staged (m : initHashTable) (b : bucket) :
  b ∈ staged m ↔ m !! hashKey b = Some (keys b).
Proof.
  unfold staged. rewrite list_elem_of_fmap. split.
  - intros ([hk ks] & -> & Hin). simpl. by apply elem_of_map_to_list in Hin.
  - intros Hm. exists (hashKey b, keys b). split; [by destruct b|].
    by apply elem_of_map_to_list.
Qed.

Lemma forest_inv_new (gen : Z → list Z → string) (kv lv hvs : Z) (f : LshForest) :
  is_int kv → is_int lv →
  newLshForest gen kv lv hvs = Some f → forest_inv f.
Proof.
  unfold newLshForest, is_int. intros Hk Hl.
  destruct (kv <? 0) eqn:Hk0; [done|]. destruct (lv <? 0) eqn:Hl0; [done|].
  simpl. intros [= <-]. split; simpl; try lia.
  - by rewrite length_replicate.
  - by rewrite length_replicate.
  - intros ht b Hht Hb. apply elem_of_replicate in Hht as [-> _].
    by apply elem_of_nil in Hb.
  - intros ht Hht. apply elem_of_replicate in Hht as [-> _]. constructor.
  - intros m hk ks Hm Hks. apply elem_of_replicate in Hm as [-> _].
    by rewrite lookup_empty in Hks.
Qed.

(** What a call of [Add] that returns has done. *)
Lemma Add_inv (f f' : LshForest) (key : string) (sig : Signature) :
  Add f key sig = Some f' →
  ∃ Hs, mapM (addKey f sig) (seqZ 0 (l f)) = Some Hs ∧
        (length (initHashTables f) ≤ length Hs)%nat ∧
        k f' = k f ∧ l f' = l f ∧ hashValueSize f' = hashValueSize f ∧
        hashKeyFunc f' = hashKeyFunc f ∧ hashTables f' = hashTables f ∧
        initHashTables f' = zip_with (λ ht hk, stage ht hk key) (initHashTables f) Hs.
Proof.
  unfold Add. destruct (l f <? 0); [done|].
  destruct (mapM _ _) as [Hs|]; simpl; [|done].
  case_decide; [|done]. intros [= <-]. by exists Hs.
Qed.

Lemma forest_inv_Add (f f' : LshForest) (key : string) (sig : Signature) :
  forest_inv f → Add f key sig = Some f' → forest_inv f'.
Proof.
  intros [] HAdd.
  apply Add_inv in HAdd as (Hs & HHs & Hlen & Hk & Hl & Hw & Hfn & Hht & Hinit).
  split; rewrite ?Hk, ?Hl, ?Hht; try done.
  - rewrite Hinit, length_zip_with. lia.
  - intros m hk ks Hm Hks. rewrite Hinit in Hm.
    apply list_elem_of_lookup in Hm as [i Hi].
    apply lookup_zip_with_Some in Hi as (m0 & hk0 & -> & Hm0 & Hhk0).
    apply stage_lookup in Hks as [[-> [ks0 ->]]|[Hne Hks]].
    + by destruct ks0.
    + apply (inv_staged_keys0 m0 hk ks); [|done]. by eapply list_elem_of_lookup_2.
Qed.

(** What a call of [Index] leaves in a band table. *)
Lemma Index_rel_lookup (f f' : LshForest) (i : nat) (ht' : hashTable) :
  Index_rel f f' → hashTables f' !! i = Some ht' →
  ∃ ht m, hashTables f !! i = Some ht ∧ initHashTables f !! i = Some m ∧
          bandIndexed ht m ht'.
Proof.
  intros [] Hi.
  destruct (Forall2_lookup_r _ _ _ _ _ Index_hashTables0 Hi) as ([ht m] & Hz & Hband).
  apply lookup_zip_with_Some in Hz as (? & ? & [= <- <-] & Hht & Hm).
  by exists ht, m.
Qed.

Lemma Index_rel_lookup_l (f f' : LshForest) (i : nat) (ht : hashTable) :
  Index_rel f f' → hashTables f !! i = Some ht →
  ∃ ht' m, hashTables f' !! i = Some ht' ∧ initHashTables f !! i = Some m ∧
           bandIndexed ht m ht'.
Proof.
  intros [] Hi.
  destruct (lookup_lt_is_Some_2 (initHashTables f) i) as [m Hm].
  { apply lookup_lt_Some in Hi. lia. }
  assert (zip (hashTables f) (initHashTables f) !! i = Some (ht, m)) as Hz.
  { apply lookup_zip_with_Some. by exists ht, m. }
  destruct (Forall2_lookup_l _ _ _ _ _ Index_hashTables0 Hz) as (ht' & Hht' & Hband).
  by exists ht', m.
Qed.

Lemma forest_inv_Index (f f' : LshForest) :
  forest_inv f → Index_rel f f' → forest_inv f'.
Proof.
  intros [] HI. pose proof HI as [].
  split; rewrite ?Index_k0, ?Index_l0; try done.
  - apply Forall2_length in Index_hashTables0.
    rewrite <- Index_hashTables0, length_zip. lia.
  - rewrite Index_initHashTables0, length_app, length_replicate, length_drop. lia.
  - intros ht' b Hht' Hb.
    apply list_elem_of_lookup in Hht' as [i Hi].
    destruct (Index_rel_lookup _ _ _ _ HI Hi) as (ht & m & Hht & Hm & [Hp _]).
    rewrite Hp in Hb. apply elem_of_app in Hb as [Hb|Hb].
    + apply (inv_keys0 ht b); [by eapply list_elem_of_lookup_2 | done].
    + apply elem_of_staged in Hb.
      apply (inv_staged_keys0 m (hashKey b) (keys b)); [by eapply list_elem_of_lookup_2 | done].
  - intros ht' Hht'.
    apply list_elem_of_lookup in Hht' as [i Hi].
    by destruct (Index_rel_lookup _ _ _ _ HI Hi) as (ht & m & _ & _ & [_ ?]).
  - intros m hk ks Hm Hks. rewrite Index_initHashTables0 in Hm.
    apply elem_of_app in Hm as [Hm|Hm].
    + apply elem_of_replicate in Hm as [-> _]. by rewrite lookup_empty in Hks.
    + apply (inv_staged_keys0 m hk ks); [|done].
      apply list_elem_of_lookup in Hm as [i Hi]. rewrite lookup_drop in Hi.
      by eapply list_elem_of_lookup_2.
Qed.

Lemma built_inv (gen : Z → list Z → string) (f : LshForest) :
  built gen f → forest_inv f.
Proof.
  induction 1 as [kv lv hvs f Hk Hl Hw Hnew | f f' key sig _ IH Hwf HAdd | f f' _ IH HIndex].
  - exact (forest_inv_new gen kv lv hvs f Hk Hl Hnew).
  - exact (forest_inv_Add f f' key sig IH HAdd).
  - exact (forest_inv_Index f f' IH HIndex).
Qed.

Section Encoding.

Variable gen : Z → list Z → string.
Hypothesis gen_ok : hashKeyFuncGen_spec gen.

Lemma forest_enc_new (kv lv hvs : Z) (f : LshForest) :
  0 < hvs <= 8 → newLshForest gen kv lv hvs = Some f → forest_enc gen f.
Proof.
  unfold newLshForest. intros Hw.
  destruct ((kv <? 0) || (lv <? 0)); [done|].
  intros [= <-]. split; simpl; try done.
  - intros ht b Hht Hb. apply elem_of_replicate in Hht as [-> _].
    by apply elem_of_nil in Hb.
  - intros m hk Hm [ks Hks]. apply elem_of_replicate in Hm as [-> _].
    by rewrite lookup_empty in Hks.
Qed.

Lemma forest_enc_Add (f f' : LshForest) (key : string) (sig : Signature) :
  forest_inv f → forest_enc gen f → sig_wf sig →
  Add f key sig = Some f' → forest_enc gen f'.
Proof.
  intros [] [] Hwf HAdd.
  apply Add_inv in HAdd as (Hs & HHs & Hlen & Hk & Hl & Hw & Hfn & Hht & Hinit).
  split; unfold hashKey_ok; rewrite ?Hk, ?Hl, ?Hw, ?Hfn, ?Hht; try done.
  intros m hk Hm [ks Hks]. rewrite Hinit in Hm.
  apply list_elem_of_lookup in Hm as [i Hi].
  apply lookup_zip_with_Some in Hi as (m0 & hk0 & -> & Hm0 & Hhk0).
  apply stage_lookup in Hks as [[-> _]|[Hne Hks]].
  - apply mapM_Some_1 in HHs.
    destruct (Forall2_lookup_r _ _ _ _ _ HHs Hhk0) as (iz & _ & Hkey).
    unfold addKey in Hkey.
    destruct (slice _ _ _) as [hs|] eqn:Hslice; simpl in Hkey; [|done].
    injection Hkey as <-.
    apply addKey_window in Hslice as [Hlenhs Hbound]; [|lia|done].
    rewrite enc_hashKeyFunc0, (gen_length _ gen_ok) by lia.
    by rewrite Hlenhs.
  - apply (enc_staged0 m0 hk); [by eapply list_elem_of_lookup_2 | by exists ks].
Qed.

Lemma forest_enc_Index (f f' : LshForest) :
  forest_enc gen f → Index_rel f f' → forest_enc gen f'.
Proof.
  intros [] HI. pose proof HI as [].
  split; unfold hashKey_ok;
    rewrite ?Index_k0, ?Index_l0, ?Index_hashValueSize0, ?Index_hashKeyFunc0;
    try done.
  - intros ht' b Hht' Hb.
    apply list_elem_of_lookup in Hht' as [i Hi].
    destruct (Index_rel_lookup _ _ _ _ HI Hi) as (ht & m & Hht & Hm & [Hp _]).
    rewrite Hp in Hb. apply elem_of_app in Hb as [Hb|Hb].
    + apply (enc_buckets0 ht b); [by eapply list_elem_of_lookup_2 | done].
    + apply elem_of_staged in Hb.
      apply (enc_staged0 m (hashKey b)); [by eapply list_elem_of_lookup_2 | by eexists].
  - intros m hk Hm Hks. rewrite Index_initHashTables0 in Hm.
    apply elem_of_app in Hm as [Hm|Hm].
    + apply elem_of_replicate in Hm as [-> _]. rewrite lookup_empty in Hks.
      by destruct Hks.
    + apply (enc_staged0 m hk); [|done].
      apply list_elem_of_lookup in Hm as [i Hi]. rewrite lookup_drop in Hi.
      by eapply list_elem_of_lookup_2.
Qed.

Lemma built_enc (f : LshForest) : built gen f → forest_enc gen f.
Proof.
  induction 1 as [kv lv hvs f Hk Hl Hw Hnew | f f' key sig Hb IH Hwf HAdd | f f' _ IH HIndex].
  - exact (forest_enc_new kv lv hvs f Hw Hnew).
  - exact (forest_enc_Add f f' key sig (built_inv gen f Hb) IH Hwf HAdd).
  - exact (forest_enc_Index f f' IH HIndex).
Qed.

End Encoding.

(** ** The streams of the goroutines of [Query] *)

Lemma searchBands_length (f : LshForest) (sig : Signature) (K L : Z)
    (streams : list (list string)) :
  searchBands f sig K L = Some streams → 0 <= L ∧ length streams = Z.to_nat L.
Proof.
  unfold searchBands. destruct (L <? 0) eqn:HL; [done|].
  destruct (mapM (queryKey f sig K) _) as [Hs|] eqn:HHs; simpl; [|done].
  intros Hstreams. apply length_mapM in HHs, Hstreams.
  rewrite length_zip in Hstreams. rewrite length_seqZ in HHs, Hstreams. lia.
Qed.

(** The stream of band [i] is the search of the table of the band for the
    key of the window of the band. *)
Lemma searchBands_lookup (f : LshForest) (sig : Signature) (K L : Z)
    (streams : list (list string)) (i : nat) (s : list string) :
  searchBands f sig K L = Some streams → streams !! i = Some s →
  ∃ hk ht, queryKey f sig K (Z.of_nat i) = Some hk ∧
           hashTables f !! i = Some ht ∧
           bandSearch ht hk (imul (hashValueSize f) K) = Some s.
Proof.
  unfold searchBands. destruct (L <? 0) eqn:HL; [done|].
  destruct (mapM (queryKey f sig K) _) as [Hs|] eqn:HHs; simpl; [|done].
  intros Hstreams Hi.
  apply mapM_Some_1 in HHs, Hstreams.
  destruct (Forall2_lookup_r _ _ _ _ _ Hstreams Hi) as ([z hk] & Hz & Hband).
  apply lookup_zip_with_Some in Hz as (? & ? & [= <- <-] & Hz & Hhk).
  simpl in Hband.
  destruct (Forall2_lookup_l _ _ _ _ _ HHs Hz) as (hk' & Hhk' & Hkey).
  assert (hk' = hk) as -> by congruence.
  apply lookup_seqZ in Hz as [-> _]. rewrite Z.add_0_l, Nat2Z.id in *.
  destruct (hashTables f !! i) as [ht|]; simpl in Hband; [|done].
  by exists hk, ht.
Qed.

(** [Query] returns when each window is in range, each band has a table and
    no search panics. *)
Lemma searchBands_is_Some (f : LshForest) (sig : Signature) (K L : Z) :
  0 <= L →
  (∀ i, (i < Z.to_nat L)%nat →
     ∃ hk ht, queryKey f sig K (Z.of_nat i) = Some hk ∧
              hashTables f !! i = Some ht ∧
              is_Some (bandSearch ht hk (imul (hashValueSize f) K))) →
  is_Some (searchBands f sig K L).
Proof.
  intros HL Hall. unfold searchBands.
  destruct (L <? 0) eqn:HL'; [lia|].
  destruct (mapM (queryKey f sig K) _) as [Hs|] eqn:HHs; simpl.
  - apply mapM_is_Some, Forall_lookup. intros i [z hk] Hz.
    apply lookup_zip_with_Some in Hz as (? & ? & [= <- <-] & Hz & Hhk).
    apply mapM_Some_1 in HHs.
    destruct (Forall2_lookup_l _ _ _ _ _ HHs Hz) as (hk' & Hhk' & Hkey).
    assert (hk' = hk) as -> by congruence.
    apply lookup_seqZ in Hz as [-> Hlt]. rewrite Z.add_0_l in *.
    destruct (Hall i) as (hk' & ht & Hkey' & Hht & Hsome); [lia|].
    assert (hk' = hk) as -> by congruence.
    simpl. rewrite Nat2Z.id, Hht. done.
  - assert (is_Some (mapM (queryKey f sig K) (seqZ 0 L))) as [? ?]; [|congruence].
    apply mapM_is_Some, Forall_lookup. intros i z Hz.
    apply lookup_seqZ in Hz as [-> Hlt]. rewrite Z.add_0_l.
    destruct (Hall i) as (hk' & ht & Hkey' & _); [lia|].
    simpl. by rewrite Hkey'.
Qed.

(** Every output of [Query] has the keys of the streams, once each. *)
Lemma Query_rel_elem_of (f : LshForest) (sig : Signature) (K L : Z)
    (out : list string) (key : string) :
  Query_rel f sig K L out →
  key ∈ out ↔ ∃ streams s, Query_bands f sig K L = Some streams ∧ s ∈ streams ∧ key ∈ s.
Proof.
  intros (streams & stream & Hb & Hi & ->).
  rewrite elem_of_dedup, lookup_empty, (interleave_elem_of _ _ _ Hi).
  split.
  - intros [(s & Hs & Hkey) _]. by exists streams, s.
  - intros (streams' & s & Hb' & Hs & Hkey).
    assert (streams' = streams) as -> by congruence.
    split; [by exists s | done].
Qed.

(** When the goroutines return, the run in which they send one after the
    other is a run of [Query]. *)
Lemma Query_Query_rel (f : LshForest) (sig : Signature) (K L : Z) (out : list string) :
  Query f sig K L = Some out → Query_rel f sig K L out.
Proof.
  unfold Query. destruct (Query_bands f sig K L) as [streams|] eqn:Hb; [|done].
  simpl. intros [= <-]. exists streams, (concat streams).
  split; [done|]. split; [apply interleave_concat | done].
Qed.

Lemma Query_rel_Query (f : LshForest) (sig : Signature) (K L : Z) (out : list string) :
  Query_rel f sig K L out → is_Some (Query f sig K L).
Proof. intros (streams & stream & Hb & _). unfold Query. by rewrite Hb. Qed.

(** [Index] computes one outcome of [Index()]. *)
Lemma Index_Index_rel (f f' : LshForest) : Index f = Some f' → Index_rel f f'.
Proof.
  unfold Index. case_decide as Hlen; [|done]. intros [= <-].
  split; simpl; try done.
  apply Forall2_lookup. intros i.
  rewrite !lookup_zip_with.
  destruct (hashTables f !! i) as [ht|]; simpl; [|constructor].
  destruct (initHashTables f !! i) as [m|]; simpl; [|constructor].
  constructor. split; simpl.
  - apply merge_sort_Permutation.
  - apply Sorted_merge_sort. apply _.
Qed.

Lemma Index_is_Some (f : LshForest) :
  (length (hashTables f) ≤ length (initHashTables f))%nat → is_Some (Index f).
Proof. intros Hlen. unfold Index. case_decide; [done | lia]. Qed.

(** ** The scenario of the spec is a run of the program *)

Lemma forest0_new : NewLshForest32 encodeValues 4 4 = Some forest0.
Proof. reflexivity. Qed.

Lemma forest1_Add : Add forest0 "A" sigA = Some forest1.
Proof. vm_compute. reflexivity. Qed.

Lemma forest2_Index : Index forest1 = Some forest2.
Proof. vm_compute. reflexivity. Qed.

Lemma forest3_Add : Add forest2 "B" sigA = Some forest3.
Proof. vm_compute. reflexivity. Qed.

Lemma forest4_Index : Index forest3 = Some forest4.
Proof. vm_compute. reflexivity. Qed.

Lemma sigA_wf : sig_wf sigA.
Proof. unfold sig_wf, max_int. simpl. lia. Qed.

Lemma sigB_wf : sig_wf sigB.
Proof. unfold sig_wf, max_int. simpl. lia. Qed.

Lemma forest0_built : built encodeValues forest0.
Proof.
  apply (built_new encodeValues 4 4 4); unfold is_int, min_int, max_int;
    [lia | lia | lia | exact forest0_new].
Qed.

Lemma forest1_built : built encodeValues forest1.
Proof. exact (built_Add _ _ _ _ _ forest0_built sigA_wf forest1_Add). Qed.

Lemma forest2_built : built encodeValues forest2.
Proof. exact (built_Index _ _ _ forest1_built (Index_Index_rel _ _ forest2_Index)). Qed.

Lemma forest3_built : built encodeValues forest3.
Proof. exact (built_Add _ _ _ _ _ forest2_built sigA_wf forest3_Add). Qed.

Lemma forest4_built : built encodeValues forest4.
Proof. exact (built_Index _ _ _ forest3_built (Index_Index_rel _ _ forest4_Index)). Qed.

(** * The claims *)

(** C3: every sequence of keys that a run of [Query] sends to [out], on
    every index state and for every signature, [K] and [L], has each key at
    most once, whatever the number of buckets and bands the key matches in
    and however the goroutines interleave. *)
Theorem Query_no_duplicates (f : LshForest) (sig : Signature) (K L : Z) (out : list string) :
  Query_rel f sig K L out → NoDup out.
Proof. intros (streams & stream & _ & _ & ->). apply NoDup_dedup. Qed.

Lemma Query_no_duplicates_witness :
  Query_rel forest4 sigA 4 4 ["A"; "B"] ∧ NoDup ["A"; "B"].
Proof.
  assert (Query_rel forest4 sigA 4 4 ["A"; "B"]) as H
    by (apply Query_Query_rel; vm_compute; reflexivity).
  split; [exact H | exact (Query_no_duplicates _ _ _ _ _ H)].
Defined.

(** C10: in every index that a program builds, every bucket of every band
    table and every entry of every staging table has at least one key. *)
Theorem buckets_nonempty (gen : Z → list Z → string) (f : LshForest) :
  built gen f →
  (∀ ht b, ht ∈ hashTables f → b ∈ ht → keys b ≠ []) ∧
  (∀ (m : initHashTable) hk ks, m ∈ initHashTables f → m !! hk = Some ks → ks ≠ []).
Proof.
  intros Hb. destruct (built_inv gen f Hb). split; eauto.
Qed.

Lemma buckets_nonempty_witness :
  built encodeValues forest3 ∧
  (∀ ht b, ht ∈ hashTables forest3 → b ∈ ht → keys b ≠ []) ∧
  (∀ (m : initHashTable) hk ks,
     m ∈ initHashTables forest3 → m !! hk = Some ks → ks ≠ []).
Proof.
  split; [exact forest3_built | exact (buckets_nonempty encodeValues forest3 forest3_built)].
Defined.

(** C6 (what the code does): the constructor panics exactly when [k] or [l]
    is negative; [k = 0] and [l = 0] are accepted, although the message of
    the panic is that they must be positive. *)
Theorem newLshForest_panics_iff (gen : Z → list Z → string) (kv lv hvs : Z) :
  newLshForest gen kv lv hvs = None ↔ kv < 0 ∨ lv < 0.
Proof.
  unfold newLshForest.
  destruct (kv <? 0) eqn:Hk; destruct (lv <? 0) eqn:Hl; simpl; split; try done; lia.
Qed.

(** C6, at the failing input: [NewLshForest32(0, 0)] returns an index
    without bands. *)
Lemma newLshForest_zero_accepted :
  NewLshForest32 encodeValues 0 0
  = Some {| k := 0; l := 0; initHashTables := []; hashTables := [];
            hashKeyFunc := encodeValues 4; hashValueSize := 4 |}.
Proof. reflexivity. Qed.

(** ** The order of a band table *)

Lemma Less_lt (a b : bucket) :
  Less a b = true ↔ String.le (hashKey a) (hashKey b) ∧ hashKey a ≠ hashKey b.
Proof.
  unfold Less. rewrite leb_ltb, negb_true_iff, String_le_leb. split.
  - intros Hba. split.
    + destruct (String.leb_total (hashKey a) (hashKey b)) as [?|?]; congruence.
    + intros Heq. rewrite Heq in Hba.
      assert (String.leb (hashKey b) (hashKey b) = true) by (by apply String_le_leb).
      congruence.
  - intros [Hab Hne]. destruct (String.leb (hashKey b) (hashKey a)) eqn:Hba; [|done].
    exfalso. apply Hne. by apply String.leb_antisym.
Qed.

Global Instance Less_trans : Transitive (λ a b, Less a b = true).
Proof.
  intros a b c. rewrite !Less_lt. intros [Hab Hne] [Hbc Hne'].
  split; [by transitivity (hashKey b)|].
  intros Heq. rewrite Heq in Hab. apply Hne'.
  by apply (anti_symm String.le).
Qed.

Lemma strictlySorted_NoDup (ht : hashTable) :
  strictlySorted ht → NoDup (hashKey <$> ht).
Proof.
  intros HS. apply Sorted_StronglySorted in HS; [|apply _].
  induction HS as [|a ht HS IH Hall]; simpl; constructor; [|done].
  intros Hin. apply list_elem_of_fmap in Hin as (b & Heq & Hb).
  rewrite Forall_forall in Hall. apply Hall, Less_lt in Hb as [_ Hne]. done.
Qed.

Lemma Sorted_NoDup_strictlySorted (ht : hashTable) :
  Sorted notAfter ht → NoDup (hashKey <$> ht) → strictlySorted ht.
Proof.
  induction 1 as [|a ht HS IH Hhd]; intros Hnd; [constructor|].
  simpl in Hnd. apply NoDup_cons in Hnd as [Hnin Hnd].
  constructor; [by apply IH|].
  destruct Hhd as [|b ht' Hab]; constructor.
  apply Less_lt. split; [by apply notAfter_le|].
  intros Heq. apply Hnin. rewrite Heq. simpl. left.
Qed.

Lemma NoDup_staged (m : initHashTable) : NoDup (hashKey <$> staged m).
Proof.
  unfold staged. rewrite <- list_fmap_compose.
  apply (NoDup_fst_map_to_list m).
Qed.

(** C5 (amended): after every call of [Index], whatever the index before,
    each band table is sorted by hash key in ascending order, not strictly;
    it is strictly sorted when it was before the call and no hash key of
    its staging table was in it already, as after the first call, when the
    table was empty. *)
Theorem Index_sorted (f f' : LshForest) (i : nat) (ht' : hashTable) :
  Index_rel f f' → hashTables f' !! i = Some ht' →
  StronglySorted (λ a b, String.le (hashKey a) (hashKey b)) ht' ∧
  (∀ ht (m : initHashTable),
     hashTables f !! i = Some ht → initHashTables f !! i = Some m →
     strictlySorted ht → (∀ b, b ∈ ht → m !! hashKey b = None) →
     strictlySorted ht') ∧
  (hashTables f !! i = Some [] → strictlySorted ht').
Proof.
  intros HI Hi.
  destruct (Index_rel_lookup _ _ _ _ HI Hi) as (ht0 & m0 & Hht0 & Hm0 & [Hp HS]).
  assert (∀ ht (m : initHashTable),
            hashTables f !! i = Some ht → initHashTables f !! i = Some m →
            strictlySorted ht → (∀ b, b ∈ ht → m !! hashKey b = None) →
            strictlySorted ht') as Hstrict.
  { intros ht m Hht Hm Hstrict Hfresh.
    assert (ht0 = ht) as -> by congruence. assert (m0 = m) as -> by congruence.
    apply Sorted_NoDup_strictlySorted; [done|].
    rewrite Hp, fmap_app. apply NoDup_app. split; [by apply strictlySorted_NoDup|].
    split; [|apply NoDup_staged].
    intros hk Hin Hin'.
    apply list_elem_of_fmap in Hin as (b & -> & Hb).
    apply list_elem_of_fmap in Hin' as (b' & Heq & Hb').
    apply elem_of_staged in Hb'. rewrite <- Heq, (Hfresh b Hb) in Hb'. done. }
  split; [|split; [exact Hstrict|]].
  - apply Sorted_StronglySorted in HS; [|apply _]. clear -HS.
    induction HS as [|a xs HS IH Hall]; constructor; [done|].
    eapply Forall_impl; [exact Hall|]. intros b. apply notAfter_le.
  - intros Hnil. apply (Hstrict [] m0 Hnil Hm0); [constructor|].
    intros b Hb. by apply elem_of_nil in Hb.
Qed.

Lemma Index_sorted_witness :
  Index_rel forest1 forest2 ∧
  hashTables forest2 !! 0%nat
    = Some [{| hashKey := encodeValues 4 [1; 1; 1; 1]; keys := ["A"] |}] ∧
  StronglySorted (λ a b, String.le (hashKey a) (hashKey b))
    [{| hashKey := encodeValues 4 [1; 1; 1; 1]; keys := ["A"] |}] ∧
  (∀ ht (m : initHashTable),
     hashTables forest1 !! 0%nat = Some ht → initHashTables forest1 !! 0%nat = Some m →
     strictlySorted ht → (∀ b, b ∈ ht → m !! hashKey b = None) →
     strictlySorted [{| hashKey := encodeValues 4 [1; 1; 1; 1]; keys := ["A"] |}]) ∧
  (hashTables forest1 !! 0%nat = Some [] →
   strictlySorted [{| hashKey := encodeValues 4 [1; 1; 1; 1]; keys := ["A"] |}]).
Proof.
  assert (Index_rel forest1 forest2) as HI by exact (Index_Index_rel _ _ forest2_Index).
  assert (hashTables forest2 !! 0%nat
    = Some [{| hashKey := encodeValues 4 [1; 1; 1; 1]; keys := ["A"] |}]) as Hi
    by (vm_compute; reflexivity).
  split; [exact HI|]. split; [exact Hi|].
  exact (Index_sorted forest1 forest2 0%nat _ HI Hi).
Defined.

(** C5 (as stated) fails: ["B"] is added with the signature of ["A"] after
    ["A"] was indexed; whatever the second [Index] call does, the table of
    band 0 then has two buckets with one hash key. *)
Lemma Index_not_strictly_sorted :
  built encodeValues forest3 ∧ Index_rel forest3 forest4 ∧
  ∀ f', Index_rel forest3 f' →
    ∃ ht', hashTables f' !! 0%nat = Some ht' ∧ ¬ strictlySorted ht'.
Proof.
  split; [exact forest3_built|]. split; [exact (Index_Index_rel _ _ forest4_Index)|].
  intros f' HI.
  assert (hashTables forest3 !! 0%nat
    = Some [{| hashKey := encodeValues 4 [1; 1; 1; 1]; keys := ["A"] |}]) as Hht
    by (vm_compute; reflexivity).
  destruct (Index_rel_lookup_l _ _ _ _ HI Hht) as (ht' & m & Hht' & Hm & [Hp _]).
  exists ht'. split; [done|]. intros HS.
  apply strictlySorted_NoDup in HS. rewrite Hp, fmap_app in HS.
  apply NoDup_app in HS as (_ & Hdisj & _).
  apply (Hdisj (encodeValues 4 [1; 1; 1; 1])); [simpl; left|].
  apply list_elem_of_fmap.
  exists {| hashKey := encodeValues 4 [1; 1; 1; 1]; keys := ["B"] |}.
  split; [done|]. apply elem_of_staged. simpl.
  assert (initHashTables forest3 !! 0%nat
    = Some {[ encodeValues 4 [1; 1; 1; 1] := ["B"] ]}) as Hm'
    by (vm_compute; reflexivity).
  assert (m = {[ encodeValues 4 [1; 1; 1; 1] := ["B"] ]}) as -> by congruence.
  apply lookup_singleton_eq.
Qed.

(** ** Calls that return *)

Lemma built_step (gen : Z → list Z → string) (f f' : LshForest) :
  built gen f → step f f' → built gen f'.
Proof.
  intros Hb Hs. destruct Hs as [f f' key sig Hwf HAdd | f f' HI].
  - exact (built_Add gen f f' key sig Hb Hwf HAdd).
  - exact (built_Index gen f f' Hb HI).
Qed.

Lemma built_steps (gen : Z → list Z → string) (f f' : LshForest) :
  built gen f → rtc step f f' → built gen f'.
Proof. intros Hb Hs. induction Hs; eauto using built_step. Qed.

(** No product of the loops overflows on a window inside the signature. *)
Lemma imul_small (i kv n : Z) :
  0 <= i → 0 <= kv → i * kv <= n → n <= max_int → imul i kv = i * kv.
Proof.
  intros Hi Hk Hn Hmax. unfold imul. apply wrap_id. unfold min_int. nia.
Qed.

Lemma iadd_small (a b : Z) : 0 <= a → 0 <= b → a + b <= max_int → iadd a b = a + b.
Proof. intros. unfold iadd. apply wrap_id. unfold min_int. lia. Qed.

(** [Add] returns on a signature with the [k * l] values of the bands. *)
Lemma Add_is_Some (f : LshForest) (key : string) (sig : Signature) :
  forest_inv f → sig_wf sig → k f * l f <= Z.of_nat (length sig) →
  is_Some (Add f key sig).
Proof.
  intros [] Hwf Hlen. unfold Add, sig_wf in *.
  destruct (l f <? 0) eqn:Hl; [lia|].
  assert (is_Some (mapM (addKey f sig) (seqZ 0 (l f)))) as [Hs HHs].
  { apply mapM_is_Some, Forall_lookup. intros i z Hz.
    apply lookup_seqZ in Hz as [-> Hlt]. rewrite Z.add_0_l. unfold addKey. simpl.
    assert (Z.of_nat i * k f + k f <= k f * l f) by nia.
    rewrite (iadd_small (Z.of_nat i) 1) by lia.
    rewrite (imul_small (Z.of_nat i) (k f) (Z.of_nat (length sig))) by (unfold max_int in *; lia).
    rewrite (imul_small (Z.of_nat i + 1) (k f) (Z.of_nat (length sig))) by (unfold max_int in *; lia).
    rewrite slice_Some by lia. done. }
  rewrite HHs. simpl. apply length_mapM in HHs. rewrite length_seqZ in HHs.
  case_decide; [done | lia].
Qed.

(** At [K = f.k], [Query] encodes the windows that [Add] encodes. *)
Lemma queryKey_addKey (f : LshForest) (sig : Signature) (i : Z) :
  queryKey f sig (k f) i = addKey f sig i.
Proof. unfold queryKey, addKey. by rewrite iadd_imul_succ. Qed.

(** The first probe of [sort.Search] on a table with a bucket. *)
Lemma sort_Search_panics (n : nat) (f : nat → option bool) :
  (0 < n)%nat → f (n / 2)%nat = None → sort_Search n f = None.
Proof.
  intros Hn Hf. unfold sort_Search. simp search_loop.
  destruct (decide (0 < n)%nat) as [?|?]; [|lia]. simpl.
  change (Nat.divmod n 1 0 1).1 with (n / 2)%nat. by rewrite Hf.
Qed.

(** ** The prefix of a stored hash key *)

Section Claims.

Variable gen : Z → list Z → string.
Hypothesis gen_ok : hashKeyFuncGen_spec gen.

(** A prefix of at most [f.k] values of a stored hash key is in bounds. *)
Lemma prefixSize_ok (f : LshForest) (K : Z) (ht : hashTable) (b : bucket) :
  forest_enc gen f → 0 <= K <= k f → ht ∈ hashTables f → b ∈ ht →
  imul (hashValueSize f) K = hashValueSize f * K ∧
  0 <= hashValueSize f * K <= Z.of_nat (String.length (hashKey b)) ∧
  strPrefix (hashKey b) (imul (hashValueSize f) K)
  = Some (String.substring 0 (Z.to_nat (hashValueSize f * K)) (hashKey b)).
Proof.
  intros [] HK Hht Hb. destruct (enc_buckets0 ht b Hht Hb) as [Hlen Hmax].
  assert (imul (hashValueSize f) K = hashValueSize f * K) as Himul.
  { unfold imul. apply wrap_id. unfold min_int, max_int in *. nia. }
  rewrite Himul. split; [done|].
  assert (0 <= hashValueSize f * K <= Z.of_nat (String.length (hashKey b))) by nia.
  split; [done|]. by apply strPrefix_Some.
Qed.

(** On an index that a program builds, the search of a band with a prefix
    of at most [f.k] values returns, with the keys of every bucket that has
    the prefix. *)
Lemma bandSearch_built (f : LshForest) (K : Z) (ht : hashTable) (hk : string) :
  forest_inv f → forest_enc gen f → 0 <= K <= k f → ht ∈ hashTables f →
  ∃ r, bandSearch ht hk (imul (hashValueSize f) K) = Some r ∧
       ∀ b key, b ∈ ht → strPrefix (hashKey b) (imul (hashValueSize f) K) = Some hk →
                key ∈ keys b → key ∈ r.
Proof.
  intros Hinv Henc HK Hht. apply bandSearch_complete.
  - by apply (inv_sorted f Hinv).
  - intros b Hb. destruct (prefixSize_ok f K ht b Henc HK Hht Hb) as (_ & _ & ->). done.
Qed.

(** C9: on every index that a program builds and for every [K] from 1 to
    [f.k] (or [-1]), each stored hash key has [hashValueSize * f.k] bytes,
    [prefixSize] is [hashValueSize * K], at most that length, hence the
    expression [hashKey[:prefixSize]] does not panic, neither in the binary
    search nor in the scan of the buckets. *)
Theorem prefix_slice_in_bounds (f : LshForest) (K : Z) (ht : hashTable) (b : bucket) :
  built gen f → 1 <= K <= k f ∨ K = -1 →
  ht ∈ hashTables f → b ∈ ht →
  let K' := if K =? -1 then k f else K in
  let prefixSize := imul (hashValueSize f) K' in
  Z.of_nat (String.length (hashKey b)) = hashValueSize f * k f ∧
  prefixSize = hashValueSize f * K' ∧
  0 <= prefixSize <= Z.of_nat (String.length (hashKey b)) ∧
  is_Some (strPrefix (hashKey b) prefixSize) ∧
  ∀ hk, is_Some (bandSearch ht hk prefixSize).
Proof.
  intros Hb HK Hht Hin K' prefixSize.
  pose proof (built_inv gen f Hb) as Hinv.
  pose proof (built_enc gen gen_ok f Hb) as Henc.
  assert (0 <= K' <= k f) as HK'.
  { unfold K'. pose proof (inv_k f Hinv). destruct (K =? -1) eqn:E; lia. }
  destruct (prefixSize_ok f K' ht b Henc HK' Hht Hin) as (Hps & Hrange & Hpre).
  split; [apply (enc_buckets gen f Henc ht b Hht Hin)|].
  split; [done|]. unfold prefixSize. rewrite Hps at 1 2.
  split; [done|]. split; [by rewrite Hpre|].
  intros hk. destruct (bandSearch_built f K' ht hk Hinv Henc HK' Hht) as (r & -> & _).
  done.
Qed.

End Claims.

Lemma prefix_slice_in_bounds_witness :
  built encodeValues forest4 ∧ (1 <= 2 <= k forest4 ∨ 2 = -1) ∧
  [{| hashKey := encodeValues 4 [1; 1; 1; 1]; keys := ["A"] |};
   {| hashKey := encodeValues 4 [1; 1; 1; 1]; keys := ["B"] |}] ∈ hashTables forest4 ∧
  Z.of_nat (String.length (encodeValues 4 [1; 1; 1; 1])) = hashValueSize forest4 * k forest4 ∧
  is_Some (strPrefix (encodeValues 4 [1; 1; 1; 1]) (imul (hashValueSize forest4) 2)).
Proof.
  assert ([{| hashKey := encodeValues 4 [1; 1; 1; 1]; keys := ["A"] |};
           {| hashKey := encodeValues 4 [1; 1; 1; 1]; keys := ["B"] |}]
          ∈ hashTables forest4) as Hht
    by (apply (list_elem_of_lookup_2 _ 0%nat); vm_compute; reflexivity).
  assert (1 <= 2 <= k forest4 ∨ 2 = -1) as HK by (left; vm_compute; by split).
  pose proof (prefix_slice_in_bounds encodeValues encodeValues_spec forest4 2 _
    {| hashKey := encodeValues 4 [1; 1; 1; 1]; keys := ["A"] |}
    forest4_built HK Hht ltac:(left)) as (Hlen & _ & _ & Hpre & _).
  split; [exact forest4_built|]. split; [exact HK|]. split; [exact Hht|].
  split; [exact Hlen | exact Hpre].
Defined.

(** ** Queries on an index that a program builds *)

Section Queries.

Variable gen : Z → list Z → string.
Hypothesis gen_ok : hashKeyFuncGen_spec gen.

Lemma addKey_ext (f f' : LshForest) (sig : Signature) (i : Z) :
  k f' = k f → hashKeyFunc f' = hashKeyFunc f → addKey f' sig i = addKey f sig i.
Proof. intros Hk Hfn. unfold addKey. by rewrite Hk, Hfn. Qed.

(** [Query] returns when the windows are in range, [K] is at most [f.k]
    and [L] at most [f.l]. *)
Lemma searchBands_built_is_Some (f : LshForest) (sig : Signature) (K L : Z) :
  forest_inv f → forest_enc gen f → 0 <= K <= k f → 0 <= L <= l f →
  (∀ i, (i < Z.to_nat L)%nat → is_Some (queryKey f sig K (Z.of_nat i))) →
  is_Some (searchBands f sig K L).
Proof.
  intros Hinv Henc HK HL Hkeys. apply searchBands_is_Some; [lia|].
  intros i Hi. destruct (Hkeys i Hi) as [hk Hhk].
  destruct (lookup_lt_is_Some_2 (hashTables f) i) as [ht Hht].
  { rewrite (inv_hashTables_length f Hinv). lia. }
  exists hk, ht. split; [done|]. split; [done|].
  destruct (bandSearch_built gen f K ht hk Hinv Henc HK) as (r & -> & _); [|done].
  by eapply list_elem_of_lookup_2.
Qed.

(** A key of a bucket is in the stream of its band when the query key of
    the band is the hash key of the bucket. *)
Lemma own_key_found (f : LshForest) (sig : Signature) (L : Z)
    (streams : list (list string)) (i : nat) (ht : hashTable) (b : bucket)
    (key : string) (s : list string) :
  forest_inv f → forest_enc gen f →
  searchBands f sig (k f) L = Some streams → streams !! i = Some s →
  hashTables f !! i = Some ht → b ∈ ht → key ∈ keys b →
  queryKey f sig (k f) (Z.of_nat i) = Some (hashKey b) →
  key ∈ s.
Proof.
  intros Hinv Henc Hstreams Hs Hht Hb Hkey Hq.
  destruct (searchBands_lookup _ _ _ _ _ _ _ Hstreams Hs) as (hk & ht' & Hq' & Hht' & Hband).
  assert (hk = hashKey b) as -> by congruence.
  assert (ht' = ht) as -> by congruence.
  assert (ht ∈ hashTables f) as Hin by (by eapply list_elem_of_lookup_2).
  pose proof (inv_k f Hinv) as Hk.
  destruct (bandSearch_built gen f (k f) ht (hashKey b) Hinv Henc) as (r & Hr & Hall);
    [lia | done |].
  assert (r = s) as -> by congruence.
  apply (Hall b key Hb); [|done].
  destruct (prefixSize_ok gen f (k f) ht b Henc) as (_ & _ & ->); [lia | done | done |].
  destruct (enc_buckets gen f Henc ht b Hin Hb) as [Hlen _].
  f_equal. apply substring_all. lia.
Qed.

(** C1, for an index with at least one band: after [Add(key, sig)] with a
    signature of at least [k * l] values and then [Index()], every run of
    [Query(sig, k, l)] and of [Query(sig, -1, -1)] returns, and sends
    [key]. *)
Theorem Query_contains_added (f : LshForest) (key : string) (sig : Signature) (K L : Z) :
  built gen f → sig_wf sig → k f * l f <= Z.of_nat (length sig) → 1 <= l f →
  (K = k f ∧ L = l f) ∨ (K = -1 ∧ L = -1) →
  ∃ f1, Add f key sig = Some f1 ∧
        (∃ f2, Index_rel f1 f2) ∧
        ∀ f2, Index_rel f1 f2 →
          (∃ out, Query_rel f2 sig K L out) ∧
          (∀ out, Query_rel f2 sig K L out → key ∈ out).
Proof.
  intros Hb Hwf Hlen Hl HKL.
  pose proof (built_inv gen f Hb) as Hinv.
  destruct (Add_is_Some f key sig Hinv Hwf Hlen) as [f1 HAdd].
  exists f1. split; [done|].
  pose proof (built_Add gen f f1 key sig Hb Hwf HAdd) as Hb1.
  pose proof (built_inv gen f1 Hb1) as Hinv1.
  split.
  { destruct (Index_is_Some f1) as [f2 Hf2].
    - rewrite (inv_hashTables_length f1 Hinv1), (inv_initHashTables_length f1 Hinv1). lia.
    - exists f2. by apply Index_Index_rel. }
  intros f2 HI.
  pose proof (built_Index gen f1 f2 Hb1 HI) as Hb2.
  pose proof (built_inv gen f2 Hb2) as Hinv2.
  pose proof (built_enc gen gen_ok f2 Hb2) as Henc2.
  apply Add_inv in HAdd as (Hs & HHs & _ & Hk1 & Hl1 & _ & Hfn1 & _ & Hinit1).
  pose proof (Index_k _ _ HI) as Hk2. pose proof (Index_l _ _ HI) as Hl2.
  pose proof (Index_hashKeyFunc _ _ HI) as Hfn2.
  pose proof (inv_k f2 Hinv2) as Hk2range.
  assert (Query_bands f2 sig K L = searchBands f2 sig (k f2) (l f2)) as HQ.
  { unfold Query_bands. destruct HKL as [[-> ->]|[-> ->]].
    - rewrite <- Hk1, <- Hl1, <- Hk2, <- Hl2.
      destruct (k f2 =? -1) eqn:E1; destruct (l f2 =? -1) eqn:E2; try done; lia.
    - done. }
  assert (∀ i, (i < Z.to_nat (l f2))%nat →
            ∃ hk, Hs !! i = Some hk ∧ queryKey f2 sig (k f2) (Z.of_nat i) = Some hk) as Hkeys.
  { intros i Hi. apply mapM_Some_1 in HHs.
    assert (seqZ 0 (l f) !! i = Some (Z.of_nat i)) as Hz by (apply lookup_seqZ; lia).
    destruct (Forall2_lookup_l _ _ _ _ _ HHs Hz) as (hk & Hhk & Hkey).
    exists hk. split; [done|].
    rewrite queryKey_addKey, (addKey_ext f f2) by congruence. done. }
  assert (is_Some (searchBands f2 sig (k f2) (l f2))) as [streams Hstreams].
  { apply searchBands_built_is_Some; [done | done | lia | lia |].
    intros i Hi. destruct (Hkeys i Hi) as (hk & _ & ->). done. }
  split.
  { exists (dedup ∅ (concat streams)). apply Query_Query_rel.
    unfold Query. by rewrite HQ, Hstreams. }
  intros out Hout. apply (Query_rel_elem_of _ _ _ _ _ _ Hout).
  destruct (searchBands_length _ _ _ _ _ Hstreams) as [_ Hlenstreams].
  destruct (lookup_lt_is_Some_2 streams 0) as [s Hs0]; [lia|].
  exists streams, s. split; [by rewrite HQ|].
  split; [by eapply list_elem_of_lookup_2|].
  destruct (Hkeys 0%nat) as (hk & Hhk & Hq); [lia|].
  destruct (lookup_lt_is_Some_2 (hashTables f2) 0) as [ht' Hht'].
  { rewrite (inv_hashTables_length f2 Hinv2). lia. }
  destruct (Index_rel_lookup _ _ _ _ HI Hht') as (ht0 & m0 & Hht0 & Hm0 & [Hp _]).
  rewrite Hinit1 in Hm0.
  apply lookup_zip_with_Some in Hm0 as (m & hk' & -> & Hm & Hhk').
  assert (hk' = hk) as -> by congruence.
  destruct (stage_lookup_key m hk key) as [ks0 Hks0].
  apply (own_key_found f2 sig (l f2) streams 0 ht'
           {| hashKey := hk; keys := ks0 ++ [key] |} key s); try done.
  - rewrite Hp. apply elem_of_app. right. by apply elem_of_staged.
  - simpl. apply elem_of_app. right. left.
Qed.

End Queries.

Lemma Query_contains_added_witness :
  built encodeValues forest0 ∧ sig_wf sigA ∧
  ∃ f1, Add forest0 "A" sigA = Some f1 ∧
        (∃ f2, Index_rel f1 f2) ∧
        ∀ f2, Index_rel f1 f2 →
          (∃ out, Query_rel f2 sigA 4 4 out) ∧
          (∀ out, Query_rel f2 sigA 4 4 out → "A" ∈ out).
Proof.
  split; [exact forest0_built|]. split; [exact sigA_wf|].
  apply (Query_contains_added encodeValues encodeValues_spec forest0 "A" sigA 4 4
           forest0_built sigA_wf).
  - vm_compute. discriminate.
  - vm_compute. discriminate.
  - left. split; reflexivity.
Defined.

(** C1, at the failing input: the constructor accepts [l = 0]; on that index
    [Add] and [Index] return and change nothing, and every run of [Query]
    with the signature of the added key sends no key. *)
Theorem Query_without_bands :
  NewLshForest32 encodeValues 1 0 = Some forestNoBands ∧
  k forestNoBands * l forestNoBands <= Z.of_nat (length [7]) ∧
  Add forestNoBands "A" [7] = Some forestNoBands ∧
  Index forestNoBands = Some forestNoBands ∧
  Query forestNoBands [7] (-1) (-1) = Some [] ∧
  Query forestNoBands [7] 1 0 = Some [] ∧
  (∀ out, Query_rel forestNoBands [7] (-1) (-1) out → "A" ∉ out) ∧
  (∀ out, Query_rel forestNoBands [7] 1 0 out → "A" ∉ out).
Proof.
  assert (∀ K L out, Query_bands forestNoBands [7] K L = Some [] →
            Query_rel forestNoBands [7] K L out → "A" ∉ out) as Hnone.
  { intros K L out Hb (streams & stream & Hb' & Hi & ->).
    assert (streams = []) as -> by congruence.
    rewrite elem_of_dedup, (interleave_elem_of _ _ _ Hi).
    intros [(st & Hst & _) _]. by apply elem_of_nil in Hst. }
  split; [reflexivity|]. split; [simpl; lia|].
  split; [reflexivity|]. split; [reflexivity|].
  split; [reflexivity|]. split; [reflexivity|].
  split; intros out; apply Hnone; reflexivity.
Qed.

(** ** Windows of a query *)

(** A window of [Query] that is in range: no sum overflows. *)
Lemma queryKey_inv (f : LshForest) (sig : Signature) (K i : Z) (hk : string) :
  sig_wf sig → is_int K → queryKey f sig K i = Some hk →
  0 <= imul i (k f) ∧ 0 <= K ∧ imul i (k f) + K <= Z.of_nat (length sig) ∧
  hk = hashKeyFunc f (take (Z.to_nat K) (drop (Z.to_nat (imul i (k f))) sig)).
Proof.
  unfold sig_wf, is_int, queryKey. intros Hwf HK Hq.
  destruct (slice _ _ _) as [hs|] eqn:Hslice; simpl in Hq; [|done].
  injection Hq as <-.
  apply slice_inv in Hslice as (Hlo & Hle & Hhi & -> & _).
  unfold iadd in *. destruct (wrap_cong (imul i (k f) + K)) as [c Hc].
  assert (wrap (imul i (k f) + K) = imul i (k f) + K) as Hw.
  { rewrite Hc in *. unfold min_int, max_int in *.
    change (2 ^ 64) with 18446744073709551616 in *.
    change (2 ^ 63) with 9223372036854775808 in *. lia. }
  rewrite Hw in *. repeat split; try lia.
  do 2 f_equal. lia.
Qed.

Lemma queryKey_Some (f : LshForest) (sig : Signature) (K i : Z) :
  sig_wf sig → 0 <= imul i (k f) → 0 <= K →
  imul i (k f) + K <= Z.of_nat (length sig) →
  queryKey f sig K i
  = Some (hashKeyFunc f (take (Z.to_nat K) (drop (Z.to_nat (imul i (k f))) sig))).
Proof.
  unfold sig_wf, queryKey. intros Hwf Hlo HK Hhi.
  rewrite iadd_small by (unfold max_int in *; lia).
  rewrite slice_Some by lia. simpl. do 3 f_equal. lia.
Qed.

Lemma queryKey_ext (f f' : LshForest) (sig : Signature) (K i : Z) :
  k f' = k f → hashKeyFunc f' = hashKeyFunc f →
  queryKey f' sig K i = queryKey f sig K i.
Proof. intros Hk Hfn. unfold queryKey. by rewrite Hk, Hfn. Qed.

(** [Query] reads the band tables, [k], [l], the width and the encoder. *)
Lemma Query_bands_ext (f f' : LshForest) (sig : Signature) (K L : Z) :
  k f' = k f → l f' = l f → hashValueSize f' = hashValueSize f →
  hashKeyFunc f' = hashKeyFunc f → hashTables f' = hashTables f →
  Query_bands f' sig K L = Query_bands f sig K L.
Proof.
  intros Hk Hl Hw Hfn Hht. unfold Query_bands, searchBands, queryKey.
  by rewrite Hk, Hl, Hw, Hfn, Hht.
Qed.

(** A query that returns has [L] at most [f.l], and each of its windows is
    in range. *)
Lemma searchBands_Some_inv (f : LshForest) (sig : Signature) (K L : Z)
    (streams : list (list string)) :
  searchBands f sig K L = Some streams →
  0 <= L ∧ (Z.to_nat L ≤ length (hashTables f))%nat ∧
  ∀ i, (i < Z.to_nat L)%nat → is_Some (queryKey f sig K (Z.of_nat i)).
Proof.
  intros Hstreams.
  destruct (searchBands_length _ _ _ _ _ Hstreams) as [HL Hlen].
  assert (∀ i, (i < Z.to_nat L)%nat →
            is_Some (queryKey f sig K (Z.of_nat i)) ∧ is_Some (hashTables f !! i)) as Hall.
  { intros i Hi. destruct (lookup_lt_is_Some_2 streams i) as [s Hs]; [lia|].
    destruct (searchBands_lookup _ _ _ _ _ _ _ Hstreams Hs) as (hk & ht & -> & -> & _).
    done. }
  split; [done|]. split; [|intros i Hi; by apply Hall].
  destruct (Z.to_nat L) as [|n] eqn:E; [lia|].
  destruct (Hall n) as [_ Hn]; [lia|]. apply lookup_lt_is_Some in Hn. lia.
Qed.

(** ** Keys stay in the band tables *)

Section Retention.

Variable gen : Z → list Z → string.
Hypothesis gen_ok : hashKeyFuncGen_spec gen.

(** A query that finds [key] in a bucket has [K] at most [f.k]. *)
Lemma found_K_le (f : LshForest) (sig : Signature) (K : Z) (i : Z) (hk : string)
    (ht : hashTable) (b : bucket) :
  forest_enc gen f → sig_wf sig → is_int K →
  queryKey f sig K i = Some hk → ht ∈ hashTables f → b ∈ ht →
  strPrefix (hashKey b) (imul (hashValueSize f) K) = Some hk →
  0 <= K <= k f.
Proof.
  intros Henc Hwf HK Hq Hht Hb Hpre.
  destruct (queryKey_inv f sig K i hk Hwf HK Hq) as (Hlo & HK0 & Hhi & _).
  destruct (enc_buckets gen f Henc ht b Hht Hb) as [Hlen Hmax].
  pose proof (enc_hashValueSize gen f Henc) as Hw.
  apply strPrefix_inv in Hpre as [Hps _].
  unfold sig_wf in Hwf.
  assert (imul (hashValueSize f) K = hashValueSize f * K) as Himul.
  { unfold imul. apply wrap_id. unfold min_int, max_int in *. nia. }
  rewrite Himul in Hps. nia.
Qed.

(** A key that a query finds is found after a call of [Index]. *)
Lemma found_Index (f f' : LshForest) (sig : Signature) (K L : Z) (key : string) :
  built gen f → Index_rel f f' → sig_wf sig → is_int K →
  (∃ streams s, Query_bands f sig K L = Some streams ∧ s ∈ streams ∧ key ∈ s) →
  (∃ streams s, Query_bands f' sig K L = Some streams ∧ s ∈ streams ∧ key ∈ s).
Proof.
  intros Hb HI Hwf HK (streams & s & Hstreams & Hs & Hkey).
  pose proof (built_inv gen f Hb) as Hinv.
  pose proof (built_enc gen gen_ok f Hb) as Henc.
  pose proof (built_Index gen f f' Hb HI) as Hb'.
  pose proof (built_inv gen f' Hb') as Hinv'.
  pose proof (built_enc gen gen_ok f' Hb') as Henc'.
  pose proof (Index_k _ _ HI) as Hk. pose proof (Index_l _ _ HI) as Hl.
  pose proof (Index_hashKeyFunc _ _ HI) as Hfn.
  pose proof (Index_hashValueSize _ _ HI) as Hw.
  unfold Query_bands in *. rewrite Hk, Hl.
  set (K' := if K =? -1 then k f else K) in *.
  set (L' := if L =? -1 then l f else L) in *.
  assert (is_int K') as HK'.
  { unfold K'. pose proof (inv_k f Hinv). unfold is_int, min_int in *.
    destruct (K =? -1); lia. }
  destruct (searchBands_Some_inv _ _ _ _ _ Hstreams) as (HL & HLle & Hkeys).
  apply list_elem_of_lookup in Hs as [i Hi].
  destruct (searchBands_lookup _ _ _ _ _ _ _ Hstreams Hi) as (hk & ht & Hq & Hht & Hband).
  destruct (bandSearch_sound _ _ _ _ _ Hband Hkey) as (b & Hbin & Hkeyb & Hpre).
  assert (ht ∈ hashTables f) as Hhtin by (by eapply list_elem_of_lookup_2).
  pose proof (found_K_le f sig K' (Z.of_nat i) hk ht b Henc Hwf HK' Hq Hhtin Hbin Hpre) as HKle.
  assert (is_Some (searchBands f' sig K' L')) as [streams' Hstreams'].
  { apply (searchBands_built_is_Some gen); [done | done | lia | |].
    - rewrite Hl. rewrite (inv_hashTables_length f Hinv) in HLle.
      pose proof (inv_l f Hinv). lia.
    - intros j Hj. rewrite (queryKey_ext f f') by done. by apply Hkeys. }
  destruct (searchBands_length _ _ _ _ _ Hstreams') as [_ Hlen'].
  destruct (searchBands_length _ _ _ _ _ Hstreams) as [_ Hlen].
  destruct (lookup_lt_is_Some_2 streams' i) as [s' Hs'].
  { apply lookup_lt_Some in Hi. lia. }
  exists streams', s'. split; [done|]. split; [by eapply list_elem_of_lookup_2|].
  destruct (searchBands_lookup _ _ _ _ _ _ _ Hstreams' Hs') as (hk' & ht' & Hq' & Hht' & Hband').
  rewrite (queryKey_ext f f') in Hq' by done.
  assert (hk' = hk) as -> by congruence.
  destruct (Index_rel_lookup _ _ _ _ HI Hht') as (ht0 & m & Hht0 & _ & [Hp _]).
  assert (ht0 = ht) as -> by congruence.
  destruct (bandSearch_built gen f' K' ht' hk Hinv' Henc') as (r & Hr & Hall);
    [lia | by eapply list_elem_of_lookup_2 |].
  assert (r = s') as -> by congruence.
  apply (Hall b key); [| by rewrite Hw | done].
  rewrite Hp. apply elem_of_app. by left.
Qed.

(** A key that a query finds is found after a call of [Add] or [Index]. *)
Lemma found_step (f f' : LshForest) (sig : Signature) (K L : Z) (key : string) :
  built gen f → step f f' → sig_wf sig → is_int K →
  (∃ streams s, Query_bands f sig K L = Some streams ∧ s ∈ streams ∧ key ∈ s) →
  (∃ streams s, Query_bands f' sig K L = Some streams ∧ s ∈ streams ∧ key ∈ s).
Proof.
  intros Hb Hstep Hwf HK Hfound.
  destruct Hstep as [f f' key' sig' Hwf' HAdd | f f' HI].
  - apply Add_inv in HAdd as (Hs & _ & _ & Hk & Hl & Hw & Hfn & Hht & _).
    by rewrite (Query_bands_ext f f').
  - by apply (found_Index f f').
Qed.

(** A bucket of a band table is in the table after a call of [Add] or
    [Index]. *)
Lemma bucket_step (f f' : LshForest) (i : nat) (ht : hashTable) (b : bucket) :
  step f f' → hashTables f !! i = Some ht → b ∈ ht →
  ∃ ht', hashTables f' !! i = Some ht' ∧ b ∈ ht'.
Proof.
  intros Hstep Hht Hb.
  destruct Hstep as [f f' key' sig' Hwf' HAdd | f f' HI].
  - apply Add_inv in HAdd as (Hs & _ & _ & _ & _ & _ & _ & Hht' & _).
    exists ht. by rewrite Hht'.
  - destruct (Index_rel_lookup_l _ _ _ _ HI Hht) as (ht' & m & Hht' & _ & [Hp _]).
    exists ht'. split; [done|]. rewrite Hp. apply elem_of_app. by left.
Qed.

(** C4: on an index that a program builds, after any further calls of
    [Add] and [Index] that return, (1) every bucket of a band table is
    still in that band table, with its keys, and (2) every key that a
    query sends is sent by every run of the same query, which returns. *)
Theorem Index_additive (f f' : LshForest) :
  built gen f → rtc step f f' →
  (∀ i ht b, hashTables f !! i = Some ht → b ∈ ht →
     ∃ ht', hashTables f' !! i = Some ht' ∧ b ∈ ht') ∧
  (∀ sig K L key, sig_wf sig → is_int K →
     (∃ out, Query_rel f sig K L out ∧ key ∈ out) →
     (∃ out', Query_rel f' sig K L out') ∧
     (∀ out', Query_rel f' sig K L out' → key ∈ out')).
Proof.
  intros Hb Hsteps. split.
  - induction Hsteps as [f | f f1 f' Hstep Hsteps IH]; intros i ht b Hht Hin.
    + by exists ht.
    + destruct (bucket_step f f1 i ht b Hstep Hht Hin) as (ht1 & Hht1 & Hin1).
      apply (IH (built_step gen f f1 Hb Hstep) i ht1 b Hht1 Hin1).
  - intros sig K L key Hwf HK (out & Hout & Hkey).
    apply (Query_rel_elem_of _ _ _ _ _ _ Hout) in Hkey.
    assert (∃ streams s, Query_bands f' sig K L = Some streams ∧ s ∈ streams ∧ key ∈ s)
      as Hfound.
    { clear Hout. induction Hsteps as [f | f f1 f' Hstep Hsteps IH]; [done|].
      apply (IH (built_step gen f f1 Hb Hstep)).
      by apply (found_step f f1). }
    split.
    + destruct Hfound as (streams & _ & Hstreams & _).
      exists (dedup ∅ (concat streams)). apply Query_Query_rel.
      unfold Query. by rewrite Hstreams.
    + intros out' Hout'. by apply (Query_rel_elem_of _ _ _ _ _ _ Hout').
Qed.

End Retention.

Lemma Index_additive_witness :
  built encodeValues forest2 ∧ rtc step forest2 forest4 ∧
  (∃ ht', hashTables forest4 !! 0%nat = Some ht' ∧
          {| hashKey := encodeValues 4 [1; 1; 1; 1]; keys := ["A"] |} ∈ ht') ∧
  (∃ out', Query_rel forest4 sigA 4 4 out') ∧
  (∀ out', Query_rel forest4 sigA 4 4 out' → "A" ∈ out').
Proof.
  assert (rtc step forest2 forest4) as Hsteps.
  { apply (rtc_l _ _ forest3); [exact (step_Add _ _ _ _ sigA_wf forest3_Add)|].
    apply rtc_once. exact (step_Index _ _ (Index_Index_rel _ _ forest4_Index)). }
  destruct (Index_additive encodeValues encodeValues_spec forest2 forest4
              forest2_built Hsteps) as [Hbuckets Hqueries].
  split; [exact forest2_built|]. split; [exact Hsteps|]. split.
  - apply (Hbuckets 0%nat [{| hashKey := encodeValues 4 [1; 1; 1; 1]; keys := ["A"] |}]).
    + vm_compute. reflexivity.
    + left.
  - apply (Hqueries sigA 4 4 "A" sigA_wf).
    + unfold is_int, min_int, max_int. lia.
    + exists ["A"]. split; [|left].
      apply Query_Query_rel. vm_compute. reflexivity.
Defined.

(** ** Shorter prefixes match more buckets *)

Section Monotone.

Variable gen : Z → list Z → string.
Hypothesis gen_ok : hashKeyFuncGen_spec gen.

(** The key of a shorter window is a prefix of the key of a longer window
    of the same band. *)
Lemma queryKey_prefix (f : LshForest) (sig : Signature) (K1 K2 i : Z) (hk1 hk2 : string) :
  forest_enc gen f → sig_wf sig → 0 <= K1 → K1 <= K2 → is_int K2 →
  queryKey f sig K1 i = Some hk1 → queryKey f sig K2 i = Some hk2 →
  hk1 = String.substring 0 (Z.to_nat (hashValueSize f * K1)) hk2.
Proof.
  intros Henc Hwf HK1 HK12 HK2 Hq1 Hq2.
  pose proof (enc_hashValueSize gen f Henc) as Hw.
  assert (is_int K1) as HK1int by (unfold is_int, min_int in *; lia).
  destruct (queryKey_inv f sig K1 i hk1 Hwf HK1int Hq1) as (_ & _ & _ & ->).
  destruct (queryKey_inv f sig K2 i hk2 Hwf HK2 Hq2) as (_ & _ & _ & ->).
  rewrite (enc_hashKeyFunc gen f Henc).
  replace (take (Z.to_nat K1) (drop (Z.to_nat (imul i (k f))) sig))
    with (take (Z.to_nat K1) (take (Z.to_nat K2) (drop (Z.to_nat (imul i (k f))) sig))).
  - rewrite (gen_prefix gen gen_ok) by lia. f_equal. lia.
  - rewrite take_take. f_equal. lia.
Qed.

(** C2: on an index that a program builds, for [L] from 1 to [f.l] and
    [1 <= K1 <= K2 <= f.k]: when a run of [Query(sig, K2, L)] returns,
    [Query(sig, K1, L)] returns too, and every run of it sends every key
    that the run with [K2] sends; and [Query(sig, K2, L)] returns on a
    signature with the [k * l] values of the bands. *)
Theorem Query_prefix_monotone (f : LshForest) (sig : Signature) (K1 K2 L : Z) :
  built gen f → sig_wf sig → 1 <= L <= l f → 1 <= K1 → K1 <= K2 → K2 <= k f →
  (k f * l f <= Z.of_nat (length sig) → ∃ out2, Query_rel f sig K2 L out2) ∧
  (∀ out2, Query_rel f sig K2 L out2 →
     (∃ out1, Query_rel f sig K1 L out1) ∧
     (∀ out1, Query_rel f sig K1 L out1 → ∀ key, key ∈ out2 → key ∈ out1)).
Proof.
  intros Hb Hwf HL HK1 HK12 HK2.
  pose proof (built_inv gen f Hb) as Hinv.
  pose proof (built_enc gen gen_ok f Hb) as Henc.
  pose proof (inv_k f Hinv) as Hk. pose proof (inv_l f Hinv) as Hl.
  assert (is_int K2) as HK2int by (unfold is_int, min_int in *; lia).
  assert (∀ K, 1 <= K → Query_bands f sig K L = searchBands f sig K L) as HQ.
  { intros K HK. unfold Query_bands.
    destruct (K =? -1) eqn:E1; destruct (L =? -1) eqn:E2; try done; lia. }
  split.
  { intros Hlen.
    assert (is_Some (searchBands f sig K2 L)) as [streams Hstreams].
    { apply (searchBands_built_is_Some gen); [done | done | lia | lia |].
      intros i Hi. unfold sig_wf in Hwf.
      assert (Z.of_nat i * k f + k f <= k f * l f) by nia.
      assert (imul (Z.of_nat i) (k f) = Z.of_nat i * k f) as Himul
        by (apply (imul_small _ _ (Z.of_nat (length sig))); unfold max_int in *; lia).
      rewrite queryKey_Some; rewrite ?Himul; [done | done | lia | lia | lia]. }
    exists (dedup ∅ (concat streams)). apply Query_Query_rel.
    unfold Query. by rewrite HQ, Hstreams by lia. }
  intros out2 Hout2.
  pose proof Hout2 as (streams2 & _ & Hstreams2 & _).
  rewrite HQ in Hstreams2 by lia.
  destruct (searchBands_Some_inv _ _ _ _ _ Hstreams2) as (_ & _ & Hkeys2).
  assert (∀ i, (i < Z.to_nat L)%nat → is_Some (queryKey f sig K1 (Z.of_nat i))) as Hkeys1.
  { intros i Hi. destruct (Hkeys2 i Hi) as [hk2 Hq2].
    destruct (queryKey_inv f sig K2 _ hk2 Hwf HK2int Hq2) as (Hlo & _ & Hhi & _).
    rewrite queryKey_Some; [done | done | done | lia | lia]. }
  assert (is_Some (searchBands f sig K1 L)) as [streams1 Hstreams1].
  { apply (searchBands_built_is_Some gen); [done | done | lia | lia | done]. }
  split.
  { exists (dedup ∅ (concat streams1)). apply Query_Query_rel.
    unfold Query. by rewrite HQ, Hstreams1 by lia. }
  intros out1 Hout1 key Hkey.
  apply (Query_rel_elem_of _ _ _ _ _ _ Hout1).
  apply (Query_rel_elem_of _ _ _ _ _ _ Hout2) in Hkey as (streams & s2 & Hstreams & Hs2 & Hkey).
  rewrite HQ in Hstreams by lia.
  assert (streams = streams2) as -> by congruence.
  apply list_elem_of_lookup in Hs2 as [i Hi2].
  destruct (searchBands_length _ _ _ _ _ Hstreams2) as [_ Hlen2].
  destruct (searchBands_length _ _ _ _ _ Hstreams1) as [_ Hlen1].
  destruct (lookup_lt_is_Some_2 streams1 i) as [s1 Hi1].
  { apply lookup_lt_Some in Hi2. lia. }
  exists streams1, s1. split; [by rewrite HQ by lia|].
  split; [by eapply list_elem_of_lookup_2|].
  destruct (searchBands_lookup _ _ _ _ _ _ _ Hstreams2 Hi2) as (hk2 & ht & Hq2 & Hht & Hband2).
  destruct (searchBands_lookup _ _ _ _ _ _ _ Hstreams1 Hi1) as (hk1 & ht' & Hq1 & Hht' & Hband1).
  assert (ht' = ht) as -> by congruence.
  assert (ht ∈ hashTables f) as Hhtin by (by eapply list_elem_of_lookup_2).
  destruct (bandSearch_sound _ _ _ _ _ Hband2 Hkey) as (b & Hbin & Hkeyb & Hpre2).
  destruct (bandSearch_built gen f K1 ht hk1 Hinv Henc) as (r & Hr & Hall); [lia | done |].
  assert (r = s1) as -> by congruence.
  apply (Hall b key Hbin); [|done].
  destruct (prefixSize_ok gen f K1 ht b Henc) as (_ & _ & ->); [lia | done | done |].
  destruct (prefixSize_ok gen f K2 ht b Henc) as (_ & _ & Hpre2'); [lia | done | done |].
  rewrite Hpre2' in Hpre2. injection Hpre2 as Hhk2.
  rewrite (queryKey_prefix f sig K1 K2 (Z.of_nat i) hk1 hk2); try done; [|lia].
  rewrite <- Hhk2, substring_substring; [done|].
  pose proof (enc_hashValueSize gen f Henc). nia.
Qed.

End Monotone.

Lemma Query_prefix_monotone_witness :
  built encodeValues forest4 ∧ sig_wf sigA ∧
  (∃ out2, Query_rel forest4 sigA 3 4 out2) ∧
  (∃ out1, Query_rel forest4 sigA 2 4 out1) ∧
  (∀ out1, Query_rel forest4 sigA 2 4 out1 → ∀ key, key ∈ ["A"; "B"] → key ∈ out1).
Proof.
  destruct (Query_prefix_monotone encodeValues encodeValues_spec forest4 sigA 2 3 4
              forest4_built sigA_wf) as [Htotal Hincl].
  - vm_compute. split; discriminate.
  - lia.
  - lia.
  - vm_compute. discriminate.
  - assert (Query_rel forest4 sigA 3 4 ["A"; "B"]) as Hout2
      by (apply Query_Query_rel; vm_compute; reflexivity).
    split; [exact forest4_built|]. split; [exact sigA_wf|].
    split; [apply Htotal; vm_compute; discriminate|].
    exact (Hincl ["A"; "B"] Hout2).
Defined.

(** ** Queries that panic *)

Section OutOfRange.

Variable gen : Z → list Z → string.
Hypothesis gen_ok : hashKeyFuncGen_spec gen.

(** With more than [f.k] values the prefix is longer than the hash keys:
    the first probe of the binary search panics. *)
Lemma bandSearch_panics (f : LshForest) (sig : Signature) (K i : Z) (hk hk' : string)
    (ht : hashTable) :
  forest_enc gen f → sig_wf sig → is_int K → k f < K →
  queryKey f sig K i = Some hk → ht ∈ hashTables f → ht ≠ [] →
  bandSearch ht hk' (imul (hashValueSize f) K) = None.
Proof.
  intros Henc Hwf HK Hlt Hq Hht Hne.
  destruct (queryKey_inv f sig K i hk Hwf HK Hq) as (Hlo & HK0 & Hhi & _).
  pose proof (enc_hashValueSize gen f Henc) as Hw.
  unfold bandSearch. rewrite sort_Search_panics; [done | |].
  - destruct ht; [done | simpl; lia].
  - unfold atOrAfter.
    destruct (lookup_lt_is_Some_2 ht (length ht / 2)) as [b Hb].
    { destruct ht; [done|]. apply Nat.div_lt; simpl; lia. }
    rewrite Hb. simpl.
    destruct (enc_buckets gen f Henc ht b Hht) as [Hlen Hmax];
      [by eapply list_elem_of_lookup_2|].
    unfold sig_wf in Hwf.
    assert (imul (hashValueSize f) K = hashValueSize f * K) as ->.
    { unfold imul. apply wrap_id. unfold min_int, max_int in *. nia. }
    unfold strPrefix. case_decide as Hr; [nia | done].
Qed.

(** C7 (amended): on an index that a program builds, [Query] panics when
    [L] is more than [f.l] or less than [-1], when [K] is less than [-1]
    and a band is searched, and when [K] is more than [f.k] and the table
    of a searched band has a bucket. *)
Theorem Query_out_of_range_panics (f : LshForest) (sig : Signature) (K L : Z) :
  built gen f → sig_wf sig → is_int K →
  l f < L ∨ L < -1 ∨
  (K < -1 ∧ 1 <= (if L =? -1 then l f else L)) ∨
  (k f < K ∧ ∃ i ht, (i < Z.to_nat (if (L =? -1)%Z then l f else L))%nat ∧
                     hashTables f !! i = Some ht ∧ ht ≠ []) →
  Query_bands f sig K L = None ∧ Query f sig K L = None ∧
  ∀ out, ¬ Query_rel f sig K L out.
Proof.
  intros Hb Hwf HK Hcases.
  pose proof (built_inv gen f Hb) as Hinv.
  pose proof (built_enc gen gen_ok f Hb) as Henc.
  pose proof (inv_k f Hinv) as Hk. pose proof (inv_l f Hinv) as Hl.
  assert (Query_bands f sig K L = None) as Hnone.
  { destruct (Query_bands f sig K L) as [streams|] eqn:Hstreams; [exfalso|done].
    unfold Query_bands in Hstreams.
    set (L' := if L =? -1 then l f else L) in *.
    destruct (searchBands_Some_inv _ _ _ _ _ Hstreams) as (HL & HLle & Hkeys).
    rewrite (inv_hashTables_length f Hinv) in HLle.
    destruct Hcases as [HL1 | [HL2 | [[HK1 HL3] | [HK2 (i & ht & Hi & Hht & Hne)]]]].
    - unfold L' in *. destruct (L =? -1) eqn:E; lia.
    - unfold L' in *. destruct (L =? -1) eqn:E; lia.
    - destruct (K =? -1) eqn:E; [lia|].
      destruct (Hkeys 0%nat) as [hk Hq]; [lia|].
      destruct (queryKey_inv f sig K _ hk Hwf HK Hq) as (_ & HK0 & _). lia.
    - destruct (K =? -1) eqn:E; [lia|].
      destruct (searchBands_length _ _ _ _ _ Hstreams) as [_ Hlen].
      destruct (lookup_lt_is_Some_2 streams i) as [s Hs]; [lia|].
      destruct (searchBands_lookup _ _ _ _ _ _ _ Hstreams Hs) as (hk & ht' & Hq & Hht' & Hband).
      assert (ht' = ht) as -> by congruence.
      rewrite (bandSearch_panics f sig K (Z.of_nat i) hk hk ht) in Hband; try done.
      by eapply list_elem_of_lookup_2. }
  split; [done|]. split.
  - unfold Query. by rewrite Hnone.
  - intros out (streams & _ & Hstreams & _). congruence.
Qed.

End OutOfRange.

Lemma Query_out_of_range_panics_witness :
  built encodeValues forest4 ∧ sig_wf sigA ∧ is_int 5 ∧
  Query_bands forest4 sigA 5 1 = None ∧ Query forest4 sigA 5 1 = None ∧
  ∀ out, ¬ Query_rel forest4 sigA 5 1 out.
Proof.
  assert (is_int 5) as H5 by (unfold is_int, min_int, max_int; lia).
  split; [exact forest4_built|]. split; [exact sigA_wf|]. split; [exact H5|].
  apply (Query_out_of_range_panics encodeValues encodeValues_spec forest4 sigA 5 1
           forest4_built sigA_wf H5).
  right. right. right. split; [vm_compute; reflexivity|].
  exists 0%nat, [{| hashKey := encodeValues 4 [1; 1; 1; 1]; keys := ["A"] |};
                 {| hashKey := encodeValues 4 [1; 1; 1; 1]; keys := ["B"] |}].
  split; [simpl; lia|]. split; [vm_compute; reflexivity | discriminate].
Defined.

(** C7 (as stated) fails: with [K = 0] the query does not panic and sends
    every key of the band; with [L = 0] it sends no key; with [K] more than
    [f.k] on an index whose band tables are empty it sends no key. *)
Lemma Query_out_of_range_returns :
  built encodeValues forest4 ∧ built encodeValues forest0 ∧
  k forest4 = 4 ∧ l forest4 = 4 ∧ k forest0 = 4 ∧ l forest0 = 4 ∧
  Query forest4 sigB 0 1 = Some ["A"; "B"] ∧
  Query_rel forest4 sigB 0 1 ["A"; "B"] ∧
  Query forest4 sigA 4 0 = Some [] ∧
  Query forest0 sigA 5 1 = Some [].
Proof.
  split; [exact forest4_built|]. split; [exact forest0_built|].
  split; [reflexivity|]. split; [reflexivity|].
  split; [reflexivity|]. split; [reflexivity|].
  assert (Query forest4 sigB 0 1 = Some ["A"; "B"]) as HQ by (vm_compute; reflexivity).
  split; [exact HQ|]. split; [exact (Query_Query_rel _ _ _ _ _ HQ)|].
  split; vm_compute; reflexivity.
Qed.

(** ** The order of [float64] *)

Ltac float_cases :=
  repeat match goal with
  | |- context [Z.compare ?a ?b] => destruct (Z.compare_spec a b); subst
  | |- context [PosDef.Pos.compare_cont Eq ?a ?b] =>
      change (PosDef.Pos.compare_cont Eq a b) with (Pos.compare a b);
      destruct (Pos.compare_spec a b); subst
  end.

Ltac float_order :=
  unfold SFltb, SFleb, SFcompare;
  repeat match goal with
  | x : spec_float |- _ => destruct x as [[]|[]| |[] ? ?]
  end;
  try discriminate; try reflexivity; simpl;
  float_cases; simpl; try discriminate; try reflexivity; try lia.

Lemma SFltb_leb_trans (a b c : spec_float) :
  SFltb a b = true → SFleb b c = true → SFltb a c = true.
Proof. float_order. Qed.

Lemma SFltb_leb (a b : spec_float) : SFltb a b = true → SFleb a b = true.
Proof. float_order. Qed.

Lemma SFltb_leb_refl (a b : spec_float) : SFltb a b = true → SFleb a a = true.
Proof. float_order. Qed.

Lemma SFltb_false_leb (a b : spec_float) :
  SFleb a a = true → SFleb b b = true → SFltb a b = false → SFleb b a = true.
Proof. float_order. Qed.

Lemma SFadd_comm (prec emax : Z) (a b : spec_float) :
  SFadd prec emax a b = SFadd prec emax b a.
Proof.
  destruct a as [[]|[]| |sa ma ea], b as [[]|[]| |sb mb eb]; try reflexivity.
  simpl. by rewrite (Z.min_comm ea eb), Z.add_comm.
Qed.

(** ** The loops of [OptimalKL] *)

Section Optimizer.

Variable probFalsePositive probFalseNegative : Z → Z → Z → Z → float64 → float64 → float64.
Variable x q : Z.
Variable t : float64.
Variable kmax lmax : Z.

Local Abbreviation err := (currErr probFalsePositive probFalseNegative x q t).
Local Abbreviation inv := (optInv probFalsePositive probFalseNegative x q t kmax).
Local Abbreviation body := (optStep probFalsePositive probFalseNegative x q t).
Local Abbreviation row := (optRow probFalsePositive probFalseNegative x q t kmax).

(** Each error that the loops compute is a number below [MaxFloat64]. *)
Hypothesis err_below : ∀ lv kv,
  1 <= lv <= lmax → 1 <= kv <= kmax → f64_gt MaxFloat64 (err lv kv) = true.

Lemma optStep_inv (lv j : Z) (s : optState) :
  1 <= lv <= lmax → 0 <= j < kmax →
  inv lv j s → inv lv (j + 1) (body lv (j + 1) s).
Proof.
  intros Hlv Hj Hinv. right.
  pose proof (err_below lv (j + 1) Hlv ltac:(lia)) as Hbelow.
  unfold f64_gt in Hbelow.
  pose proof (SFltb_leb_refl _ _ Hbelow) as Hrefl.
  unfold optStep. fold (err lv (j + 1)).
  destruct Hinv as [(-> & -> & ->) | (Hopt & Hfp & Hfn & Hmin & Hle & Hfirst)].
  - simpl. unfold f64_gt. rewrite Hbelow. simpl.
    unfold scannedBefore, scanLt, f64_le. simpl.
    split; [lia|]. split; [done|]. split; [done|]. split; [done|]. split.
    + intros [pl pk]; simpl. intros (? & ? & ?).
      assert (pl = 1) as -> by lia. assert (pk = 1) as -> by lia. done.
    + intros [pl pk]; simpl. lia.
  - assert (∀ p, scannedBefore kmax lv (j + 1) p →
              scannedBefore kmax lv j p ∨ p = (lv, j + 1)) as Hsplit.
    { intros [pl pk]. unfold scannedBefore. simpl. intros (? & ? & [?|[? ?]]).
      - left. lia.
      - destruct (decide (pk = j + 1)) as [->|?]; [right; by subst | left; lia]. }
    destruct (f64_gt (minError s) (err lv (j + 1))) eqn:Hgt; unfold f64_gt in Hgt; simpl.
    + split; [unfold scannedBefore; simpl; lia|].
      split; [done|]. split; [done|]. split; [done|]. split.
      * intros p Hp. unfold f64_le. destruct (Hsplit p Hp) as [Hold| ->]; [|done].
        apply SFltb_leb. eapply SFltb_leb_trans; [exact Hgt|]. by apply Hle.
      * intros p Hp Hlt. unfold f64_gt. destruct (Hsplit p Hp) as [Hold| ->].
        -- eapply SFltb_leb_trans; [exact Hgt|]. by apply Hle.
        -- unfold scanLt in Hlt. simpl in Hlt. lia.
    + split.
      { unfold scannedBefore in *. simpl in *. lia. }
      split; [done|]. split; [done|]. split; [done|]. split.
      * intros p Hp. destruct (Hsplit p Hp) as [Hold| ->]; [by apply Hle|].
        unfold f64_le. simpl. apply SFltb_false_leb; [done | | done].
        rewrite Hmin. specialize (Hle _ Hopt). simpl in Hle. by rewrite Hmin in Hle.
      * intros p Hp Hlt. destruct (Hsplit p Hp) as [Hold| ->]; [by apply Hfirst|].
        unfold scannedBefore, scanLt in *. simpl in *. lia.
Qed.

Lemma optRow_inv (lv : Z) (s : optState) :
  1 <= lv <= lmax → 0 <= kmax → inv lv 0 s → inv lv kmax (row s lv).
Proof.
  intros Hlv Hk Hinv. unfold optRow.
  assert (∀ n : nat, Z.of_nat n <= kmax →
            inv lv (Z.of_nat n) (foldl (λ s kv, body lv kv s) s (seqZ 1 (Z.of_nat n)))) as Hn.
  { induction n as [|n IH]; intros Hle; [done|].
    rewrite seqZ_S, foldl_app. simpl.
    replace (Z.of_nat (S n)) with (Z.of_nat n + 1) by lia.
    replace (1 + Z.of_nat n) with (Z.of_nat n + 1) by lia.
    apply optStep_inv; [done | lia | apply IH; lia]. }
  specialize (Hn (Z.to_nat kmax)). rewrite Z2Nat.id in Hn by lia. apply Hn. lia.
Qed.

Lemma optInv_next_row (lv : Z) (s : optState) :
  1 <= lv → 1 <= kmax → inv lv kmax s → inv (lv + 1) 0 s.
Proof.
  intros Hlv Hk [(? & ? & ?) | (Hopt & Hfp & Hfn & Hmin & Hle & Hfirst)]; [lia|].
  assert (∀ p, scannedBefore kmax (lv + 1) 0 p → scannedBefore kmax lv kmax p) as Hsame.
  { intros [pl pk]. unfold scannedBefore. simpl. lia. }
  right. split.
  { unfold scannedBefore in *. simpl in *. lia. }
  split; [done|]. split; [done|]. split; [done|]. split.
  - intros p Hp. by apply Hle, Hsame.
  - intros p Hp Hlt. by apply Hfirst; [apply Hsame|].
Qed.

Lemma optLoop_inv :
  1 <= kmax → 0 <= lmax →
  inv (lmax + 1) 0 (foldl row optInit (seqZ 1 lmax)).
Proof.
  intros Hk Hl.
  assert (∀ n : nat, Z.of_nat n <= lmax →
            inv (Z.of_nat n + 1) 0 (foldl row optInit (seqZ 1 (Z.of_nat n)))) as Hn.
  { induction n as [|n IH]; intros Hle; [by left|].
    rewrite seqZ_S, foldl_app. simpl.
    replace (Z.of_nat (S n) + 1) with (Z.of_nat n + 1 + 1) by lia.
    replace (1 + Z.of_nat n) with (Z.of_nat n + 1) by lia.
    apply optInv_next_row; [lia | done |].
    apply optRow_inv; [lia | lia | apply IH; lia]. }
  specialize (Hn (Z.to_nat lmax)). rewrite Z2Nat.id in Hn by lia. apply Hn. lia.
Qed.

End Optimizer.

(** C8: when [f.k >= 1] and [f.l >= 1] (and below [MaxInt64], so that the
    counters of the loops do not wrap around) and each error sum that the
    loops compute is a number below [math.MaxFloat64] (the two probabilities
    are in [0, 1]), [OptimalKL] returns [optK] in [1, f.k] and [optL] in
    [1, f.l] with the probabilities [fp] and [fn] of that pair, [fp + fn] is
    at most the sum of every pair of the grid, and the sum of every pair
    scanned earlier (smaller [l], or the same [l] and smaller [k]) is
    greater: the first pair in scan order with the least sum wins. *)
Theorem OptimalKL_optimal
    (probFalsePositive probFalseNegative : Z → Z → Z → Z → float64 → float64 → float64)
    (f : LshForest) (x q : Z) (t : float64) (oK oL : Z) (ofp ofn : float64) :
  1 <= k f < max_int → 1 <= l f < max_int →
  (∀ lv kv, 1 <= lv <= l f → 1 <= kv <= k f →
     f64_gt MaxFloat64
       (f64_add (probFalsePositive x q lv kv t integrationPrecision)
                (probFalseNegative x q lv kv t integrationPrecision)) = true) →
  OptimalKL probFalsePositive probFalseNegative f x q t = (oK, oL, ofp, ofn) →
  1 <= oK <= k f ∧ 1 <= oL <= l f ∧
  ofp = probFalsePositive x q oL oK t integrationPrecision ∧
  ofn = probFalseNegative x q oL oK t integrationPrecision ∧
  (∀ lv kv, 1 <= lv <= l f → 1 <= kv <= k f →
     f64_le (f64_add ofp ofn)
       (f64_add (probFalsePositive x q lv kv t integrationPrecision)
                (probFalseNegative x q lv kv t integrationPrecision)) = true) ∧
  (∀ lv kv, 1 <= lv <= l f → 1 <= kv <= k f →
     lv < oL ∨ (lv = oL ∧ kv < oK) →
     f64_gt (f64_add (probFalsePositive x q lv kv t integrationPrecision)
                     (probFalseNegative x q lv kv t integrationPrecision))
            (f64_add ofp ofn) = true).
Proof.
  intros Hk Hl Hbelow. unfold OptimalKL. intros [= <- <- <- <-].
  destruct (optLoop_inv probFalsePositive probFalseNegative x q t (k f) (l f))
    as [(? & _) | (Hopt & Hfp & Hfn & Hmin & Hle & Hfirst)]; [| lia | lia | lia |].
  { intros lv kv Hlv Hkv. unfold currErr, f64_add. rewrite SFadd_comm.
    by apply Hbelow. }
  fold (OptimalKL_loop probFalsePositive probFalseNegative f x q t) in *.
  set (s := OptimalKL_loop probFalsePositive probFalseNegative f x q t) in *.
  assert (f64_add (fp s) (fn s) = minError s) as Hsum.
  { rewrite Hmin, Hfp, Hfn. unfold currErr, f64_add. apply SFadd_comm. }
  unfold scannedBefore in Hopt. simpl in Hopt.
  split; [lia|]. split; [lia|]. split; [done|]. split; [done|].
  rewrite Hsum. split.
  - intros lv kv Hlv Hkv. unfold f64_add at 1. rewrite SFadd_comm.
    apply (Hle (lv, kv)). unfold scannedBefore. simpl. lia.
  - intros lv kv Hlv Hkv Hlt. unfold f64_add at 1. rewrite SFadd_comm.
    apply (Hfirst (lv, kv)); [unfold scannedBefore; simpl; lia | done].
Qed.

Lemma OptimalKL_optimal_witness :
  OptimalKL exampleFalsePositive exampleFalseNegative forest4 10 5 f64_half
  = (2, 1, f64_quarter, f64_quarter) ∧
  1 <= 2 <= k forest4 ∧ 1 <= 1 <= l forest4 ∧
  f64_quarter = exampleFalsePositive 10 5 1 2 f64_half integrationPrecision ∧
  f64_quarter = exampleFalseNegative 10 5 1 2 f64_half integrationPrecision ∧
  (∀ lv kv, 1 <= lv <= l forest4 → 1 <= kv <= k forest4 →
     f64_le (f64_add f64_quarter f64_quarter)
       (f64_add (exampleFalsePositive 10 5 lv kv f64_half integrationPrecision)
                (exampleFalseNegative 10 5 lv kv f64_half integrationPrecision)) = true) ∧
  (∀ lv kv, 1 <= lv <= l forest4 → 1 <= kv <= k forest4 →
     lv < 1 ∨ (lv = 1 ∧ kv < 2) →
     f64_gt (f64_add (exampleFalsePositive 10 5 lv kv f64_half integrationPrecision)
                     (exampleFalseNegative 10 5 lv kv f64_half integrationPrecision))
            (f64_add f64_quarter f64_quarter) = true).
Proof.
  assert (OptimalKL exampleFalsePositive exampleFalseNegative forest4 10 5 f64_half
          = (2, 1, f64_quarter, f64_quarter)) as Hrun by (vm_compute; reflexivity).
  split; [exact Hrun|].
  apply (OptimalKL_optimal exampleFalsePositive exampleFalseNegative forest4 10 5 f64_half
           2 1 f64_quarter f64_quarter).
  - vm_compute. split; [discriminate | reflexivity].
  - vm_compute. split; [discriminate | reflexivity].
  - intros lv kv _ _. unfold exampleFalsePositive, exampleFalseNegative.
    destruct (kv =? 1); vm_compute; reflexivity.
  - exact Hrun.
Defined.

(** * More properties of the code *)

(** ** The second scenario *)

Lemma forest5_Add : Add forest4 "C" sigC = Some forest5.
Proof. vm_compute. reflexivity. Qed.

Lemma forest6_Index : Index forest5 = Some forest6.
Proof. vm_compute. reflexivity. Qed.

Lemma sigC_wf : sig_wf sigC.
Proof. unfold sig_wf, max_int. simpl. lia. Qed.

Lemma sigQ_wf : sig_wf sigQ.
Proof. unfold sig_wf, max_int. simpl. lia. Qed.

Lemma forest0_built_with : built_with encodeValues forest0 [] [].
Proof.
  apply (built_with_new encodeValues 4 4 4); unfold is_int, min_int, max_int;
    [lia | lia | lia | exact forest0_new].
Qed.

Lemma forest1_built_with : built_with encodeValues forest1 [] [("A", sigA)].
Proof. exact (built_with_Add _ _ _ _ _ _ _ forest0_built_with sigA_wf forest1_Add). Qed.

Lemma forest2_built_with : built_with encodeValues forest2 [("A", sigA)] [].
Proof.
  exact (built_with_Index _ _ _ _ _ forest1_built_with (Index_Index_rel _ _ forest2_Index)).
Qed.

Lemma forest3_built_with : built_with encodeValues forest3 [("A", sigA)] [("B", sigA)].
Proof. exact (built_with_Add _ _ _ _ _ _ _ forest2_built_with sigA_wf forest3_Add). Qed.

Lemma forest4_built_with : built_with encodeValues forest4 [("A", sigA); ("B", sigA)] [].
Proof.
  exact (built_with_Index _ _ _ _ _ forest3_built_with (Index_Index_rel _ _ forest4_Index)).
Qed.

Lemma forest5_built_with :
  built_with encodeValues forest5 [("A", sigA); ("B", sigA)] [("C", sigC)].
Proof. exact (built_with_Add _ _ _ _ _ _ _ forest4_built_with sigC_wf forest5_Add). Qed.

Lemma forest6_built_with :
  built_with encodeValues forest6 [("A", sigA); ("B", sigA); ("C", sigC)] [].
Proof.
  exact (built_with_Index _ _ _ _ _ forest5_built_with (Index_Index_rel _ _ forest6_Index)).
Qed.

Lemma forest5_built : built encodeValues forest5.
Proof. exact (built_Add _ _ _ _ _ forest4_built sigC_wf forest5_Add). Qed.

Lemma forest6_built : built encodeValues forest6.
Proof. exact (built_Index _ _ _ forest5_built (Index_Index_rel _ _ forest6_Index)). Qed.

Lemma forest4_Index_twice : Index forest4 = Some forest4.
Proof. vm_compute. reflexivity. Qed.

Lemma forest4swapped_Index : Index_rel forest3 forest4swapped.
Proof.
  split; try reflexivity. unfold bandIndexed, sortOutcome.
  unfold forest3, forest4swapped, hashTables, initHashTables. cbn [fmap list_fmap zip_with].
  repeat (apply List.Forall2_cons;
            [split; [vm_compute; apply perm_swap
                    | repeat constructor; vm_compute; reflexivity]|]).
  apply List.Forall2_nil.
Qed.

Lemma is_int_4 : is_int 4.
Proof. unfold is_int, min_int, max_int. lia. Qed.

Lemma forest6_Query : Query_rel forest6 sigQ 4 4 ["A"; "B"; "C"].
Proof. apply Query_Query_rel. vm_compute. reflexivity. Qed.

(** The run in which the goroutine of the second band sends first. *)
Lemma forest6_Query_second : Query_rel forest6 sigQ 4 4 ["C"; "A"; "B"].
Proof.
  exists [["A"; "B"]; ["C"]; []; []], ["C"; "A"; "B"].
  split; [vm_compute; reflexivity|]. split; [|vm_compute; reflexivity].
  apply (interleave_cons _ 1%nat "C" [] ["A"; "B"]); [reflexivity|].
  exact (interleave_concat [["A"; "B"]; []; []; []]).
Qed.

(** ** [sort.Interface] *)

Lemma at_index_Some (h : hashTable) (i : Z) (b : bucket) :
  at_index h i = Some b ↔ 0 <= i < Len h ∧ h !! Z.to_nat i = Some b.
Proof.
  unfold at_index, Len. case_decide as Hi.
  - split.
    + intros Hb. split; [|done]. apply lookup_lt_Some in Hb. lia.
    + by intros [_ Hb].
  - split; [done | lia].
Qed.

Lemma at_index_None (h : hashTable) (i : Z) :
  at_index h i = None ↔ ¬ (0 <= i < Len h).
Proof.
  unfold at_index, Len. case_decide as Hi.
  - rewrite lookup_ge_None. lia.
  - split; [lia | done].
Qed.

(** Putting [a] where [b] was, with [b] in front, rearranges [a :: t]. *)
Lemma insert_head_Permutation {A : Type} (t : list A) (j : nat) (a b : A) :
  t !! j = Some b → b :: <[j := a]> t ≡ₚ a :: t.
Proof.
  revert j. induction t as [|x t IH]; intros [|j] Hj; simplify_eq/=.
  - apply perm_swap.
  - rewrite (perm_swap x b), (IH j Hj). apply perm_swap.
Qed.

Lemma insert_swap_Permutation {A : Type} (h : list A) (i j : nat) (a b : A) :
  h !! i = Some a → h !! j = Some b → <[j := a]> (<[i := b]> h) ≡ₚ h.
Proof.
  revert i j. induction h as [|x h IH]; intros [|i] [|j] Hi Hj; simplify_eq/=.
  - done.
  - by apply insert_head_Permutation.
  - by apply insert_head_Permutation.
  - f_equiv. by apply IH.
Qed.

(** X1: [Less] is a strict order on the hash keys of the buckets: no bucket
    is less than itself, [Less] is asymmetric and transitive, and two
    buckets neither of which is less than the other have the same hash
    key. *)
Theorem Less_strict_order (a b c : bucket) :
  Less a a = false ∧
  (Less a b = true → Less b a = false) ∧
  (Less a b = true → Less b c = true → Less a c = true) ∧
  (Less a b = false → Less b a = false → hashKey a = hashKey b).
Proof.
  assert (∀ x y, Less x y = false ↔ String.le (hashKey y) (hashKey x)) as Hle.
  { intros x y. apply (notAfter_le y x). }
  split; [by apply Hle|]. split; [|split].
  - intros [Hab _]%Less_lt. by apply Hle.
  - intros [Hab Hne]%Less_lt [Hbc _]%Less_lt. apply Less_lt. split.
    + by etrans.
    + intros Heq. rewrite <- Heq in Hbc. apply Hne. by apply (anti_symm String.le).
  - intros Hab%Hle Hba%Hle. by apply (anti_symm String.le).
Qed.

(** X2: [Swap(i, j)] panics exactly when [i] or [j] is out of range; when
    it returns, the table has the same length and the same buckets, the
    buckets at [i] and [j] have changed places, every other bucket is where
    it was, and a second [Swap(i, j)] gives the table back. *)
Theorem Swap_exchanges (h : hashTable) (i j : Z) :
  (Swap h i j = None ↔ ¬ (0 <= i < Len h ∧ 0 <= j < Len h)) ∧
  ∀ h', Swap h i j = Some h' →
    Len h' = Len h ∧ h' ≡ₚ h ∧
    at_index h' i = at_index h j ∧ at_index h' j = at_index h i ∧
    (∀ x, x ≠ i → x ≠ j → at_index h' x = at_index h x) ∧
    Swap h' i j = Some h.
Proof.
  split.
  - unfold Swap. destruct (at_index h i) as [a|] eqn:Ha; simpl.
    + destruct (at_index h j) as [b|] eqn:Hb; simpl.
      * apply at_index_Some in Ha as [? _]. apply at_index_Some in Hb as [? _].
        split; [done | tauto].
      * apply at_index_None in Hb. tauto.
    + apply at_index_None in Ha. tauto.
  - intros h'. unfold Swap.
    destruct (at_index h i) as [a|] eqn:Ha; simpl; [|done].
    destruct (at_index h j) as [b|] eqn:Hb; simpl; [|done].
    intros [= <-].
    apply at_index_Some in Ha as [Hi Ha]. apply at_index_Some in Hb as [Hj Hb].
    unfold Len in *.
    assert (∀ x, at_index (<[Z.to_nat j:=a]> (<[Z.to_nat i:=b]> h)) x
                 = if decide (x = j) then Some a
                   else if decide (x = i) then Some b else at_index h x) as Hat.
    { intros x. unfold at_index. case_decide as Hx.
      - destruct (decide (x = j)) as [->|Hxj].
        + apply list_lookup_insert_eq. rewrite length_insert. lia.
        + rewrite list_lookup_insert_ne by lia.
          destruct (decide (x = i)) as [->|Hxi].
          * apply list_lookup_insert_eq. lia.
          * by rewrite list_lookup_insert_ne by lia.
      - repeat case_decide; (done || lia). }
    split; [by rewrite !length_insert|].
    split; [by apply insert_swap_Permutation|].
    split; [|split; [|split]].
    + rewrite Hat. case_decide as Hij; [subst; congruence|].
      by rewrite decide_True.
    + by rewrite Hat, decide_True.
    + intros x Hxi Hxj. rewrite Hat. by rewrite !decide_False by done.
    + rewrite !Hat. rewrite decide_True by done.
      assert ((if decide (i = j) then Some a else if decide (i = i) then Some b else at_index h i)
              = Some b) as ->.
      { case_decide; [subst; congruence | by rewrite decide_True]. }
      simpl. f_equal. apply list_eq. intros x.
      destruct (decide (x = Z.to_nat j)) as [->|Hxj].
      * rewrite list_lookup_insert_eq; [done|]. rewrite !length_insert. lia.
      * rewrite list_lookup_insert_ne by done.
        destruct (decide (x = Z.to_nat i)) as [->|Hxi].
        -- rewrite list_lookup_insert_eq; [done|]. rewrite !length_insert. lia.
        -- by rewrite !list_lookup_insert_ne by done.
Qed.

(** ** The windows of a signature *)

(** The windows of [Add] that are in range lie one after the other: no
    product of the loop overflows. *)
Lemma addKey_nowrap (f : LshForest) (sig : Signature) (n : nat) :
  0 <= k f <= max_int → sig_wf sig → Z.of_nat n <= max_int →
  (∀ j, (j < n)%nat → is_Some (addKey f sig (Z.of_nat j))) →
  Z.of_nat n * k f <= Z.of_nat (length sig).
Proof.
  intros Hk Hwf. induction n as [|n IH]; intros Hn Hall; [lia|].
  assert (Z.of_nat n * k f <= Z.of_nat (length sig)) as Hlo.
  { apply IH; [lia|]. intros j Hj. apply Hall. lia. }
  destruct (Hall n) as [hk Hhk]; [lia|]. unfold addKey in Hhk.
  destruct (slice _ _ _) as [hs|] eqn:Hslice; [|done].
  destruct (addKey_window sig (k f) (Z.of_nat n) hs Hk Hwf Hslice) as [Hlen _].
  apply slice_inv in Hslice as (_ & _ & Hhi & _ & Hlen').
  unfold sig_wf in Hwf.
  rewrite (imul_small (Z.of_nat n) (k f) (Z.of_nat (length sig))) in Hlen' by lia.
  lia.
Qed.

(** A window of [Add] in a signature with the values of the bands. *)
Lemma addKey_Some (f : LshForest) (sig : Signature) (i : Z) :
  0 <= k f → sig_wf sig → 0 <= i < max_int →
  (i + 1) * k f <= Z.of_nat (length sig) →
  addKey f sig i = Some (hashKeyFunc f (window f sig i (k f))).
Proof.
  unfold sig_wf. intros Hk Hwf Hi Hlen. unfold addKey, window.
  rewrite (iadd_small i 1) by lia.
  rewrite (imul_small i (k f) (Z.of_nat (length sig))) by (unfold max_int in *; nia).
  rewrite (imul_small (i + 1) (k f) (Z.of_nat (length sig))) by (unfold max_int in *; nia).
  rewrite slice_Some by nia. simpl. do 3 f_equal. lia.
Qed.

(** The windows of [Query] that are in range lie at [i * f.k]. *)
Lemma queryKey_nowrap (f : LshForest) (sig : Signature) (K : Z) (n : nat) :
  0 <= k f <= max_int → sig_wf sig → is_int K →
  (∀ j, (j ≤ n)%nat → is_Some (queryKey f sig K (Z.of_nat j))) →
  0 <= K ∧ Z.of_nat n * k f + K <= Z.of_nat (length sig).
Proof.
  intros Hk Hwf HK. induction n as [|n IH]; intros Hall.
  - destruct (Hall 0%nat) as [hk Hhk]; [lia|].
    apply queryKey_inv in Hhk as (_ & HK0 & Hhi & _); [|done..].
    unfold imul in Hhi. simpl in Hhi. rewrite wrap_id in Hhi by (unfold min_int, max_int; lia).
    lia.
  - destruct IH as [HK0 Hlo]; [intros j Hj; apply Hall; lia|].
    split; [done|].
    destruct (Hall (S n)) as [hk Hhk]; [lia|].
    apply queryKey_inv in Hhk as (Hlo' & _ & Hhi & _); [|done..].
    unfold imul in *. destruct (wrap_cong (Z.of_nat (S n) * k f)) as [c Hc].
    rewrite Hc in *. unfold sig_wf, max_int in *.
    change (2 ^ 64) with 18446744073709551616 in *.
    change (2 ^ 63) with 9223372036854775808 in *. lia.
Qed.

Lemma queryKey_window (f : LshForest) (sig : Signature) (K i : Z) :
  0 <= k f → sig_wf sig → 0 <= i → 0 <= K → i * k f + K <= Z.of_nat (length sig) →
  queryKey f sig K i = Some (hashKeyFunc f (window f sig i K)).
Proof.
  unfold sig_wf. intros Hk Hwf Hi HK Hlen.
  assert (imul i (k f) = i * k f) as Himul.
  { apply (imul_small _ _ (Z.of_nat (length sig))); unfold max_int in *; lia. }
  rewrite queryKey_Some; rewrite ?Himul; try done; lia.
Qed.

(** The default of [K] is an [int]. *)
Lemma is_int_default (f : LshForest) (K : Z) :
  forest_inv f → is_int K → is_int (if K =? -1 then k f else K).
Proof.
  intros Hinv HK. pose proof (inv_k f Hinv). unfold is_int, min_int in *.
  destruct (K =? -1); lia.
Qed.

Section Bounds.

Variable gen : Z → list Z → string.
Hypothesis gen_ok : hashKeyFuncGen_spec gen.

(** X3: on an index that a program builds, [Add(key, sig)] panics exactly
    when the index has a band and the signature has fewer than [k * l]
    values. *)
Theorem Add_panics_iff (f : LshForest) (key : string) (sig : Signature) :
  built gen f → sig_wf sig →
  Add f key sig = None ↔ 1 <= l f ∧ Z.of_nat (length sig) < k f * l f.
Proof.
  intros Hb Hwf. pose proof (built_inv gen f Hb) as Hinv.
  pose proof (inv_k f Hinv) as Hk. pose proof (inv_l f Hinv) as Hl.
  split.
  - intros HNone.
    destruct (decide (k f * l f <= Z.of_nat (length sig))) as [Hle|Hlt].
    + destruct (Add_is_Some f key sig Hinv Hwf Hle) as [f' Hf']. congruence.
    + split; [|lia]. destruct (decide (1 <= l f)) as [|Hl0]; [done|].
      assert (l f = 0) as Hl0' by lia.
      destruct (Add_is_Some f key sig Hinv Hwf) as [f' Hf']; [rewrite Hl0'; lia | congruence].
  - intros [Hl1 Hlt]. destruct (Add f key sig) as [f'|] eqn:HAdd; [|done].
    apply Add_inv in HAdd as (Hs & HHs & _).
    pose proof (addKey_nowrap f sig (Z.to_nat (l f)) Hk Hwf) as Hno.
    rewrite Z2Nat.id in Hno by lia.
    assert (l f * k f <= Z.of_nat (length sig)); [|lia].
    apply Hno; [lia|]. intros j Hj.
    assert (is_Some (mapM (addKey f sig) (seqZ 0 (l f)))) as HSome by (by eexists).
    rewrite mapM_is_Some, Forall_lookup in HSome.
    apply (HSome j (Z.of_nat j)). apply lookup_seqZ. lia.
Qed.

(** X4: on an index that a program builds, [Query] with [K] in [0, f.k]
    and [L] in [0, f.l] (or [-1] for [f.k], [f.l]) panics exactly when it
    searches a band and the signature has fewer than [(L - 1) * f.k + K]
    values, the end of the window of the last band searched; otherwise a
    run returns. *)
Theorem Query_panics_iff (f : LshForest) (sig : Signature) (K L : Z) :
  let K' := if K =? -1 then k f else K in
  let L' := if L =? -1 then l f else L in
  built gen f → sig_wf sig → 0 <= K' <= k f → 0 <= L' <= l f →
  (Query f sig K L = None ↔
     1 <= L' ∧ Z.of_nat (length sig) < (L' - 1) * k f + K') ∧
  ((∃ out, Query_rel f sig K L out) ↔
     L' = 0 ∨ (L' - 1) * k f + K' <= Z.of_nat (length sig)).
Proof.
  intros K' L' Hb Hwf HK HL.
  pose proof (built_inv gen f Hb) as Hinv.
  pose proof (built_enc gen gen_ok f Hb) as Henc.
  pose proof (inv_k f Hinv) as Hk.
  assert (is_int K') as HKint by (unfold is_int, min_int; lia).
  assert (is_Some (Query_bands f sig K L) ↔
          L' = 0 ∨ (L' - 1) * k f + K' <= Z.of_nat (length sig)) as Hiff.
  { unfold Query_bands. fold K' L'. split.
    - intros [streams Hstreams].
      destruct (decide (L' = 0)) as [|HL0]; [by left | right].
      destruct (searchBands_Some_inv _ _ _ _ _ Hstreams) as (_ & _ & Hkeys).
      destruct (queryKey_nowrap f sig K' (Z.to_nat (L' - 1)) Hk Hwf HKint) as [_ Hlen].
      + intros j Hj. apply Hkeys. lia.
      + rewrite Z2Nat.id in Hlen by lia. done.
    - intros Hlen. apply (searchBands_built_is_Some gen); [done..|].
      intros i Hi. destruct Hlen as [->|Hlen]; [lia|].
      rewrite queryKey_window; [done | lia | done | lia | lia | nia]. }
  split.
  - unfold Query. destruct (Query_bands f sig K L) as [streams|] eqn:Hq; simpl.
    + split; [done|]. intros [HL1 Hlt].
      assert (is_Some (Some streams)) as HS by done.
      apply Hiff in HS. lia.
    + split; [|done]. intros _.
      destruct (decide (1 <= L' ∧ Z.of_nat (length sig) < (L' - 1) * k f + K'))
        as [|Hn]; [done|].
      assert (is_Some (@None (list (list string)))) as [? ?]; [|done].
      apply Hiff. lia.
  - rewrite <- Hiff. split.
    + intros (out & streams & stream & Hq & _). by eexists.
    + intros [streams Hq]. exists (dedup ∅ (concat streams)).
      apply Query_Query_rel. unfold Query. by rewrite Hq.
Qed.

End Bounds.

Lemma Add_panics_iff_witness :
  built encodeValues forest0 ∧ sig_wf [1; 2; 3] ∧
  (Add forest0 "A" [1; 2; 3] = None ↔
   1 <= l forest0 ∧ Z.of_nat (length [1; 2; 3]) < k forest0 * l forest0).
Proof.
  assert (sig_wf [1; 2; 3]) as Hwf by (unfold sig_wf, max_int; simpl; lia).
  split; [exact forest0_built|]. split; [exact Hwf|].
  exact (Add_panics_iff encodeValues forest0 "A" [1; 2; 3] forest0_built Hwf).
Defined.

Lemma Query_panics_iff_witness :
  built encodeValues forest4 ∧ sig_wf [1; 1; 1; 1; 2; 2; 2] ∧
  0 <= 4 <= k forest4 ∧ 0 <= 2 <= l forest4 ∧
  (Query forest4 [1; 1; 1; 1; 2; 2; 2] 4 2 = None ↔
     1 <= 2 ∧ Z.of_nat (length [1; 1; 1; 1; 2; 2; 2]) < (2 - 1) * k forest4 + 4) ∧
  ((∃ out, Query_rel forest4 [1; 1; 1; 1; 2; 2; 2] 4 2 out) ↔
     2 = 0 ∨ (2 - 1) * k forest4 + 4 <= Z.of_nat (length [1; 1; 1; 1; 2; 2; 2])).
Proof.
  assert (sig_wf [1; 1; 1; 1; 2; 2; 2]) as Hwf by (unfold sig_wf, max_int; simpl; lia).
  assert (0 <= 4 <= k forest4) as HK by (vm_compute; split; discriminate).
  assert (0 <= 2 <= l forest4) as HL by (vm_compute; split; discriminate).
  split; [exact forest4_built|]. split; [exact Hwf|]. split; [exact HK|]. split; [exact HL|].
  exact (Query_panics_iff encodeValues encodeValues_spec forest4 [1; 1; 1; 1; 2; 2; 2] 4 2
           forest4_built Hwf HK HL).
Defined.

(** ** The values of a signature that are read *)

Lemma slice_take (sig : Signature) (lo hi : Z) (n : nat) (hs : list Z) :
  slice sig lo hi = Some hs → hi <= Z.of_nat n → slice (take n sig) lo hi = Some hs.
Proof.
  intros Hslice Hn. apply slice_inv in Hslice as (Hlo & Hle & Hhi & -> & _).
  rewrite slice_Some by (rewrite ?length_take; lia). f_equal.
  rewrite !take_drop_commute, take_take. do 2 f_equal. lia.
Qed.

Lemma slice_take_None (sig : Signature) (lo hi : Z) (n : nat) :
  slice sig lo hi = None → slice (take n sig) lo hi = None.
Proof.
  unfold slice. rewrite length_take. intros Hslice.
  case_decide as Hsig; [done|]. case_decide as Htake; [lia | done].
Qed.

(** Two loops that stop at the first panic agree when their bodies agree as
    long as no earlier round has panicked. *)
Lemma mapM_seqZ_ext {A : Type} (f g : Z → option A) (n : nat) (m : Z) :
  (∀ i : nat, (i < n)%nat →
     (∀ j : nat, (j < i)%nat → is_Some (f (m + Z.of_nat j))) →
     g (m + Z.of_nat i) = f (m + Z.of_nat i)) →
  mapM g (seqZ m (Z.of_nat n)) = mapM f (seqZ m (Z.of_nat n)).
Proof.
  revert m. induction n as [|n IH]; intros m Hext; [done|].
  rewrite seqZ_cons by lia. simpl.
  pose proof (Hext 0%nat ltac:(lia) ltac:(lia)) as H0. rewrite Z.add_0_r in H0.
  rewrite H0. destruct (f m) as [y|] eqn:Hy; [|done]. simpl.
  replace (Z.pred (Z.of_nat (S n))) with (Z.of_nat n) by lia.
  rewrite (IH (Z.succ m)); [done|].
  intros i Hi Hprev.
  replace (Z.succ m + Z.of_nat i) with (m + Z.of_nat (S i)) by lia.
  apply Hext; [lia|]. intros [|j] Hj.
  - rewrite Z.add_0_r. by rewrite Hy.
  - replace (m + Z.of_nat (S j)) with (Z.succ m + Z.of_nat j) by lia.
    apply Hprev. lia.
Qed.

Lemma sig_wf_take (sig : Signature) (n : nat) : sig_wf sig → sig_wf (take n sig).
Proof. unfold sig_wf. rewrite length_take. lia. Qed.

Section Reads.

Variable gen : Z → list Z → string.

(** [Add] on the first [n] values of a signature, [n] at least [k * l]. *)
Lemma Add_take (f : LshForest) (key : string) (sig : Signature) (n : nat) :
  built gen f → sig_wf sig → k f * l f <= Z.of_nat n →
  Add f key (take n sig) = Add f key sig.
Proof.
  intros Hb Hwf Hn. pose proof (built_inv gen f Hb) as Hinv.
  pose proof (inv_k f Hinv) as Hk. pose proof (inv_l f Hinv) as Hl.
  assert (mapM (addKey f (take n sig)) (seqZ 0 (l f)) = mapM (addKey f sig) (seqZ 0 (l f)))
    as Heq; [|unfold Add; by rewrite Heq].
  rewrite <- (Z2Nat.id (l f)) by lia. apply mapM_seqZ_ext.
  intros i Hi Hprev. rewrite Z.add_0_l. unfold addKey.
  destruct (slice sig _ _) as [hs|] eqn:Hslice; [|by rewrite slice_take_None].
  rewrite (slice_take _ _ _ _ hs Hslice); [done|].
  assert (Z.of_nat (S i) * k f <= Z.of_nat (length sig)) as Hlen.
  { apply addKey_nowrap; [done | done | lia |]. intros j Hj.
    destruct (decide (j = i)) as [->|Hne].
    - unfold addKey. by rewrite Hslice.
    - specialize (Hprev j ltac:(lia)). by rewrite Z.add_0_l in Hprev. }
  unfold sig_wf in Hwf.
  rewrite (iadd_small (Z.of_nat i) 1) by lia.
  rewrite (imul_small _ _ (Z.of_nat (length sig))) by lia. nia.
Qed.

(** X5: [Add] reads the first [k * l] values of the signature only: with
    two signatures that have the same first [n] values, [n] at least
    [k * l], it gives the same index, or panics with both. *)
Theorem Add_reads_bands (f : LshForest) (key : string) (sig1 sig2 : Signature) (n : nat) :
  built gen f → sig_wf sig1 → sig_wf sig2 → k f * l f <= Z.of_nat n →
  take n sig1 = take n sig2 →
  Add f key sig1 = Add f key sig2.
Proof.
  intros Hb Hwf1 Hwf2 Hn Heq.
  rewrite <- (Add_take f key sig1 n), <- (Add_take f key sig2 n) by done.
  by rewrite Heq.
Qed.

(** [Query] on the first [n] values of a signature, [n] at least the end of
    the window of the last band searched. *)
Lemma Query_bands_take (f : LshForest) (sig : Signature) (K L : Z) (n : nat) :
  built gen f → sig_wf sig → is_int K →
  ((if L =? -1 then l f else L) - 1) * k f + (if K =? -1 then k f else K) <= Z.of_nat n →
  Query_bands f (take n sig) K L = Query_bands f sig K L.
Proof.
  intros Hb Hwf HK Hn. pose proof (built_inv gen f Hb) as Hinv.
  pose proof (inv_k f Hinv) as Hk.
  pose proof (is_int_default f K Hinv HK) as HK'.
  set (K' := if K =? -1 then k f else K) in *.
  set (L' := if L =? -1 then l f else L) in *.
  unfold Query_bands, searchBands. fold K' L'.
  destruct (L' <? 0) eqn:HL; [done|].
  assert (mapM (queryKey f (take n sig) K') (seqZ 0 L') = mapM (queryKey f sig K') (seqZ 0 L'))
    as ->; [|done].
  rewrite <- (Z2Nat.id L') by lia. apply mapM_seqZ_ext.
  intros i Hi Hprev. rewrite Z.add_0_l. unfold queryKey.
  destruct (slice sig _ _) as [hs|] eqn:Hslice; [|by rewrite slice_take_None].
  rewrite (slice_take _ _ _ _ hs Hslice); [done|].
  destruct (queryKey_nowrap f sig K' i Hk Hwf HK') as [HK0 Hlen].
  { intros j Hj. destruct (decide (j = i)) as [->|Hne].
    - unfold queryKey. by rewrite Hslice.
    - specialize (Hprev j ltac:(lia)). by rewrite Z.add_0_l in Hprev. }
  unfold sig_wf in Hwf.
  rewrite (imul_small _ _ (Z.of_nat (length sig))) by lia.
  rewrite iadd_small by nia. nia.
Qed.

(** X6: [Query] reads the signature up to the window of the last band that
    it searches only: with two signatures that have the same first [n]
    values, [n] at least [(L - 1) * f.k + K], its runs send the same
    sequences of keys, or it panics with both. *)
Theorem Query_reads_windows (f : LshForest) (sig1 sig2 : Signature) (K L : Z) (n : nat) :
  let K' := if K =? -1 then k f else K in
  let L' := if L =? -1 then l f else L in
  built gen f → sig_wf sig1 → sig_wf sig2 → is_int K →
  (L' - 1) * k f + K' <= Z.of_nat n →
  take n sig1 = take n sig2 →
  Query f sig1 K L = Query f sig2 K L ∧
  ∀ out, Query_rel f sig1 K L out ↔ Query_rel f sig2 K L out.
Proof.
  intros K' L' Hb Hwf1 Hwf2 HK Hn Heq.
  assert (Query_bands f sig1 K L = Query_bands f sig2 K L) as Hq.
  { rewrite <- (Query_bands_take f sig1 K L n), <- (Query_bands_take f sig2 K L n) by done.
    by rewrite Heq. }
  unfold Query, Query_rel. by rewrite Hq.
Qed.

End Reads.

Lemma Add_reads_bands_witness :
  built encodeValues forest0 ∧ sig_wf sigA ∧ sig_wf (sigA ++ [99]) ∧
  k forest0 * l forest0 <= Z.of_nat 16 ∧
  take 16 sigA = take 16 (sigA ++ [99]) ∧
  Add forest0 "A" sigA = Add forest0 "A" (sigA ++ [99]).
Proof.
  assert (sig_wf (sigA ++ [99])) as Hwf by (unfold sig_wf, max_int; simpl; lia).
  assert (k forest0 * l forest0 <= Z.of_nat 16) as Hn by (vm_compute; discriminate).
  assert (take 16 sigA = take 16 (sigA ++ [99])) as Heq by reflexivity.
  split; [exact forest0_built|]. split; [exact sigA_wf|]. split; [exact Hwf|].
  split; [exact Hn|]. split; [exact Heq|].
  exact (Add_reads_bands encodeValues forest0 "A" sigA (sigA ++ [99]) 16
           forest0_built sigA_wf Hwf Hn Heq).
Defined.

Lemma Query_reads_windows_witness :
  built encodeValues forest4 ∧ sig_wf sigA ∧ sig_wf [1; 1; 1; 1; 2; 2; 2; 2] ∧ is_int 4 ∧
  (2 - 1) * k forest4 + 4 <= Z.of_nat 8 ∧
  take 8 sigA = take 8 [1; 1; 1; 1; 2; 2; 2; 2] ∧
  Query forest4 sigA 4 2 = Query forest4 [1; 1; 1; 1; 2; 2; 2; 2] 4 2 ∧
  ∀ out, Query_rel forest4 sigA 4 2 out ↔
         Query_rel forest4 [1; 1; 1; 1; 2; 2; 2; 2] 4 2 out.
Proof.
  assert (sig_wf [1; 1; 1; 1; 2; 2; 2; 2]) as Hwf by (unfold sig_wf, max_int; simpl; lia).
  assert (is_int 4) as H4 by (unfold is_int, min_int, max_int; lia).
  assert ((2 - 1) * k forest4 + 4 <= Z.of_nat 8) as Hn by (vm_compute; discriminate).
  assert (take 8 sigA = take 8 [1; 1; 1; 1; 2; 2; 2; 2]) as Heq by reflexivity.
  split; [exact forest4_built|]. split; [exact sigA_wf|]. split; [exact Hwf|].
  split; [exact H4|]. split; [exact Hn|]. split; [exact Heq|].
  exact (Query_reads_windows encodeValues forest4 sigA [1; 1; 1; 1; 2; 2; 2; 2] 4 2 8
           forest4_built sigA_wf Hwf H4 Hn Heq).
Defined.

(** ** What [Query] finds *)

(** A query on an index without a bucket in the bands that it searches. *)
Lemma bandSearch_nil (hk : string) (prefixSize : Z) : bandSearch [] hk prefixSize = Some [].
Proof. unfold bandSearch. simpl. by rewrite sort_Search_0. Qed.

Lemma Query_rel_Permutation (f f' : LshForest) (sig sig' : Signature) (K K' L L' : Z)
    (out out' : list string) :
  Query_rel f sig K L out → Query_rel f' sig' K' L' out' →
  (∀ key, key ∈ out ↔ key ∈ out') → out ≡ₚ out'.
Proof.
  intros (streams & stream & _ & _ & ->) (streams' & stream' & _ & _ & ->) Hiff.
  apply NoDup_Permutation; [apply NoDup_dedup | apply NoDup_dedup | done].
Qed.

Lemma Query_rel_exists (f : LshForest) (sig : Signature) (K L : Z) :
  (∃ out, Query_rel f sig K L out) ↔ is_Some (Query_bands f sig K L).
Proof.
  split.
  - intros (out & streams & stream & Hq & _). by eexists.
  - intros [streams Hq]. exists (dedup ∅ (concat streams)).
    apply Query_Query_rel. unfold Query. by rewrite Hq.
Qed.

Section Finds.

Variable gen : Z → list Z → string.
Hypothesis gen_ok : hashKeyFuncGen_spec gen.

(** The keys in the streams of the goroutines are the keys of the buckets
    whose hash key starts with the hash key of the query in their band. *)
Lemma searchBands_elem_of (f : LshForest) (sig : Signature) (K L : Z)
    (streams : list (list string)) (key : string) :
  forest_inv f → forest_enc gen f → sig_wf sig → is_int K →
  searchBands f sig K L = Some streams →
  (∃ s, s ∈ streams ∧ key ∈ s) ↔
  (∃ (i : nat) ht b hk,
     (i < Z.to_nat L)%nat ∧ hashTables f !! i = Some ht ∧ b ∈ ht ∧ key ∈ keys b ∧
     queryKey f sig K (Z.of_nat i) = Some hk ∧
     strPrefix (hashKey b) (imul (hashValueSize f) K) = Some hk).
Proof.
  intros Hinv Henc Hwf HK Hstreams.
  destruct (searchBands_length _ _ _ _ _ Hstreams) as [HL Hlen].
  split.
  - intros (s & [i Hi]%list_elem_of_lookup & Hkey).
    destruct (searchBands_lookup _ _ _ _ _ _ _ Hstreams Hi) as (hk & ht & Hq & Hht & Hband).
    destruct (bandSearch_sound _ _ _ _ _ Hband Hkey) as (b & Hb & Hkeyb & Hpre).
    exists i, ht, b, hk. apply lookup_lt_Some in Hi. repeat split; (done || lia).
  - intros (i & ht & b & hk & Hi & Hht & Hb & Hkeyb & Hq & Hpre).
    destruct (lookup_lt_is_Some_2 streams i) as [s Hs]; [lia|].
    exists s. split; [by eapply list_elem_of_lookup_2|].
    destruct (searchBands_lookup _ _ _ _ _ _ _ Hstreams Hs) as (hk' & ht' & Hq' & Hht' & Hband).
    assert (hk' = hk) as -> by congruence. assert (ht' = ht) as -> by congruence.
    assert (ht ∈ hashTables f) as Hhtin by (by eapply list_elem_of_lookup_2).
    pose proof (found_K_le gen f sig K (Z.of_nat i) hk ht b Henc Hwf HK Hq Hhtin Hb Hpre)
      as HKle.
    destruct (bandSearch_built gen f K ht hk Hinv Henc HKle Hhtin) as (r & Hr & Hall).
    assert (r = s) as -> by congruence. by apply (Hall b key).
Qed.

(** X7: on an index that a program builds, a run of [Query] that returns
    sends exactly the keys of the buckets, in the bands that it searches,
    whose hash key starts with the hash key of the query in that band: the
    binary search and the scan miss no bucket of the run of equal
    prefixes. *)
Theorem Query_finds_exactly (f : LshForest) (sig : Signature) (K L : Z)
    (out : list string) (key : string) :
  let K' := if K =? -1 then k f else K in
  let L' := if L =? -1 then l f else L in
  built gen f → sig_wf sig → is_int K → Query_rel f sig K L out →
  key ∈ out ↔
  ∃ (i : nat) ht b hk,
    (i < Z.to_nat L')%nat ∧ hashTables f !! i = Some ht ∧ b ∈ ht ∧ key ∈ keys b ∧
    queryKey f sig K' (Z.of_nat i) = Some hk ∧
    strPrefix (hashKey b) (imul (hashValueSize f) K') = Some hk.
Proof.
  intros K' L' Hb Hwf HK Hout.
  pose proof (built_inv gen f Hb) as Hinv.
  pose proof (built_enc gen gen_ok f Hb) as Henc.
  rewrite (Query_rel_elem_of _ _ _ _ _ _ Hout).
  destruct Hout as (streams & _ & Hstreams & _).
  unfold Query_bands in *. fold K' L' in Hstreams |- *.
  rewrite <- (searchBands_elem_of f sig K' L' streams key Hinv Henc Hwf
                (is_int_default f K Hinv HK) Hstreams).
  split.
  - intros (streams' & s & Hs' & Hs & Hkey). exists s. split; [congruence | done].
  - intros (s & Hs & Hkey). by exists streams, s.
Qed.

(** Two indexes with the same parameters whose band tables hold the same
    buckets answer a query with the same keys. *)
Lemma searchBands_Permutation (f1 f2 : LshForest) (sig : Signature) (K L : Z)
    (streams1 : list (list string)) :
  forest_inv f1 → forest_enc gen f1 → forest_inv f2 → forest_enc gen f2 →
  k f2 = k f1 → l f2 = l f1 → hashValueSize f2 = hashValueSize f1 →
  hashKeyFunc f2 = hashKeyFunc f1 →
  (∀ i ht1, hashTables f1 !! i = Some ht1 →
     ∃ ht2, hashTables f2 !! i = Some ht2 ∧ ht1 ≡ₚ ht2) →
  sig_wf sig → is_int K →
  searchBands f1 sig K L = Some streams1 →
  ∃ streams2, searchBands f2 sig K L = Some streams2 ∧
    ∀ key, (∃ s, s ∈ streams1 ∧ key ∈ s) ↔ (∃ s, s ∈ streams2 ∧ key ∈ s).
Proof.
  intros Hinv1 Henc1 Hinv2 Henc2 Hk Hl Hw Hfn Hperm Hwf HK Hstreams.
  destruct (searchBands_Some_inv _ _ _ _ _ Hstreams) as (HL & HLle & Hkeys).
  assert (is_Some (searchBands f2 sig K L)) as [streams2 Hstreams2].
  { apply searchBands_is_Some; [done|]. intros i Hi.
    destruct (Hkeys i Hi) as [hk Hhk].
    destruct (lookup_lt_is_Some_2 (hashTables f1) i) as [ht1 Hht1]; [lia|].
    destruct (Hperm i ht1 Hht1) as (ht2 & Hht2 & Hp).
    exists hk, ht2. rewrite (queryKey_ext f1 f2) by done. split; [done|]. split; [done|].
    destruct (decide (ht1 = [])) as [->|Hne].
    { apply Permutation_nil_l in Hp as <-. rewrite bandSearch_nil. done. }
    destruct (decide (k f1 < K)) as [Hgt|Hle].
    - destruct (lookup_lt_is_Some_2 streams1 i) as [s Hs].
      { destruct (searchBands_length _ _ _ _ _ Hstreams). lia. }
      destruct (searchBands_lookup _ _ _ _ _ _ _ Hstreams Hs) as (hk' & ht' & Hq' & Hht' & Hband).
      assert (ht' = ht1) as -> by congruence.
      rewrite (bandSearch_panics gen f1 sig K (Z.of_nat i) hk hk' ht1) in Hband;
        [done | done | done | done | done | done | by eapply list_elem_of_lookup_2 | done].
    - destruct (queryKey_inv f1 sig K (Z.of_nat i) hk Hwf HK Hhk) as (_ & HK0 & _).
      destruct (bandSearch_built gen f2 K ht2 hk Hinv2 Henc2) as (r & Hr & _);
        [rewrite Hk; lia | by eapply list_elem_of_lookup_2 |].
      by eexists. }
  exists streams2. split; [done|]. intros key.
  rewrite (searchBands_elem_of f1 sig K L streams1 key) by done.
  rewrite (searchBands_elem_of f2 sig K L streams2 key) by done.
  split.
  - intros (i & ht1 & b & hk & Hi & Hht1 & Hb & Hkeyb & Hq & Hpre).
    destruct (Hperm i ht1 Hht1) as (ht2 & Hht2 & Hp).
    exists i, ht2, b, hk. rewrite (queryKey_ext f1 f2), Hw by done.
    split; [done|]. split; [done|]. split; [by rewrite <- Hp | done].
  - intros (i & ht2 & b & hk & Hi & Hht2 & Hb & Hkeyb & Hq & Hpre).
    destruct (lookup_lt_is_Some_2 (hashTables f1) i) as [ht1 Hht1]; [lia|].
    destruct (Hperm i ht1 Hht1) as (ht2' & Hht2' & Hp).
    assert (ht2' = ht2) as -> by congruence.
    exists i, ht1, b, hk. rewrite (queryKey_ext f1 f2), Hw in * by done.
    split; [done|]. split; [done|]. split; [by rewrite Hp | done].
Qed.

Lemma Query_Permutation (f1 f2 : LshForest) (sig : Signature) (K L : Z) (out1 : list string) :
  built gen f1 → built gen f2 →
  k f2 = k f1 → l f2 = l f1 → hashValueSize f2 = hashValueSize f1 →
  hashKeyFunc f2 = hashKeyFunc f1 →
  (∀ i ht1, hashTables f1 !! i = Some ht1 →
     ∃ ht2, hashTables f2 !! i = Some ht2 ∧ ht1 ≡ₚ ht2) →
  sig_wf sig → is_int K →
  Query_rel f1 sig K L out1 →
  (∃ out2, Query_rel f2 sig K L out2) ∧
  (∀ out2, Query_rel f2 sig K L out2 → out1 ≡ₚ out2).
Proof.
  intros Hb1 Hb2 Hk Hl Hw Hfn Hperm Hwf HK Hout1.
  pose proof (built_inv gen f1 Hb1) as Hinv1.
  pose proof (built_enc gen gen_ok f1 Hb1) as Henc1.
  pose proof (built_inv gen f2 Hb2) as Hinv2.
  pose proof (built_enc gen gen_ok f2 Hb2) as Henc2.
  assert (∃ streams1, Query_bands f1 sig K L = Some streams1) as [streams1 Hs1].
  { destruct Hout1 as (streams1 & _ & Hs1 & _). by eexists. }
  assert (∃ streams2, Query_bands f2 sig K L = Some streams2 ∧
            ∀ key, (∃ s, s ∈ streams1 ∧ key ∈ s) ↔ (∃ s, s ∈ streams2 ∧ key ∈ s))
    as (streams2 & Hs2 & Hiff).
  { unfold Query_bands in *. rewrite Hk, Hl.
    apply (searchBands_Permutation f1 f2); try done.
    by apply is_int_default. }
  split.
  - apply Query_rel_exists. by eexists.
  - intros out2 Hout2. apply (Query_rel_Permutation _ _ _ _ _ _ _ _ _ _ Hout1 Hout2).
    intros key.
    rewrite (Query_rel_elem_of _ _ _ _ _ _ Hout1), (Query_rel_elem_of _ _ _ _ _ _ Hout2).
    split.
    + intros (st & s & Hst & Hs & Hkey). assert (st = streams1) as -> by congruence.
      destruct (proj1 (Hiff key)) as (s2 & ? & ?); [by exists s|]. by exists streams2, s2.
    + intros (st & s & Hst & Hs & Hkey). assert (st = streams2) as -> by congruence.
      destruct (proj2 (Hiff key)) as (s1 & ? & ?); [by exists s|]. by exists streams1, s1.
Qed.

(** X8: the order in which [Index] ranges over the staging tables and in
    which [sort.Sort] leaves buckets of equal hash key is not observable:
    after any two outcomes of one call of [Index], a query that returns on
    one returns on the other, with the same keys up to their order. *)
Theorem Query_after_any_Index (f f1 f2 : LshForest) (sig : Signature) (K L : Z)
    (out1 : list string) :
  built gen f → Index_rel f f1 → Index_rel f f2 → sig_wf sig → is_int K →
  Query_rel f1 sig K L out1 →
  (∃ out2, Query_rel f2 sig K L out2) ∧
  (∀ out2, Query_rel f2 sig K L out2 → out1 ≡ₚ out2).
Proof.
  intros Hb HI1 HI2 Hwf HK Hout1.
  apply (Query_Permutation f1 f2); try done.
  - by eapply built_Index.
  - by eapply built_Index.
  - by rewrite (Index_k _ _ HI1), (Index_k _ _ HI2).
  - by rewrite (Index_l _ _ HI1), (Index_l _ _ HI2).
  - by rewrite (Index_hashValueSize _ _ HI1), (Index_hashValueSize _ _ HI2).
  - by rewrite (Index_hashKeyFunc _ _ HI1), (Index_hashKeyFunc _ _ HI2).
  - intros i ht1 Hht1.
    destruct (Index_rel_lookup _ _ _ _ HI1 Hht1) as (ht & m & Hht & Hm & [Hp1 _]).
    destruct (Index_rel_lookup_l _ _ _ _ HI2 Hht) as (ht2 & m' & Hht2 & Hm' & [Hp2 _]).
    assert (m' = m) as -> by congruence.
    exists ht2. split; [done|]. by rewrite Hp1, Hp2.
Qed.

(** X9: a second call of [Index] without a call of [Add] in between
    leaves the buckets of every band table (it may rearrange buckets of
    equal hash key), and every query returns the same keys as before, up to
    their order. *)
Theorem Index_again (f f1 f2 : LshForest) (sig : Signature) (K L : Z) (out1 : list string) :
  built gen f → Index_rel f f1 → Index_rel f1 f2 → sig_wf sig → is_int K →
  (∀ i ht1, hashTables f1 !! i = Some ht1 →
     ∃ ht2, hashTables f2 !! i = Some ht2 ∧ ht1 ≡ₚ ht2) ∧
  (Query_rel f1 sig K L out1 →
   (∃ out2, Query_rel f2 sig K L out2) ∧
   (∀ out2, Query_rel f2 sig K L out2 → out1 ≡ₚ out2)).
Proof.
  intros Hb HI1 HI2 Hwf HK.
  assert (built gen f1) as Hb1 by (by eapply built_Index).
  pose proof (built_inv gen f Hb) as Hinv.
  assert (∀ i ht1, hashTables f1 !! i = Some ht1 →
            ∃ ht2, hashTables f2 !! i = Some ht2 ∧ ht1 ≡ₚ ht2) as Hperm.
  { intros i ht1 Hht1.
    destruct (Index_rel_lookup_l _ _ _ _ HI2 Hht1) as (ht2 & m & Hht2 & Hm & [Hp2 _]).
    exists ht2. split; [done|].
    rewrite (Index_initHashTables _ _ HI1) in Hm.
    assert (i < length (hashTables f))%nat as Hi.
    { destruct (Index_rel_lookup _ _ _ _ HI1 Hht1) as (ht & _ & Hht & _).
      by apply lookup_lt_Some in Hht. }
    rewrite lookup_app_l in Hm by (by rewrite length_replicate).
    apply lookup_replicate in Hm as [-> _].
    rewrite Hp2. unfold staged. rewrite map_to_list_empty. simpl. by rewrite app_nil_r. }
  split; [done|]. intros Hout1.
  apply (Query_Permutation f1 f2); try done.
  - by eapply built_Index.
  - apply (Index_k _ _ HI2).
  - apply (Index_l _ _ HI2).
  - apply (Index_hashValueSize _ _ HI2).
  - apply (Index_hashKeyFunc _ _ HI2).
Qed.

End Finds.

Lemma Query_finds_exactly_witness :
  built encodeValues forest6 ∧ sig_wf sigQ ∧ is_int 4 ∧
  Query_rel forest6 sigQ 4 4 ["A"; "B"; "C"] ∧
  ("C" ∈ ["A"; "B"; "C"] ↔
   ∃ (i : nat) ht b hk,
     (i < Z.to_nat 4)%nat ∧ hashTables forest6 !! i = Some ht ∧ b ∈ ht ∧ "C" ∈ keys b ∧
     queryKey forest6 sigQ 4 (Z.of_nat i) = Some hk ∧
     strPrefix (hashKey b) (imul (hashValueSize forest6) 4) = Some hk).
Proof.
  split; [exact forest6_built|]. split; [exact sigQ_wf|]. split; [exact is_int_4|].
  split; [exact forest6_Query|].
  exact (Query_finds_exactly encodeValues encodeValues_spec forest6 sigQ 4 4
           ["A"; "B"; "C"] "C" forest6_built sigQ_wf is_int_4 forest6_Query).
Defined.

Lemma Query_after_any_Index_witness :
  built encodeValues forest3 ∧ Index_rel forest3 forest4 ∧
  Index_rel forest3 forest4swapped ∧ sig_wf sigA ∧ is_int 4 ∧
  Query_rel forest4 sigA 4 4 ["A"; "B"] ∧
  (∃ out2, Query_rel forest4swapped sigA 4 4 out2) ∧
  (∀ out2, Query_rel forest4swapped sigA 4 4 out2 → ["A"; "B"] ≡ₚ out2).
Proof.
  assert (Query_rel forest4 sigA 4 4 ["A"; "B"]) as Hout
    by (apply Query_Query_rel; vm_compute; reflexivity).
  pose proof (Index_Index_rel _ _ forest4_Index) as HI.
  split; [exact forest3_built|]. split; [exact HI|]. split; [exact forest4swapped_Index|].
  split; [exact sigA_wf|]. split; [exact is_int_4|]. split; [exact Hout|].
  exact (Query_after_any_Index encodeValues encodeValues_spec forest3 forest4 forest4swapped
           sigA 4 4 ["A"; "B"] forest3_built HI forest4swapped_Index sigA_wf is_int_4 Hout).
Defined.

Lemma Index_again_witness :
  built encodeValues forest3 ∧ Index_rel forest3 forest4 ∧ Index_rel forest4 forest4 ∧
  sig_wf sigA ∧ is_int 4 ∧
  (∀ i ht1, hashTables forest4 !! i = Some ht1 →
     ∃ ht2, hashTables forest4 !! i = Some ht2 ∧ ht1 ≡ₚ ht2) ∧
  (Query_rel forest4 sigA 4 4 ["A"; "B"] →
   (∃ out2, Query_rel forest4 sigA 4 4 out2) ∧
   (∀ out2, Query_rel forest4 sigA 4 4 out2 → ["A"; "B"] ≡ₚ out2)).
Proof.
  pose proof (Index_Index_rel _ _ forest4_Index) as HI.
  pose proof (Index_Index_rel _ _ forest4_Index_twice) as HI'.
  split; [exact forest3_built|]. split; [exact HI|]. split; [exact HI'|].
  split; [exact sigA_wf|]. split; [exact is_int_4|].
  exact (Index_again encodeValues encodeValues_spec forest3 forest4 forest4
           sigA 4 4 ["A"; "B"] forest3_built HI HI' sigA_wf is_int_4).
Defined.

(** X10: the scheduling of the goroutines of [Query] decides the order of
    the keys only: any two runs of one query send the same keys. *)
Theorem Query_order_only (f : LshForest) (sig : Signature) (K L : Z) (out1 out2 : list string) :
  Query_rel f sig K L out1 → Query_rel f sig K L out2 → out1 ≡ₚ out2.
Proof.
  intros Hout1 Hout2. apply (Query_rel_Permutation _ _ _ _ _ _ _ _ _ _ Hout1 Hout2).
  intros key.
  by rewrite (Query_rel_elem_of _ _ _ _ _ _ Hout1), (Query_rel_elem_of _ _ _ _ _ _ Hout2).
Qed.

Lemma Query_order_only_witness :
  Query_rel forest6 sigQ 4 4 ["A"; "B"; "C"] ∧
  Query_rel forest6 sigQ 4 4 ["C"; "A"; "B"] ∧
  ["A"; "B"; "C"] ≡ₚ ["C"; "A"; "B"].
Proof.
  split; [exact forest6_Query|]. split; [exact forest6_Query_second|].
  exact (Query_order_only forest6 sigQ 4 4 _ _ forest6_Query forest6_Query_second).
Defined.

(** X11: [Add] changes no band table: until [Index] is called, every query
    returns what it returned before the call, or panics as before. *)
Theorem Add_not_searchable (f f' : LshForest) (key : string) (sig : Signature) :
  Add f key sig = Some f' →
  hashTables f' = hashTables f ∧
  ∀ sig' K L,
    Query f' sig' K L = Query f sig' K L ∧
    ∀ out, Query_rel f' sig' K L out ↔ Query_rel f sig' K L out.
Proof.
  intros HAdd.
  apply Add_inv in HAdd as (Hs & _ & _ & Hk & Hl & Hw & Hfn & Hht & _).
  split; [done|]. intros sig' K L.
  pose proof (Query_bands_ext f f' sig' K L Hk Hl Hw Hfn Hht) as Heq.
  unfold Query, Query_rel. by rewrite Heq.
Qed.

Lemma Add_not_searchable_witness :
  Add forest2 "B" sigA = Some forest3 ∧
  hashTables forest3 = hashTables forest2 ∧
  ∀ sig' K L,
    Query forest3 sig' K L = Query forest2 sig' K L ∧
    ∀ out, Query_rel forest3 sig' K L out ↔ Query_rel forest2 sig' K L out.
Proof.
  split; [exact forest3_Add|].
  exact (Add_not_searchable forest2 forest3 "B" sigA forest3_Add).
Defined.

(** X12: a query over fewer bands finds fewer keys: when [Query] returns
    with [L2] bands, it returns with every [L1] from 0 to [L2], and sends
    no key that the run with [L2] does not send. *)
Theorem Query_fewer_bands (f : LshForest) (sig : Signature) (K L1 L2 : Z) (out2 : list string) :
  0 <= L1 → L1 <= (if L2 =? -1 then l f else L2) →
  Query_rel f sig K L2 out2 →
  (∃ out1, Query_rel f sig K L1 out1) ∧
  (∀ out1, Query_rel f sig K L1 out1 → ∀ key, key ∈ out1 → key ∈ out2).
Proof.
  intros HL1 HL12 Hout2.
  assert (∃ streams2, Query_bands f sig K L2 = Some streams2) as [streams2 Hs2].
  { destruct Hout2 as (streams2 & _ & Hs2 & _). by eexists. }
  unfold Query_bands in Hs2.
  set (K' := if K =? -1 then k f else K) in *.
  set (L2' := if L2 =? -1 then l f else L2) in *.
  destruct (searchBands_length _ _ _ _ _ Hs2) as [_ Hlen2].
  assert (Query_bands f sig K L1 = searchBands f sig K' L1) as HQ1.
  { unfold Query_bands. fold K'. destruct (L1 =? -1) eqn:E; [lia | done]. }
  split.
  - apply Query_rel_exists. rewrite HQ1.
    apply searchBands_is_Some; [done|]. intros i Hi.
    destruct (lookup_lt_is_Some_2 streams2 i) as [s Hs]; [lia|].
    destruct (searchBands_lookup _ _ _ _ _ _ _ Hs2 Hs) as (hk & ht & Hq & Hht & Hband).
    exists hk, ht. by rewrite Hband.
  - intros out1 Hout1 key.
    rewrite (Query_rel_elem_of _ _ _ _ _ _ Hout1), (Query_rel_elem_of _ _ _ _ _ _ Hout2).
    intros (streams1 & s & Hs1 & [i Hi]%list_elem_of_lookup & Hkey).
    rewrite HQ1 in Hs1.
    destruct (searchBands_length _ _ _ _ _ Hs1) as [_ Hlen1].
    destruct (searchBands_lookup _ _ _ _ _ _ _ Hs1 Hi) as (hk & ht & Hq & Hht & Hband).
    apply lookup_lt_Some in Hi.
    destruct (lookup_lt_is_Some_2 streams2 i) as [s2 Hs2i]; [lia|].
    destruct (searchBands_lookup _ _ _ _ _ _ _ Hs2 Hs2i) as (hk' & ht' & Hq' & Hht' & Hband').
    assert (s2 = s) as -> by congruence.
    exists streams2, s. split; [done|]. split; [by eapply list_elem_of_lookup_2 | done].
Qed.

Lemma Query_fewer_bands_witness :
  0 <= 1 ∧ 1 <= (if 4 =? -1 then l forest6 else 4) ∧
  Query_rel forest6 sigQ 4 4 ["A"; "B"; "C"] ∧
  (∃ out1, Query_rel forest6 sigQ 4 1 out1) ∧
  (∀ out1, Query_rel forest6 sigQ 4 1 out1 → ∀ key, key ∈ out1 → key ∈ ["A"; "B"; "C"]).
Proof.
  assert (0 <= 1) as H0 by lia.
  assert (1 <= (if 4 =? -1 then l forest6 else 4)) as H1 by (simpl; lia).
  split; [exact H0|]. split; [exact H1|]. split; [exact forest6_Query|].
  exact (Query_fewer_bands forest6 sigQ 4 1 4 ["A"; "B"; "C"] H0 H1 forest6_Query).
Defined.

(** ** The items of an index *)

Lemma built_with_built (gen : Z → list Z → string) (f : LshForest)
    (indexed pending : list item) :
  built_with gen f indexed pending → built gen f.
Proof.
  induction 1 as [kv lv hvs f Hk Hl Hw Hnew
                 | f f' key sig indexed pending _ IH Hwf HAdd
                 | f f' indexed pending _ IH HI].
  - exact (built_new gen kv lv hvs f Hk Hl Hw Hnew).
  - exact (built_Add gen f f' key sig IH Hwf HAdd).
  - exact (built_Index gen f f' IH HI).
Qed.

Lemma keysOf_ext (f f' : LshForest) (i : Z) (hk : string) (items : list item) :
  k f' = k f → hashKeyFunc f' = hashKeyFunc f →
  keysOf f' i hk items = keysOf f i hk items.
Proof. intros Hk Hfn. unfold keysOf, window. by rewrite Hk, Hfn. Qed.

Lemma keysOf_app (f : LshForest) (i : Z) (hk : string) (items items' : list item) :
  keysOf f i hk (items ++ items') = keysOf f i hk items ++ keysOf f i hk items'.
Proof. unfold keysOf. by rewrite filter_app, fmap_app. Qed.

Lemma keysOf_singleton (f : LshForest) (i : Z) (hk key : string) (sig : Signature) :
  keysOf f i hk [(key, sig)]
  = if decide (hashKeyFunc f (window f sig i (k f)) = hk) then [key] else [].
Proof.
  unfold keysOf. rewrite filter_cons, filter_nil. simpl. by case_decide.
Qed.

Lemma elem_of_keysOf (f : LshForest) (i : Z) (hk : string) (items : list item) (key : string) :
  key ∈ keysOf f i hk items ↔
  ∃ sig, (key, sig) ∈ items ∧ hashKeyFunc f (window f sig i (k f)) = hk.
Proof.
  unfold keysOf. rewrite list_elem_of_fmap. split.
  - intros ([key' sig] & -> & [Hhk Hin]%list_elem_of_filter). by exists sig.
  - intros (sig & Hin & Hhk). exists (key, sig). split; [done|].
    by apply list_elem_of_filter.
Qed.

(** What the goroutine of [Add] leaves in a staging table. *)
Lemma stage_lookup_eq (m : initHashTable) (hk key hk' : string) :
  stage m hk key !! hk'
  = if decide (hk' = hk) then Some (default [] (m !! hk) ++ [key]) else m !! hk'.
Proof.
  unfold stage. destruct (m !! hk) as [ks|] eqn:Hks; simpl.
  - case_decide as Heq; [subst; by rewrite lookup_insert_eq | by rewrite lookup_insert_ne].
  - case_decide as Heq; [subst; by rewrite lookup_insert_eq | by rewrite lookup_insert_ne].
Qed.

(** The staging table of the band [i] after [Add(key, sig)]. *)
Lemma Add_lookup (f f' : LshForest) (key : string) (sig : Signature)
    (i : nat) (m' : initHashTable) :
  forest_inv f → sig_wf sig → Add f key sig = Some f' →
  initHashTables f' !! i = Some m' →
  ∃ m, initHashTables f !! i = Some m ∧
       m' = stage m (hashKeyFunc f (window f sig (Z.of_nat i) (k f))) key.
Proof.
  intros Hinv Hwf HAdd Hm'.
  pose proof (inv_k f Hinv) as Hk. pose proof (inv_l f Hinv) as Hl.
  apply Add_inv in HAdd as (Hs & HHs & _ & _ & _ & _ & _ & _ & Hinit).
  rewrite Hinit in Hm'.
  apply lookup_zip_with_Some in Hm' as (m & hk & -> & Hm & Hhk).
  exists m. split; [done|]. f_equal.
  apply mapM_Some_1 in HHs.
  assert (Z.of_nat (Z.to_nat (l f)) * k f <= Z.of_nat (length sig)) as Hlen.
  { apply addKey_nowrap; [done | done | lia |]. intros j Hj.
    destruct (Forall2_lookup_l _ _ _ j (Z.of_nat j) HHs) as (hkj & _ & Hkj).
    - apply lookup_seqZ. lia.
    - by eexists. }
  destruct (Forall2_lookup_r _ _ _ _ _ HHs Hhk) as (iz & Hiz & Hkey).
  apply lookup_seqZ in Hiz as [-> Hlt]. rewrite Z.add_0_l in Hkey.
  rewrite addKey_Some in Hkey; [congruence | lia | done | lia | nia].
Qed.

(** The tables of an index hold the items of the calls of [Add]: the
    staging tables the pending ones, in the order of the calls, the band
    tables the indexed ones. *)
Lemma built_with_inv (gen : Z → list Z → string) (f : LshForest)
    (indexed pending : list item) :
  built_with gen f indexed pending →
  (∀ (i : nat) (m : initHashTable) hk, initHashTables f !! i = Some m →
     m !! hk = match keysOf f (Z.of_nat i) hk pending with
               | [] => None
               | ks => Some ks
               end) ∧
  (∀ (i : nat) ht hk key, hashTables f !! i = Some ht →
     (∃ b, b ∈ ht ∧ hashKey b = hk ∧ key ∈ keys b) ↔
     key ∈ keysOf f (Z.of_nat i) hk indexed).
Proof.
  induction 1 as [kv lv hvs f Hk Hl Hw Hnew
                 | f f' key sig indexed pending Hb [IHs IHt] Hwf HAdd
                 | f f' indexed pending Hb [IHs IHt] HI].
  - unfold newLshForest in Hnew. destruct (_ || _); [done|]. injection Hnew as <-.
    simpl. split.
    + intros i m hk [-> _]%lookup_replicate. by rewrite lookup_empty.
    + intros i ht hk key [-> _]%lookup_replicate. unfold keysOf. simpl. split.
      * intros (b & Hb%elem_of_nil & _). done.
      * intros ?%elem_of_nil. done.
  - pose proof (built_inv gen f (built_with_built gen f _ _ Hb)) as Hinv.
    pose proof HAdd as HAdd'.
    apply Add_inv in HAdd' as (Hs & _ & _ & Hk & _ & _ & Hfn & Hht & _).
    split.
    + intros i m' hk Hm'.
      destruct (Add_lookup f f' key sig i m' Hinv Hwf HAdd Hm') as (m & Hm & ->).
      rewrite stage_lookup_eq, (keysOf_ext f f'), keysOf_app, keysOf_singleton by done.
      rewrite !(IHs i m) by done.
      case_decide as Heq.
      * subst hk. rewrite decide_True by done.
        by destruct (keysOf f (Z.of_nat i) _ pending).
      * rewrite decide_False by done. by rewrite app_nil_r.
    + intros i ht hk key'. rewrite Hht, (keysOf_ext f f') by done. apply IHt.
  - pose proof (built_inv gen f (built_with_built gen f _ _ Hb)) as Hinv.
    pose proof (Index_k _ _ HI) as Hk. pose proof (Index_hashKeyFunc _ _ HI) as Hfn.
    split.
    + intros i m hk Hm. unfold keysOf. simpl.
      rewrite (Index_initHashTables _ _ HI) in Hm.
      rewrite (inv_hashTables_length f Hinv) in Hm.
      rewrite <- (inv_initHashTables_length f Hinv), drop_all, app_nil_r in Hm.
      apply lookup_replicate in Hm as [-> _]. by rewrite lookup_empty.
    + intros i ht' hk key Hht'.
      destruct (Index_rel_lookup _ _ _ _ HI Hht') as (ht & m & Hht & Hm & [Hp _]).
      rewrite (keysOf_ext f f'), keysOf_app, elem_of_app by done.
      rewrite <- (IHt i ht hk key Hht). split.
      * intros (b & Hbin & Hhk & Hkey). rewrite Hp in Hbin.
        apply elem_of_app in Hbin as [Hbin|Hbin]; [left; by exists b | right].
        apply elem_of_staged in Hbin. rewrite (IHs i m) in Hbin by done.
        subst hk. destruct (keysOf f (Z.of_nat i) (hashKey b) pending); [done|].
        congruence.
      * intros [(b & Hbin & Hhk & Hkey) | Hkey].
        -- exists b. split; [|done]. rewrite Hp. apply elem_of_app. by left.
        -- exists (mkBucket hk (keysOf f (Z.of_nat i) hk pending)). simpl.
           split; [|done]. rewrite Hp. apply elem_of_app. right.
           apply elem_of_staged. simpl. rewrite (IHs i m) by done.
           by destruct (keysOf f (Z.of_nat i) hk pending); [apply elem_of_nil in Hkey|].
Qed.

(** Each item of an index has the values of every band. *)
Lemma built_with_items (gen : Z → list Z → string) (f : LshForest)
    (indexed pending : list item) (key : string) (sig : Signature) :
  built_with gen f indexed pending → (key, sig) ∈ indexed ++ pending →
  sig_wf sig ∧ k f * l f <= Z.of_nat (length sig).
Proof.
  induction 1 as [kv lv hvs f Hk Hl Hw Hnew
                 | f f' key' sig' indexed pending Hb IH Hwf HAdd
                 | f f' indexed pending Hb IH HI]; intros Hin.
  - by apply elem_of_nil in Hin.
  - pose proof (built_inv gen f (built_with_built gen f _ _ Hb)) as Hinv.
    pose proof (inv_k f Hinv) as Hk. pose proof (inv_l f Hinv) as Hl.
    pose proof HAdd as HAdd'.
    apply Add_inv in HAdd' as (Hs & HHs & _ & -> & -> & _).
    rewrite app_assoc in Hin. apply elem_of_app in Hin as [Hin|Hin]; [by apply IH|].
    apply list_elem_of_singleton in Hin as [= -> ->]. split; [done|].
    pose proof (addKey_nowrap f sig' (Z.to_nat (l f)) Hk Hwf) as Hno.
    rewrite Z2Nat.id in Hno by lia. rewrite Z.mul_comm. apply Hno; [lia|].
    intros j Hj.
    assert (is_Some (mapM (addKey f sig') (seqZ 0 (l f)))) as HSome by (by eexists).
    rewrite mapM_is_Some, Forall_lookup in HSome.
    apply (HSome j (Z.of_nat j)). apply lookup_seqZ. lia.
  - rewrite (Index_k _ _ HI), (Index_l _ _ HI). apply IH. by rewrite app_nil_r in Hin.
Qed.

(** X13: the staging table of the band [i] maps a hash key to the keys of
    the items added since the last call of [Index] whose window in the band
    [i] has this hash key, in the order of the calls of [Add], and has no
    entry for the other hash keys. *)
Theorem Add_stages_in_order (gen : Z → list Z → string) (f : LshForest)
    (indexed pending : list item) (i : nat) (m : initHashTable) (hk : string)
    (ks : list string) :
  built_with gen f indexed pending → initHashTables f !! i = Some m →
  m !! hk = Some ks ↔ ks ≠ [] ∧ ks = keysOf f (Z.of_nat i) hk pending.
Proof.
  intros Hb Hm. destruct (built_with_inv gen f indexed pending Hb) as [Hs _].
  rewrite (Hs i m hk Hm).
  destruct (keysOf f (Z.of_nat i) hk pending) as [|x xs].
  - split; [done | by intros [? ->]].
  - split; [by intros [= <-] | by intros [_ ->]].
Qed.

Lemma Add_stages_in_order_witness :
  built_with encodeValues forest3 [("A", sigA)] [("B", sigA)] ∧
  initHashTables forest3 !! 0%nat = Some {[ encodeValues 4 [1; 1; 1; 1] := ["B"] ]} ∧
  (({[ encodeValues 4 [1; 1; 1; 1] := ["B"] ]} : initHashTable)
     !! encodeValues 4 [1; 1; 1; 1] = Some ["B"] ↔
   ["B"] ≠ [] ∧
   ["B"] = keysOf forest3 (Z.of_nat 0) (encodeValues 4 [1; 1; 1; 1]) [("B", sigA)]).
Proof.
  assert (initHashTables forest3 !! 0%nat = Some {[ encodeValues 4 [1; 1; 1; 1] := ["B"] ]})
    as Hm by (vm_compute; reflexivity).
  split; [exact forest3_built_with|]. split; [exact Hm|].
  exact (Add_stages_in_order encodeValues forest3 [("A", sigA)] [("B", sigA)] 0%nat
           {[ encodeValues 4 [1; 1; 1; 1] := ["B"] ]} (encodeValues 4 [1; 1; 1; 1]) ["B"]
           forest3_built_with Hm).
Defined.

Section Collisions.

Variable gen : Z → list Z → string.
Hypothesis gen_ok : hashKeyFuncGen_spec gen.

(** The first [K] values of a hash key of the band [i]. *)
Lemma strPrefix_window (f : LshForest) (sig : Signature) (i K : Z)
    (ht : hashTable) (b : bucket) :
  forest_enc gen f → 0 <= K <= k f → ht ∈ hashTables f → b ∈ ht →
  hashKey b = hashKeyFunc f (window f sig i (k f)) →
  strPrefix (hashKey b) (imul (hashValueSize f) K)
  = Some (hashKeyFunc f (window f sig i K)).
Proof.
  intros Henc HK Hht Hb Hhk.
  destruct (prefixSize_ok gen f K ht b Henc HK Hht Hb) as (_ & _ & ->).
  pose proof (enc_hashValueSize gen f Henc) as Hw.
  f_equal. rewrite Hhk, (enc_hashKeyFunc gen f Henc).
  rewrite Z2Nat.inj_mul by lia.
  rewrite <- (gen_prefix gen gen_ok) by lia. f_equal.
  unfold window. rewrite take_take. f_equal. lia.
Qed.

(** X14: a run of [Query] that returns sends exactly the keys of the items
    added before the last call of [Index] whose signature has, in one of
    the bands searched, the same encoding of the first [K] values of the
    band as the signature of the query; no key added after the last call of
    [Index] and no key that was never added is sent. *)
Theorem Query_returns_collisions (f : LshForest) (indexed pending : list item)
    (sig : Signature) (K L : Z) (out : list string) (key : string) :
  let K' := if K =? -1 then k f else K in
  let L' := if L =? -1 then l f else L in
  built_with gen f indexed pending → sig_wf sig → is_int K →
  Query_rel f sig K L out →
  key ∈ out ↔
  ∃ sig' i, (key, sig') ∈ indexed ∧ 0 <= i < L' ∧
            hashKeyFunc f (window f sig' i K') = hashKeyFunc f (window f sig i K').
Proof.
  intros K' L' Hbw Hwf HK Hout.
  pose proof (built_with_built gen f _ _ Hbw) as Hb.
  pose proof (built_inv gen f Hb) as Hinv.
  pose proof (built_enc gen gen_ok f Hb) as Henc.
  pose proof (inv_k f Hinv) as Hk.
  destruct (built_with_inv gen f indexed pending Hbw) as [_ Htables].
  pose proof (is_int_default f K Hinv HK) as HK'. fold K' in HK'.
  rewrite (Query_rel_elem_of _ _ _ _ _ _ Hout).
  destruct Hout as (streams & _ & Hstreams & _).
  unfold Query_bands in *. fold K' L' in Hstreams |- *.
  destruct (searchBands_Some_inv _ _ _ _ _ Hstreams) as (HL & HLle & Hkeys).
  assert (∀ i : nat, (i < Z.to_nat L')%nat →
            0 <= K' ∧
            queryKey f sig K' (Z.of_nat i) = Some (hashKeyFunc f (window f sig (Z.of_nat i) K')))
    as Hwin.
  { intros i Hi.
    destruct (queryKey_nowrap f sig K' i Hk Hwf HK') as [HK0 Hlen].
    - intros j Hj. apply Hkeys. lia.
    - split; [done|]. apply queryKey_window; (done || lia). }
  split.
  - intros (streams' & s & Hs' & Hs & Hkey).
    assert (streams' = streams) as -> by congruence.
    destruct (proj1 (searchBands_elem_of gen f sig K' L' streams key Hinv Henc Hwf HK' Hstreams))
      as (i & ht & b & hk & Hi & Hht & Hbin & Hkeyb & Hq & Hpre); [by exists s|].
    assert (ht ∈ hashTables f) as Hhtin by (by eapply list_elem_of_lookup_2).
    pose proof (found_K_le gen f sig K' (Z.of_nat i) hk ht b Henc Hwf HK' Hq Hhtin Hbin Hpre)
      as HKle.
    assert (key ∈ keysOf f (Z.of_nat i) (hashKey b) indexed) as Hitem.
    { apply (Htables i ht (hashKey b) key Hht). by exists b. }
    apply elem_of_keysOf in Hitem as (sig' & Hin & Hhk).
    exists sig', (Z.of_nat i). split; [done|]. split; [lia|].
    rewrite (strPrefix_window f sig' (Z.of_nat i) K' ht b) in Hpre by done.
    destruct (Hwin i Hi) as [_ Hq']. congruence.
  - intros (sig' & iz & Hin & Hi & Heq).
    assert (∃ i : nat, iz = Z.of_nat i ∧ (i < Z.to_nat L')%nat) as (i & -> & Hi').
    { exists (Z.to_nat iz). lia. }
    destruct (Hwin i Hi') as [HK0 Hq].
    destruct (lookup_lt_is_Some_2 (hashTables f) i) as [ht Hht]; [lia|].
    assert (ht ∈ hashTables f) as Hhtin by (by eapply list_elem_of_lookup_2).
    destruct (proj2 (Htables i ht (hashKeyFunc f (window f sig' (Z.of_nat i) (k f))) key Hht))
      as (b & Hbin & Hhk & Hkeyb).
    { apply elem_of_keysOf. by exists sig'. }
    assert (K' <= k f) as HKle.
    { destruct (decide (K' <= k f)) as [|Hgt]; [done|].
      destruct (lookup_lt_is_Some_2 streams i) as [s Hs].
      { destruct (searchBands_length _ _ _ _ _ Hstreams). lia. }
      destruct (searchBands_lookup _ _ _ _ _ _ _ Hstreams Hs) as (hk' & ht' & _ & Hht' & Hband).
      assert (ht' = ht) as -> by congruence.
      rewrite (bandSearch_panics gen f sig K' (Z.of_nat i)
                 (hashKeyFunc f (window f sig (Z.of_nat i) K')) hk' ht Henc Hwf HK') in Hband;
        [done | lia | exact Hq | done |].
      intros ->. by apply elem_of_nil in Hbin. }
    destruct (proj2 (searchBands_elem_of gen f sig K' L' streams key Hinv Henc Hwf HK' Hstreams))
      as (s & Hs & Hkey).
    { exists i, ht, b, (hashKeyFunc f (window f sig (Z.of_nat i) K')).
      split; [done|]. split; [done|]. split; [done|]. split; [done|]. split; [done|].
      rewrite (strPrefix_window f sig' (Z.of_nat i) K' ht b); [by rewrite Heq | done | lia | done | done | done]. }
    by exists streams, s.
Qed.

(** X15: every item added before the last call of [Index] is found with its
    own signature: [Query] with that signature, any [K] in [0, f.k] and any
    [L] in [1, f.l] returns, and every run sends the key of the item. *)
Theorem Query_finds_indexed (f : LshForest) (indexed pending : list item)
    (key : string) (sig : Signature) (K L : Z) :
  let K' := if K =? -1 then k f else K in
  let L' := if L =? -1 then l f else L in
  built_with gen f indexed pending → (key, sig) ∈ indexed →
  0 <= K' <= k f → 1 <= L' <= l f →
  (∃ out, Query_rel f sig K L out) ∧
  (∀ out, Query_rel f sig K L out → key ∈ out).
Proof.
  intros K' L' Hbw Hin HK HL.
  pose proof (built_with_built gen f _ _ Hbw) as Hb.
  pose proof (built_inv gen f Hb) as Hinv.
  pose proof (built_enc gen gen_ok f Hb) as Henc.
  pose proof (inv_k f Hinv) as Hk.
  destruct (built_with_inv gen f indexed pending Hbw) as [_ Htables].
  destruct (built_with_items gen f indexed pending key sig Hbw) as [Hwf Hlen].
  { apply elem_of_app. by left. }
  assert (is_int K') as HKint by (unfold is_int, min_int; lia).
  assert (∀ i : nat, (i < Z.to_nat L')%nat →
            queryKey f sig K' (Z.of_nat i) = Some (hashKeyFunc f (window f sig (Z.of_nat i) K')))
    as Hwin.
  { intros i Hi. apply queryKey_window; [lia | done | lia | lia | nia]. }
  assert (is_Some (Query_bands f sig K L)) as [streams Hstreams].
  { unfold Query_bands. fold K' L'.
    apply (searchBands_built_is_Some gen); [done | done | done | lia |].
    intros i Hi. by rewrite Hwin. }
  split; [apply Query_rel_exists; by eexists|].
  intros out Hout. apply (Query_rel_elem_of _ _ _ _ _ _ Hout).
  unfold Query_bands in Hstreams. fold K' L' in Hstreams.
  destruct (lookup_lt_is_Some_2 (hashTables f) 0) as [ht Hht].
  { rewrite (inv_hashTables_length f Hinv). lia. }
  assert (ht ∈ hashTables f) as Hhtin by (by eapply list_elem_of_lookup_2).
  destruct (proj2 (Htables 0%nat ht (hashKeyFunc f (window f sig (Z.of_nat 0) (k f))) key Hht))
    as (b & Hbin & Hhk & Hkeyb).
  { apply elem_of_keysOf. by exists sig. }
  destruct (proj2 (searchBands_elem_of gen f sig K' L' streams key Hinv Henc Hwf HKint Hstreams))
    as (s & Hs & Hkey).
  { exists 0%nat, ht, b, (hashKeyFunc f (window f sig (Z.of_nat 0) K')).
    split; [lia|]. split; [done|]. split; [done|]. split; [done|].
    split; [apply Hwin; lia|].
    by apply (strPrefix_window f sig (Z.of_nat 0) K' ht b). }
  exists streams, s. unfold Query_bands. fold K' L'. done.
Qed.

End Collisions.

Lemma Query_returns_collisions_witness :
  built_with encodeValues forest6 [("A", sigA); ("B", sigA); ("C", sigC)] [] ∧
  sig_wf sigQ ∧ is_int 4 ∧ Query_rel forest6 sigQ 4 4 ["A"; "B"; "C"] ∧
  ("C" ∈ ["A"; "B"; "C"] ↔
   ∃ sig' i, ("C", sig') ∈ [("A", sigA); ("B", sigA); ("C", sigC)] ∧ 0 <= i < 4 ∧
             hashKeyFunc forest6 (window forest6 sig' i 4)
             = hashKeyFunc forest6 (window forest6 sigQ i 4)).
Proof.
  split; [exact forest6_built_with|]. split; [exact sigQ_wf|]. split; [exact is_int_4|].
  split; [exact forest6_Query|].
  exact (Query_returns_collisions encodeValues encodeValues_spec forest6
           [("A", sigA); ("B", sigA); ("C", sigC)] [] sigQ 4 4 ["A"; "B"; "C"] "C"
           forest6_built_with sigQ_wf is_int_4 forest6_Query).
Defined.

Lemma Query_finds_indexed_witness :
  built_with encodeValues forest6 [("A", sigA); ("B", sigA); ("C", sigC)] [] ∧
  ("C", sigC) ∈ [("A", sigA); ("B", sigA); ("C", sigC)] ∧
  0 <= 2 <= k forest6 ∧ 1 <= 1 <= l forest6 ∧
  (∃ out, Query_rel forest6 sigC 2 1 out) ∧
  (∀ out, Query_rel forest6 sigC 2 1 out → "C" ∈ out).
Proof.
  assert (("C", sigC) ∈ [("A", sigA); ("B", sigA); ("C", sigC)]) as Hin
    by (do 2 right; left).
  assert (0 <= 2 <= k forest6) as HK by (vm_compute; split; discriminate).
  assert (1 <= 1 <= l forest6) as HL by (vm_compute; split; discriminate).
  split; [exact forest6_built_with|]. split; [exact Hin|]. split; [exact HK|].
  split; [exact HL|].
  exact (Query_finds_indexed encodeValues encodeValues_spec forest6
           [("A", sigA); ("B", sigA); ("C", sigC)] [] "C" sigC 2 1
           forest6_built_with Hin HK HL).
Defined.

(** ** An index without an item *)

Lemma bandIndexed_replicate (n : nat) (hts : list hashTable) :
  Forall2 (λ p ht', bandIndexed p.1 p.2 ht') (replicate n ([], ∅)) hts →
  hts = replicate n [].
Proof.
  revert hts. induction n as [|n IH]; intros hts Hall; simpl in *.
  - by apply Forall2_nil_inv_l in Hall.
  - apply Forall2_cons_inv_l in Hall as (ht' & hts' & [Hp _] & Hall & ->).
    simpl in Hp. unfold staged in Hp. rewrite map_to_list_empty in Hp. simpl in Hp.
    apply Permutation_nil_r in Hp as ->. f_equal. by apply IH.
Qed.

(** X16: on an index that a constructor has just returned, [Index] changes
    nothing, and every query that returns sends no key. *)
Theorem new_index_empty (gen : Z → list Z → string) (kv lv hvs : Z) (f : LshForest) :
  newLshForest gen kv lv hvs = Some f →
  Index f = Some f ∧
  (∀ f', Index_rel f f' → f' = f) ∧
  (∀ sig K L out, Query_rel f sig K L out → out = []).
Proof.
  unfold newLshForest. destruct (_ || _); [done|]. intros [= <-].
  split; [|split].
  - unfold Index. simpl. rewrite !length_replicate.
    rewrite decide_True by done. do 2 f_equal.
    + by rewrite drop_replicate, Nat.sub_diag, app_nil_r.
    + rewrite zip_with_replicate. f_equal.
  - intros [k' l' init' hts' fn' hvs'] [_ Hk Hl Hw Hfn Hht Hinit]; simpl in *. subst.
    rewrite length_replicate, drop_replicate, Nat.sub_diag, app_nil_r.
    f_equal. apply bandIndexed_replicate.
    by rewrite (zip_with_replicate pair) in Hht.
  - intros sig K L out Hout.
    destruct out as [|key out]; [done|]. exfalso.
    assert (key ∈ key :: out) as Hkey by left.
    apply (Query_rel_elem_of _ _ _ _ _ _ Hout) in Hkey
      as (streams & s & Hstreams & [i Hi]%list_elem_of_lookup & Hkey).
    destruct (searchBands_lookup _ _ _ _ _ _ _ Hstreams Hi) as (hk & ht & _ & Hht & Hband).
    simpl in Hht. apply lookup_replicate in Hht as [-> _].
    rewrite bandSearch_nil in Hband. injection Hband as <-. by apply elem_of_nil in Hkey.
Qed.

Lemma new_index_empty_witness :
  NewLshForest encodeValues 4 4 = Some forest0 ∧
  Index forest0 = Some forest0 ∧
  (∀ f', Index_rel forest0 f' → f' = forest0) ∧
  (∀ sig K L out, Query_rel forest0 sig K L out → out = []).
Proof.
  split; [exact forest0_new|].
  exact (new_index_empty encodeValues 4 4 4 forest0 forest0_new).
Defined.

(** ** [OptimalKL] without a usable pair *)

Section NoOptimum.

Variable probFalsePositive probFalseNegative : Z → Z → Z → Z → float64 → float64 → float64.
Variable x q : Z.
Variable t : float64.
Variable kmax : Z.

Local Abbreviation err := (currErr probFalsePositive probFalseNegative x q t).
Local Abbreviation body := (optStep probFalsePositive probFalseNegative x q t).
Local Abbreviation row := (optRow probFalsePositive probFalseNegative x q t kmax).

Local Abbreviation zinv := (zeroInv probFalsePositive probFalseNegative x q t kmax).

Lemma optStep_zeroInv (lv j : Z) (s : optState) :
  1 <= lv → 0 <= j < kmax →
  zinv lv j s → zinv lv (j + 1) (body lv (j + 1) s).
Proof.
  intros Hlv Hj Hinv.
  assert (∀ p, scannedBefore kmax lv j p → scannedBefore kmax lv (j + 1) p) as Hmono.
  { intros [pl pk]. unfold scannedBefore. simpl. lia. }
  assert (scannedBefore kmax lv (j + 1) (lv, j + 1)) as Hnew.
  { unfold scannedBefore. simpl. lia. }
  unfold optStep. fold (err lv (j + 1)).
  destruct Hinv as [[-> Hnone] | (HK & HL & p & Hp & Hlt)].
  - simpl. destruct (f64_gt MaxFloat64 (err lv (j + 1))) eqn:Hgt.
    + right. simpl. split; [lia|]. split; [lia|]. by exists (lv, j + 1).
    + left. split; [done|]. intros [pl pk] Hp.
      destruct (decide ((pl, pk) = (lv, j + 1))) as [[= -> ->]|Hne]; [done|].
      apply Hnone. unfold scannedBefore in *. simpl in *.
      assert (pl ≠ lv ∨ pk ≠ j + 1) by (destruct (decide (pl = lv)); [right; congruence | by left]).
      lia.
  - right. destruct (f64_gt (minError s) (err lv (j + 1))); simpl.
    + split; [lia|]. split; [lia|]. exists p. split; [by apply Hmono | done].
    + split; [lia|]. split; [lia|]. exists p. split; [by apply Hmono | done].
Qed.

Lemma seqZ_to_nat (m n : Z) : seqZ m n = seqZ m (Z.of_nat (Z.to_nat n)).
Proof. unfold seqZ. by rewrite Nat2Z.id. Qed.

Lemma optRow_zeroInv (lv : Z) (s : optState) :
  1 <= lv → zinv lv 0 s → zinv (lv + 1) 0 (row s lv).
Proof.
  intros Hlv Hinv. unfold optRow. rewrite seqZ_to_nat.
  assert (∀ n : nat, Z.of_nat n <= Z.max 0 kmax →
            zinv lv (Z.of_nat n) (foldl (λ s kv, body lv kv s) s (seqZ 1 (Z.of_nat n)))) as Hn.
  { induction n as [|n IH]; intros Hle; [done|].
    rewrite seqZ_S, foldl_app. simpl.
    replace (Z.of_nat (S n)) with (Z.of_nat n + 1) by lia.
    replace (1 + Z.of_nat n) with (Z.of_nat n + 1) by lia.
    apply optStep_zeroInv; [done | lia | apply IH; lia]. }
  specialize (Hn (Z.to_nat kmax) ltac:(lia)).
  assert (∀ p, scannedBefore kmax (lv + 1) 0 p ↔
               scannedBefore kmax lv (Z.of_nat (Z.to_nat kmax)) p) as Hsame.
  { intros [pl pk]. unfold scannedBefore. simpl. lia. }
  destruct Hn as [[-> Hnone] | (HK & HL & p & Hp & Hlt)].
  - left. split; [done|]. intros p Hp. by apply Hnone, Hsame.
  - right. split; [done|]. split; [done|]. exists p. split; [by apply Hsame | done].
Qed.

Lemma optLoop_zeroInv (lmax : Z) :
  zinv (Z.max 0 lmax + 1) 0 (foldl row optInit (seqZ 1 lmax)).
Proof.
  rewrite seqZ_to_nat.
  assert (∀ n : nat,
            zinv (Z.of_nat n + 1) 0 (foldl row optInit (seqZ 1 (Z.of_nat n)))) as Hn.
  { induction n as [|n IH].
    - left. split; [done|]. intros [pl pk]. unfold scannedBefore. simpl. lia.
    - rewrite seqZ_S, foldl_app. simpl.
      replace (Z.of_nat (S n) + 1) with (Z.of_nat n + 1 + 1) by lia.
      replace (1 + Z.of_nat n) with (Z.of_nat n + 1) by lia.
      apply optRow_zeroInv; [lia | done]. }
  specialize (Hn (Z.to_nat lmax)).
  replace (Z.max 0 lmax) with (Z.of_nat (Z.to_nat lmax)) by lia. done.
Qed.

End NoOptimum.

(** X17: [OptimalKL] returns the zero values [(0, 0, 0, 0)], which name no
    pair of the grid, exactly when no pair of the grid has an error sum
    below [math.MaxFloat64]: when [f.k] or [f.l] is less than 1, or every
    sum is [NaN], [+Inf] or [MaxFloat64]. *)
Theorem OptimalKL_zero_values
    (probFalsePositive probFalseNegative : Z → Z → Z → Z → float64 → float64 → float64)
    (f : LshForest) (x q : Z) (t : float64) :
  k f < max_int → l f < max_int →
  OptimalKL probFalsePositive probFalseNegative f x q t
  = (0, 0, S754_zero false, S754_zero false) ↔
  ∀ lv kv, 1 <= lv <= l f → 1 <= kv <= k f →
    f64_gt MaxFloat64
      (f64_add (probFalseNegative x q lv kv t integrationPrecision)
               (probFalsePositive x q lv kv t integrationPrecision)) = false.
Proof.
  intros _ _. unfold OptimalKL.
  pose proof (optLoop_zeroInv probFalsePositive probFalseNegative x q t (k f) (l f)) as Hinv.
  fold (OptimalKL_loop probFalsePositive probFalseNegative f x q t) in Hinv.
  set (s := OptimalKL_loop probFalsePositive probFalseNegative f x q t) in *.
  assert (∀ p, scannedBefore (k f) (Z.max 0 (l f) + 1) 0 p ↔
               1 <= p.1 <= l f ∧ 1 <= p.2 <= k f) as Hgrid.
  { intros [pl pk]. unfold scannedBefore. simpl. lia. }
  destruct Hinv as [[-> Hnone] | (HK & HL & p & Hp & Hlt)].
  - split; [|done]. intros _ lv kv Hlv Hkv.
    apply (Hnone (lv, kv)). by apply Hgrid.
  - split.
    + intros [= HK0 _ _ _]. lia.
    + intros Hnone. apply Hgrid in Hp as [Hlv Hkv].
      unfold currErr in Hlt. rewrite (Hnone p.1 p.2 Hlv Hkv) in Hlt. done.
Qed.

Lemma OptimalKL_zero_values_witness :
  k forestNoBands < max_int ∧ l forestNoBands < max_int ∧
  (OptimalKL exampleFalsePositive exampleFalseNegative forestNoBands 10 5 f64_half
   = (0, 0, S754_zero false, S754_zero false) ↔
   ∀ lv kv, 1 <= lv <= l forestNoBands → 1 <= kv <= k forestNoBands →
     f64_gt MaxFloat64
       (f64_add (exampleFalseNegative 10 5 lv kv f64_half integrationPrecision)
                (exampleFalsePositive 10 5 lv kv f64_half integrationPrecision)) = false).
Proof.
  assert (k forestNoBands < max_int) as Hk by (vm_compute; reflexivity).
  assert (l forestNoBands < max_int) as Hl by (vm_compute; reflexivity).
  split; [exact Hk|]. split; [exact Hl|].
  exact (OptimalKL_zero_values exampleFalsePositive exampleFalseNegative forestNoBands
           10 5 f64_half Hk Hl).
Defined.

(** ** [OptimalKL] with any probabilities *)

Lemma SFltb_trans (a b c : spec_float) :
  SFltb a b = true → SFltb b c = true → SFltb a c = true.
Proof. float_order. Qed.

Lemma SFleb_ltb_trans (a b c : spec_float) :
  SFleb a b = true → SFltb b c = true → SFltb a c = true.
Proof. float_order. Qed.

Lemma SFltb_irrefl (a : spec_float) : SFltb a a = false.
Proof. float_order. Qed.

Section AnyProbabilities.

Variable probFalsePositive probFalseNegative : Z → Z → Z → Z → float64 → float64 → float64.
Variable x q : Z.
Variable t : float64.
Variable kmax : Z.

Local Abbreviation err := (currErr probFalsePositive probFalseNegative x q t).
Local Abbreviation body := (optStep probFalsePositive probFalseNegative x q t).
Local Abbreviation row := (optRow probFalsePositive probFalseNegative x q t kmax).
Local Abbreviation ainv := (anyInv probFalsePositive probFalseNegative x q t kmax).

Lemma optStep_anyInv (lv j : Z) (s : optState) :
  1 <= lv → 0 <= j < kmax →
  ainv lv j s → ainv lv (j + 1) (body lv (j + 1) s).
Proof.
  intros Hlv Hj Hinv.
  assert (∀ p, scannedBefore kmax lv (j + 1) p →
            scannedBefore kmax lv j p ∨ p = (lv, j + 1)) as Hsplit.
  { intros [pl pk]. unfold scannedBefore. simpl. intros (? & ? & [?|[? ?]]).
    - left. lia.
    - destruct (decide (pk = j + 1)) as [->|?]; [right; by subst | left; lia]. }
  assert (scannedBefore kmax lv (j + 1) (lv, j + 1)) as Hnew.
  { unfold scannedBefore. simpl. lia. }
  assert (∀ p, scannedBefore kmax lv j p → scanLt p lv (j + 1)) as Hbefore.
  { intros [pl pk]. unfold scannedBefore, scanLt. simpl. lia. }
  unfold optStep. fold (err lv (j + 1)).
  set (e := err lv (j + 1)) in *.
  destruct Hinv as [[-> Hnone] | (Hopt & Hfp & Hfn & Hmin & Hmax & Hle & Hfirst)].
  - simpl. destruct (f64_gt MaxFloat64 e) eqn:Hgt.
    + right. simpl. split; [done|]. split; [done|]. split; [done|]. split; [done|].
      split; [done|]. split.
      * intros p Hp. destruct (Hsplit p Hp) as [Hold| ->]; [|apply SFltb_irrefl].
        apply not_true_is_false. intros Hlt.
        pose proof (SFltb_trans _ _ _ Hlt Hgt) as Hc.
        specialize (Hnone p Hold). unfold f64_gt in Hnone. congruence.
      * intros p Hp Hlt. destruct (Hsplit p Hp) as [Hold| ->].
        -- apply not_true_is_false. intros Hleb.
           pose proof (SFleb_ltb_trans _ _ _ Hleb Hgt) as Hc.
           specialize (Hnone p Hold). unfold f64_gt in Hnone. congruence.
        -- unfold scanLt in Hlt. simpl in Hlt. lia.
    + left. split; [done|]. intros p Hp.
      destruct (Hsplit p Hp) as [Hold| ->]; [by apply Hnone | done].
  - right. destruct (f64_gt (minError s) e) eqn:Hgt; simpl.
    + split; [done|]. split; [done|]. split; [done|]. split; [done|].
      split; [exact (SFltb_trans _ _ _ Hgt Hmax)|]. split.
      * intros p Hp. destruct (Hsplit p Hp) as [Hold| ->]; [|apply SFltb_irrefl].
        apply not_true_is_false. intros Hlt.
        pose proof (SFltb_trans _ _ _ Hlt Hgt) as Hc.
        specialize (Hle p Hold). unfold f64_gt in Hle. congruence.
      * intros p Hp Hlt. destruct (Hsplit p Hp) as [Hold| ->].
        -- apply not_true_is_false. intros Hleb.
           pose proof (SFleb_ltb_trans _ _ _ Hleb Hgt) as Hc.
           specialize (Hle p Hold). unfold f64_gt in Hle. congruence.
        -- unfold scanLt in Hlt. simpl in Hlt. lia.
    + split.
      { unfold scannedBefore in *. simpl in *. lia. }
      split; [done|]. split; [done|]. split; [done|]. split; [done|]. split.
      * intros p Hp. destruct (Hsplit p Hp) as [Hold| ->]; [by apply Hle | done].
      * intros p Hp Hlt. destruct (Hsplit p Hp) as [Hold| ->]; [by apply Hfirst|].
        unfold scannedBefore, scanLt in *. simpl in *. lia.
Qed.

Lemma optRow_anyInv (lv : Z) (s : optState) :
  1 <= lv → ainv lv 0 s → ainv (lv + 1) 0 (row s lv).
Proof.
  intros Hlv Hinv. unfold optRow. rewrite seqZ_to_nat.
  assert (∀ n : nat, Z.of_nat n <= Z.max 0 kmax →
            ainv lv (Z.of_nat n) (foldl (λ s kv, body lv kv s) s (seqZ 1 (Z.of_nat n)))) as Hn.
  { induction n as [|n IH]; intros Hle; [done|].
    rewrite seqZ_S, foldl_app. simpl.
    replace (Z.of_nat (S n)) with (Z.of_nat n + 1) by lia.
    replace (1 + Z.of_nat n) with (Z.of_nat n + 1) by lia.
    apply optStep_anyInv; [done | lia | apply IH; lia]. }
  specialize (Hn (Z.to_nat kmax) ltac:(lia)).
  assert (∀ p, scannedBefore kmax (lv + 1) 0 p ↔
               scannedBefore kmax lv (Z.of_nat (Z.to_nat kmax)) p) as Hsame.
  { intros [pl pk]. unfold scannedBefore. simpl. lia. }
  destruct Hn as [[-> Hnone] | (Hopt & Hfp & Hfn & Hmin & Hmax & Hle & Hfirst)].
  - left. split; [done|]. intros p Hp. by apply Hnone, Hsame.
  - right. split; [by apply Hsame|].
    split; [done|]. split; [done|]. split; [done|]. split; [done|]. split.
    + intros p Hp. by apply Hle, Hsame.
    + intros p Hp Hlt. by apply Hfirst; [apply Hsame|].
Qed.

Lemma optLoop_anyInv (lmax : Z) :
  ainv (Z.max 0 lmax + 1) 0 (foldl row optInit (seqZ 1 lmax)).
Proof.
  rewrite seqZ_to_nat.
  assert (∀ n : nat,
            ainv (Z.of_nat n + 1) 0 (foldl row optInit (seqZ 1 (Z.of_nat n)))) as Hn.
  { induction n as [|n IH].
    - left. split; [done|]. intros [pl pk]. unfold scannedBefore. simpl. lia.
    - rewrite seqZ_S, foldl_app. simpl.
      replace (Z.of_nat (S n) + 1) with (Z.of_nat n + 1 + 1) by lia.
      replace (1 + Z.of_nat n) with (Z.of_nat n + 1) by lia.
      apply optRow_anyInv; [lia | done]. }
  specialize (Hn (Z.to_nat lmax)).
  replace (Z.max 0 lmax) with (Z.of_nat (Z.to_nat lmax)) by lia. done.
Qed.

End AnyProbabilities.

(** X18: whatever the probabilities are, when a pair of the grid has an
    error sum below [math.MaxFloat64], [OptimalKL] returns a pair of the
    grid with its two probabilities, whose sum is below [MaxFloat64]; no
    pair of the grid has a smaller sum, and no pair scanned earlier has a
    sum that is at most as large.  A sum that is [NaN] compares false and
    is skipped. *)
Theorem OptimalKL_skips_unusable
    (probFalsePositive probFalseNegative : Z → Z → Z → Z → float64 → float64 → float64)
    (f : LshForest) (x q : Z) (t : float64) (oK oL : Z) (ofp ofn : float64) :
  k f < max_int → l f < max_int →
  (∃ lv kv, 1 <= lv <= l f ∧ 1 <= kv <= k f ∧
     f64_gt MaxFloat64
       (f64_add (probFalseNegative x q lv kv t integrationPrecision)
                (probFalsePositive x q lv kv t integrationPrecision)) = true) →
  OptimalKL probFalsePositive probFalseNegative f x q t = (oK, oL, ofp, ofn) →
  1 <= oK <= k f ∧ 1 <= oL <= l f ∧
  ofp = probFalsePositive x q oL oK t integrationPrecision ∧
  ofn = probFalseNegative x q oL oK t integrationPrecision ∧
  f64_gt MaxFloat64 (f64_add ofn ofp) = true ∧
  (∀ lv kv, 1 <= lv <= l f → 1 <= kv <= k f →
     f64_gt (f64_add ofn ofp)
       (f64_add (probFalseNegative x q lv kv t integrationPrecision)
                (probFalsePositive x q lv kv t integrationPrecision)) = false) ∧
  (∀ lv kv, 1 <= lv <= l f → 1 <= kv <= k f →
     lv < oL ∨ (lv = oL ∧ kv < oK) →
     f64_le (f64_add (probFalseNegative x q lv kv t integrationPrecision)
                     (probFalsePositive x q lv kv t integrationPrecision))
            (f64_add ofn ofp) = false).
Proof.
  intros _ _ (lv0 & kv0 & Hlv0 & Hkv0 & Husable). unfold OptimalKL. intros [= <- <- <- <-].
  pose proof (optLoop_anyInv probFalsePositive probFalseNegative x q t (k f) (l f)) as Hinv.
  fold (OptimalKL_loop probFalsePositive probFalseNegative f x q t) in *.
  set (s := OptimalKL_loop probFalsePositive probFalseNegative f x q t) in *.
  assert (∀ p, scannedBefore (k f) (Z.max 0 (l f) + 1) 0 p ↔
               1 <= p.1 <= l f ∧ 1 <= p.2 <= k f) as Hgrid.
  { intros [pl pk]. unfold scannedBefore. simpl. lia. }
  destruct Hinv as [[_ Hnone] | (Hopt & Hfp & Hfn & Hmin & Hmax & Hle & Hfirst)].
  { specialize (Hnone (lv0, kv0)). unfold currErr in Hnone. simpl in Hnone.
    rewrite Hnone in Husable; [done|]. by apply Hgrid. }
  apply Hgrid in Hopt. simpl in Hopt.
  assert (f64_add (fn s) (fp s) = minError s) as Hsum.
  { by rewrite Hmin, Hfp, Hfn. }
  rewrite Hsum.
  split; [lia|]. split; [lia|]. split; [done|]. split; [done|]. split; [done|]. split.
  - intros lv kv Hlv Hkv. apply (Hle (lv, kv)). by apply Hgrid.
  - intros lv kv Hlv Hkv Hlt. apply (Hfirst (lv, kv)); [by apply Hgrid | done].
Qed.

Lemma OptimalKL_skips_unusable_witness :
  k forest4 < max_int ∧ l forest4 < max_int ∧
  OptimalKL exampleNaNFalsePositive exampleFalseNegative forest4 10 5 f64_half
  = (3, 1, f64_quarter, f64_quarter) ∧
  1 <= 3 <= k forest4 ∧ 1 <= 1 <= l forest4 ∧
  f64_quarter = exampleNaNFalsePositive 10 5 1 3 f64_half integrationPrecision ∧
  f64_quarter = exampleFalseNegative 10 5 1 3 f64_half integrationPrecision ∧
  f64_gt MaxFloat64 (f64_add f64_quarter f64_quarter) = true ∧
  (∀ lv kv, 1 <= lv <= l forest4 → 1 <= kv <= k forest4 →
     f64_gt (f64_add f64_quarter f64_quarter)
       (f64_add (exampleFalseNegative 10 5 lv kv f64_half integrationPrecision)
                (exampleNaNFalsePositive 10 5 lv kv f64_half integrationPrecision)) = false) ∧
  (∀ lv kv, 1 <= lv <= l forest4 → 1 <= kv <= k forest4 →
     lv < 1 ∨ (lv = 1 ∧ kv < 3) →
     f64_le (f64_add (exampleFalseNegative 10 5 lv kv f64_half integrationPrecision)
                     (exampleNaNFalsePositive 10 5 lv kv f64_half integrationPrecision))
            (f64_add f64_quarter f64_quarter) = false).
Proof.
  assert (k forest4 < max_int) as Hk by (vm_compute; reflexivity).
  assert (l forest4 < max_int) as Hl by (vm_compute; reflexivity).
  assert (OptimalKL exampleNaNFalsePositive exampleFalseNegative forest4 10 5 f64_half
          = (3, 1, f64_quarter, f64_quarter)) as Hrun by (vm_compute; reflexivity).
  split; [exact Hk|]. split; [exact Hl|]. split; [exact Hrun|].
  apply (OptimalKL_skips_unusable exampleNaNFalsePositive exampleFalseNegative forest4
           10 5 f64_half 3 1 f64_quarter f64_quarter Hk Hl); [|exact Hrun].
  exists 1, 3. split; [vm_compute; split; discriminate|].
  split; [vm_compute; split; discriminate|]. vm_compute. reflexivity.
Defined.
